(** * ether-converter: token-flow accounting

    A shallow embedding of the repository's accounting code:

    - the off-line correction script (swap normalisation, conversion to
      WETH with decimal.js, per-transaction and per-user aggregation);
    - the two versions of the subgraph helpers (the minimal one and the
      defensive one) and the liquidity-event handlers that call them.

    Amounts are rationals ([Q]).  Both decimal libraries round every
    arithmetic result to a fixed number of significant digits; that rounding
    is written out ([round_sig]) rather than idealised away. *)

From Stdlib Require Import ZArith QArith Qpower Qround Qabs Lqa Lia String Ascii.
From stdpp Require Import gmap strings list pretty.

(** ** Decimal arithmetic *)

Module Dec.

Local Open Scope Z_scope.

Definition ten : Q := 10 # 1.

(** [10 ^ k] as a rational, for any integer [k]. *)
Definition pow10 (k : Z) : Q := Qpower ten k.

(** Number of decimal digits of a positive integer ([0] for [n <= 0]). *)
Fixpoint digits_loop (fuel : nat) (n : Z) : Z :=
  match fuel with
  | O => 0
  | S f => if n <? 10 then 1 else 1 + digits_loop f (n / 10)
  end.

Definition ndigits (n : Z) : Z :=
  if n <=? 0 then 0 else digits_loop (S (Z.to_nat (Z.log2 n))) n.

(** Decimal exponent of a positive rational: the [e] with
    [10^e <= x < 10^(e+1)]. *)
Definition ilog10 (x : Q) : Z :=
  let t := ndigits (Qnum x) - ndigits (Zpos (Qden x)) in
  if Qle_bool (pow10 t) x then t else t - 1.

(** Nearest integer, ties away from zero (ROUND_HALF_UP). *)
Definition round_half_up (x : Q) : Z :=
  if Qle_bool 0 x then Qfloor (x + (1 # 2)) else - Qfloor (- x + (1 # 2)).

(** Rounding to [p] significant decimal digits, ties away from zero. *)
Definition round_sig (p : Z) (x : Q) : Q :=
  if Qeq_bool x 0 then 0%Q
  else
    let k := ilog10 (Qabs x) - p + 1 in
    Qred (inject_Z (round_half_up (x / pow10 k)) * pow10 k).

(** A value that a [p]-digit decimal holds without loss. *)
Definition representable (p : Z) (x : Q) : Prop := round_sig p x == x.

End Dec.

(** ** JavaScript strings and decimal.js *)

Module Js.

Local Open Scope string_scope.

(** [String.prototype.toLowerCase] on the ASCII range (token identities,
    providers and transaction hashes are hexadecimal text). *)
Definition lower_ascii (c : ascii) : ascii :=
  let n := nat_of_ascii c in
  if Nat.leb 65 n && Nat.leb n 90 then ascii_of_nat (n + 32) else c.

Fixpoint toLowerCase (s : string) : string :=
  match s with
  | EmptyString => EmptyString
  | String c r => String (lower_ascii c) (toLowerCase r)
  end.

(** Truthiness of a string: the empty string is falsy. *)
Definition truthy (s : string) : bool :=
  match s with EmptyString => false | _ => true end.

(** [a || b] on strings. *)
Definition or_else (a b : string) : string := if truthy a then a else b.

Definition is_digit (c : ascii) : bool :=
  let n := nat_of_ascii c in Nat.leb 48 n && Nat.leb n 57.

Definition digit_val (c : ascii) : Z := Z.of_nat (nat_of_ascii c - 48).

(** Reads the longest prefix of decimal digits: its value, its length and
    the rest of the string. *)
Fixpoint read_digits (s : string) (acc : Z) (cnt : Z) : Z * Z * string :=
  match s with
  | String c r =>
      if is_digit c then read_digits r (10 * acc + digit_val c)%Z (cnt + 1)%Z
      else (acc, cnt, s)
  | EmptyString => (acc, cnt, s)
  end.

(** The optional exponent part: [e] or [E], an optional sign, one or more
    digits, then the end of the string. *)
Definition parse_exponent (s : string) : option Z :=
  match s with
  | EmptyString => Some 0%Z
  | String c r =>
      if Ascii.eqb c "e" || Ascii.eqb c "E" then
        let '(sgn, r') :=
          match r with
          | String "+" r' => (1%Z, r')
          | String "-" r' => ((-1)%Z, r')
          | _ => (1%Z, r)
          end in
        let '(v, n, rest) := read_digits r' 0 0 in
        if (0 <? n)%Z && negb (truthy rest) then Some (sgn * v)%Z else None
      else None
  end.

(** After the sign decimal.js accepts: digits with an optional point and
    optional fraction digits, or a point followed by digits; then the
    optional exponent part. *)
Definition parse_unsigned (s : string) : option Q :=
  let '(ip, ni, r1) := read_digits s 0 0 in
  let has_dot := match r1 with String "." _ => true | _ => false end in
  let '(fp, nf, r2) :=
    match r1 with
    | String "." r => read_digits r 0 0
    | _ => (0%Z, 0%Z, r1)
    end in
  if (0 <? ni)%Z || (has_dot && (0 <? nf)%Z) then
    match parse_exponent r2 with
    | Some e => Some (Qred (inject_Z (ip * 10 ^ nf + fp) * Dec.pow10 (e - nf)))
    | None => None
    end
  else None.

(** [new Decimal(s)] for a string [s]: [None] when the constructor
    throws.  The constructor does not round.  Only base-10 literals are
    covered; the prefixed literals ([0x], [0b], [0o]), digit separators and
    non-finite values that decimal.js also accepts do not occur in event
    rows, whose amounts are serialised big integers. *)
Definition new_Decimal (s : string) : option Q :=
  match s with
  | String "-" r => option_map (fun q => Qred (- q)) (parse_unsigned r)
  | String "+" r => parse_unsigned r
  | _ => parse_unsigned s
  end.

(** decimal.js default configuration: 20 significant digits,
    ROUND_HALF_UP.  Every arithmetic method rounds its result.  (The script
    only ever divides by a power of ten, never by zero.) *)
Definition precision : Z := 20.

Definition Decimal_mul (a b : Q) : Q := Dec.round_sig precision (a * b).
Definition Decimal_div (a b : Q) : Q := Dec.round_sig precision (a / b).
Definition Decimal_plus (a b : Q) : Q := Dec.round_sig precision (a + b).
Definition Decimal_minus (a b : Q) : Q := Dec.round_sig precision (a - b).
Definition Decimal_pow (a : Q) (n : Z) : Q := Dec.round_sig precision (Qpower a n).

End Js.

(** ** The correction script (swap, convert, aggregate) *)

Module Script.

Import Js.
Local Open Scope string_scope.

(** Outcome of a JavaScript computation that may throw. *)
Inductive completion (A : Type) : Type :=
| Normal (a : A)
| Throw.
Arguments Normal {A} a.
Arguments Throw {A}.

Definition bind {A B} (c : completion A) (k : A -> completion B) : completion B :=
  match c with Normal a => k a | Throw => Throw end.

(** Addresses (lowercase). *)
Definition WETH : string := toLowerCase "0xee8c0e9f1bffb4eb878d8f15f368a02a35481242".
Definition WEETH : string := toLowerCase "0xa3d68b74bf0528fdd07263c60d6488749044914b".
Definition WSTETH : string := toLowerCase "0x10aeaf63194db8d453d4d85a06e5efe1dd0b5417".
Definition LP_TOKEN : string :=
  toLowerCase "0x5937e8aa8092eb2b18c40290a65d217e764bafaf2e6f5ddb594a692a9761b26f".

(** Conversion rates: the own properties of the object literal. *)
Definition CONVERSION_RATES : list (string * string) :=
  [ (WEETH, "1.0829400000000"); (WSTETH, "1.2208745075197"); (WETH, "1.00000") ].

Fixpoint own_property (o : list (string * string)) (k : string) : option string :=
  match o with
  | [] => None
  | (k', v) :: o' => if String.eqb k' k then Some v else own_property o' k
  end.

(** Property names every object literal inherits from [Object.prototype];
    reading one of them yields a function or an object, not [undefined]. *)
Definition Object_prototype_keys : list string :=
  [ "constructor"; "__defineGetter__"; "__defineSetter__"; "hasOwnProperty";
    "__lookupGetter__"; "__lookupSetter__"; "isPrototypeOf";
    "propertyIsEnumerable"; "toString"; "valueOf"; "__proto__";
    "toLocaleString" ].

Record EventRow := {
  id : option string;
  provider : option string;
  token : option string;
  amountRaw : option string;
  amountWETH : option string;
  blockNumber : option string;
  transactionHash : option string
}.

(** Page size of the pager. *)
Definition PAGE : nat := 1000.

(** What the endpoint sends back for one request, as [gql] tells the cases
    apart: a request that is rejected or answered with a status that is not
    ok; a body that is not an object; a non-empty [errors] array; no [data];
    or a [data] object, read by field name. *)
Inductive Response :=
| RequestFailed
| UnexpectedShape
| GraphQLErrors
| NoData
| Data (fields : string -> option (list EventRow)).

(** The endpoint, as a function of the entity name and of the variables
    [first] and [skip] of the query. *)
Definition Endpoint := string -> nat -> nat -> Response.

Definition gql (reply : Response) : completion (string -> option (list EventRow)) :=
  match reply with
  | RequestFailed => Throw
  | UnexpectedShape => Throw
  | GraphQLErrors => Throw
  | NoData => Normal (fun _ => None)
  | Data fields => Normal fields
  end.

(** Generic pager for a single entity name.  The loop has no bound of its
    own: [None] is a run that is still asking after [fuel] requests. *)
Fixpoint fetchAll_from (endpoint : Endpoint) (entity : string) (fuel : nat)
  (skip : nat) (out : list EventRow) : option (completion (list EventRow)) :=
  match fuel with
  | O => None
  | S fuel' =>
      match gql (endpoint entity PAGE skip) with
      | Throw => Some Throw
      | Normal data =>
          let items := default [] (data entity) in
          if (length items =? 0)%nat then Some (Normal out)
          else fetchAll_from endpoint entity fuel' (skip + length items) (out ++ items)
      end
  end.

Definition fetchAll (endpoint : Endpoint) (fuel : nat) (entity : string)
  : option (completion (list EventRow)) :=
  fetchAll_from endpoint entity fuel 0 [].

(** Try singular/plural names and concatenate results. *)
Fixpoint fetchAnyOf_from (endpoint : Endpoint) (fuel : nat) (candidates : list string)
  (out : list EventRow) : option (completion (list EventRow)) :=
  match candidates with
  | [] => Some (Normal out)
  | name :: rest =>
      match fetchAll endpoint fuel name with
      | None => None
      | Some Throw => fetchAnyOf_from endpoint fuel rest out
      | Some (Normal items) =>
          if (0 <? length items)%nat then fetchAnyOf_from endpoint fuel rest (out ++ items)
          else fetchAnyOf_from endpoint fuel rest out
      end
  end.

Definition fetchAnyOf (endpoint : Endpoint) (fuel : nat) (candidates : list string)
  : option (completion (list EventRow)) :=
  fetchAnyOf_from endpoint fuel candidates [].

Definition safeLower (s : option string) : string :=
  match s with Some s => toLowerCase s | None => "" end.

(** The double-quote character. *)
Definition dquote : ascii := "034"%char.

(** The global [replace] of [csvEscape]: every double quote is doubled. *)
Fixpoint double_quotes (s : string) : string :=
  match s with
  | EmptyString => EmptyString
  | String c r =>
      if Ascii.eqb c dquote then String dquote (String dquote (double_quotes r))
      else String c (double_quotes r)
  end.

Definition csvEscape (s : string) : string :=
  String dquote (double_quotes s ++ String dquote EmptyString).

(** [Array.prototype.join]. *)
Fixpoint join (sep : string) (l : list string) : string :=
  match l with
  | [] => ""
  | [x] => x
  | x :: rest => x ++ sep ++ join sep rest
  end.

(** A line of the CSV files: the escaped fields joined by commas. *)
Definition csvLine (fields : list string) : string := join "," (map csvEscape fields).

Definition rawToBigDecimal (raw : option string) : option Q :=
  match raw with
  | None => None
  | Some raw => if truthy raw then new_Decimal raw else None
  end.

Record SwapResult := {
  tokenBefore : string;
  tokenAfter : string;
  swapped : bool
}.

Definition swapTokenDeterministic (tokenRaw : option string) : SwapResult :=
  let token := safeLower tokenRaw in
  if negb (truthy token) then {| tokenBefore := ""; tokenAfter := ""; swapped := false |}
  else if String.eqb token WETH then
    {| tokenBefore := token; tokenAfter := WEETH; swapped := true |}
  else if String.eqb token WEETH then
    {| tokenBefore := token; tokenAfter := WETH; swapped := true |}
  else {| tokenBefore := token; tokenAfter := token; swapped := false |}.

(** [CONVERSION_RATES[tokenAfter] ?? '1.00000'].  [None] stands for the
    non-string value read through an inherited property name. *)
Definition conversionRateForToken (tokenAfter : string) : option string :=
  match own_property CONVERSION_RATES tokenAfter with
  | Some v => Some v
  | None =>
      if existsb (String.eqb tokenAfter) Object_prototype_keys then None
      else Some "1.00000"
  end.

(** The inner [option] is the script's [Decimal | null]; [Throw] is the
    uncaught error of [new Decimal] on a rate that is not a number. *)
Definition computeAmountWETHFromRaw (amountRaw conversionRateStr : option string)
  : completion (option Q) :=
  match rawToBigDecimal amountRaw with
  | None => Normal None
  | Some rawBig =>
      bind
        (match conversionRateStr with
         | Some s =>
             if truthy s then
               match new_Decimal s with Some c => Normal c | None => Throw end
             else Normal (1 # 1)
         | None => Normal (1 # 1)
         end)
        (fun conv =>
           Normal (Some (Decimal_div (Decimal_mul rawBig conv)
                                     (Decimal_pow (10 # 1) 18))))
  end.

(** Helper to create an injected deposit row: the human amount times
    10^18, printed with no fraction digits ([toFixed(0)]; the printed text
    is that of decimal.js for amounts that are not negative, as the injected
    ones are). *)
Definition makeManualDepositRow (id provider token amountDecimal blockNumber
  transactionHash : string) : completion EventRow :=
  match new_Decimal amountDecimal with
  | None => Throw
  | Some d =>
      let raw := pretty (Dec.round_half_up (Decimal_mul d (Decimal_pow (10 # 1) 18))) in
      Normal {| Script.id := Some id;
                provider := Some (toLowerCase provider);
                token := Some (toLowerCase token);
                amountRaw := Some raw;
                amountWETH := None;
                blockNumber := Some blockNumber;
                transactionHash := Some (toLowerCase transactionHash) |}
  end.

(** Manual deposit injections. *)
Definition manualDeposits : list (completion EventRow) :=
  [ makeManualDepositRow "manual-1" "0x750e9a7b449904f47b793b805db469fa6e025e33"
      WETH "4.99367" "39496719"
      "0x48d878e4b6669c34ef333d84e9d714d3db06047e3eeefe89ba7614237a70d2df";
    makeManualDepositRow "manual-2" "0x8d114f86f43c76e084ac9b82b073a744e3e55fdb"
      WEETH "0.705403" "39480009"
      "0x3eabc09680d2b1ffc2a0f4e26305d9cc54a1c4bbb85722cfc07fad3fd3c8898e";
    makeManualDepositRow "manual-3" "0x50d4df2878e44f0d4ba02502f0a3646f9daf5d5f"
      WETH "0.088141282419113033" "39454993"
      "0xbce6b32891e033c64c6a59c9c150a199e166cd65a56ae8f043f783a763f640d3" ].

Record CorrectedRow := {
  original : EventRow;
  row_tokenAfter : string;
  row_swapped : bool;
  amountWETHComputed : option Q;
  conversionRate : string
}.

(** Body of the two processing loops of [main]: one event row becomes one
    corrected row.  A rate that is not a string makes the audit line throw. *)
Definition correctRow (r : EventRow) : completion CorrectedRow :=
  let s := swapTokenDeterministic (token r) in
  match conversionRateForToken (tokenAfter s) with
  | None => Throw
  | Some convRate =>
      bind (computeAmountWETHFromRaw (amountRaw r) (Some convRate))
        (fun amount =>
           Normal {| original := r;
                     row_tokenAfter := tokenAfter s;
                     row_swapped := swapped s;
                     amountWETHComputed := amount;
                     conversionRate := convRate |})
  end.

Definition auditReason (c : CorrectedRow) : string :=
  if row_swapped c then "swapped-token" else "conversion-applied".

(** Key of the per-(user, transaction) map. *)
Definition txKey (r : CorrectedRow) : string :=
  let user := safeLower (provider (original r)) in
  let tx := or_else (safeLower (transactionHash (original r)))
                    (default "" (id (original r))) in
  user ++ "|" ++ tx.

(** One iteration of the loop of [computeTxAggregates]. *)
Definition txAggStep (map : gmap string Q) (r : CorrectedRow) : gmap string Q :=
  let key := txKey r in
  let isLP := String.eqb (row_tokenAfter r) LP_TOKEN in
  let map1 := match map !! key with Some _ => map | None => <[key := 0%Q]> map end in
  match amountWETHComputed r with
  | Some v =>
      if negb isLP then <[key := Decimal_plus (default 0%Q (map1 !! key)) v]> map1
      else map1
  | None => map1
  end.

Definition computeTxAggregates (corrected : list CorrectedRow) : gmap string Q :=
  fold_left txAggStep corrected ∅.

(** What the CSV writer reads for a key: [map.get(key) ?? new Decimal(0)]. *)
Definition txTotal (map : gmap string Q) (key : string) : Q :=
  default 0%Q (map !! key).

Record UserTotals := {
  deposits : Q;
  withdrawals : Q
}.

Definition noTotals : UserTotals := {| deposits := 0; withdrawals := 0 |}.

(** One iteration of the per-user loop over the corrected deposits. *)
Definition userDepositStep (userMap : gmap string UserTotals) (r : CorrectedRow)
  : gmap string UserTotals :=
  let user := safeLower (provider (original r)) in
  let v := default 0%Q (amountWETHComputed r) in
  let cur := default noTotals (userMap !! user) in
  <[user := {| deposits := Decimal_plus (deposits cur) v;
               withdrawals := withdrawals cur |}]> userMap.

(** One iteration of the per-user loop over the corrected withdrawals. *)
Definition userWithdrawalStep (userMap : gmap string UserTotals) (r : CorrectedRow)
  : gmap string UserTotals :=
  let user := safeLower (provider (original r)) in
  let v := default 0%Q (amountWETHComputed r) in
  let cur := default noTotals (userMap !! user) in
  <[user := {| deposits := deposits cur;
               withdrawals := Decimal_plus (withdrawals cur) v |}]> userMap.

Definition userAggregates (correctedDeposits correctedWithdrawals : list CorrectedRow)
  : gmap string UserTotals :=
  fold_left userWithdrawalStep correctedWithdrawals
    (fold_left userDepositStep correctedDeposits ∅).

(** What is read for a user: the stored totals, or zero totals. *)
Definition userTotals (userMap : gmap string UserTotals) (user : string) : UserTotals :=
  default noTotals (userMap !! user).

(** [remainingWETH], computed when the aggregate CSV is written. *)
Definition remaining (vals : UserTotals) : Q :=
  Decimal_minus (deposits vals) (withdrawals vals).

(** The two correction loops of [main]: an uncaught error ends the run. *)
Fixpoint correctAll (rows : list EventRow) : completion (list CorrectedRow) :=
  match rows with
  | [] => Normal []
  | r :: rest =>
      bind (correctRow r) (fun c =>
      bind (correctAll rest) (fun cs => Normal (c :: cs)))
  end.

Fixpoint allNormal {A : Type} (l : list (completion A)) : completion (list A) :=
  match l with
  | [] => Normal []
  | c :: rest =>
      bind c (fun a => bind (allNormal rest) (fun l' => Normal (a :: l')))
  end.

(** The per-user map that [main] builds from the fetched deposits and
    withdrawals: the injected deposits are appended to the fetched ones. *)
Definition main_userMap (deposits withdrawals : list EventRow)
  : completion (gmap string UserTotals) :=
  bind (allNormal manualDeposits) (fun manual =>
  bind (correctAll (deposits ++ manual)) (fun correctedDeposits =>
  bind (correctAll withdrawals) (fun correctedWithdrawals =>
  Normal (userAggregates correctedDeposits correctedWithdrawals)))).

End Script.

(** ** The subgraph runtime: bytes, addresses, hexadecimal text *)

Module Graph.

Local Open Scope string_scope.

(** Outcome of a handler or helper: a value, or the abort of the
    AssemblyScript runtime (which discards what the handler wrote). *)
Inductive outcome (A : Type) : Type :=
| Ok (a : A)
| Abort.
Arguments Ok {A} a.
Arguments Abort {A}.

Definition obind {A B} (c : outcome A) (k : A -> outcome B) : outcome B :=
  match c with Ok a => k a | Abort => Abort end.

#[global] Instance outcome_bind : MBind outcome :=
  fun A B k c => obind c k.
#[global] Instance outcome_ret : MRet outcome := fun A a => Ok a.

#[global] Instance byte_eq_dec : EqDecision Byte.byte := Byte.byte_eq_dec.

Abbreviation Bytes := (list Byte.byte).

(** An address is a byte array; a well-formed one is 20 bytes wide. *)
Abbreviation Address := (list Byte.byte).

Definition hex_digit (n : N) : ascii :=
  ascii_of_N (if (n <? 10)%N then 48 + n else 87 + n).

Definition byte_hex (b : Byte.byte) : string :=
  let n := Byte.to_N b in
  String (hex_digit (n / 16)) (String (hex_digit (n mod 16)) "").

Fixpoint hex_of_bytes (bs : Bytes) : string :=
  match bs with
  | [] => ""
  | b :: r => byte_hex b ++ hex_of_bytes r
  end.

(** [toHexString]: [0x] and two lower-case digits per byte. *)
Definition toHexString (bs : Bytes) : string := "0x" ++ hex_of_bytes bs.

Definition hex_val (c : ascii) : option N :=
  let n := N_of_ascii c in
  if (48 <=? n)%N && (n <=? 57)%N then Some (n - 48)%N
  else if (97 <=? n)%N && (n <=? 102)%N then Some (n - 87)%N
  else if (65 <=? n)%N && (n <=? 70)%N then Some (n - 55)%N
  else None.

Fixpoint bytes_of_hex (s : string) : option Bytes :=
  match s with
  | EmptyString => Some []
  | String _ EmptyString => None
  | String c1 (String c2 r) =>
      match hex_val c1, hex_val c2, bytes_of_hex r with
      | Some h, Some l, Some bs =>
          match Byte.of_N (16 * h + l) with
          | Some b => Some (b :: bs)
          | None => None
          end
      | _, _, _ => None
      end
  end.

(** [Bytes.fromHexString], whose result the helpers treat as nullable:
    [None] when the text is not an even number of hexadecimal digits after
    the optional [0x]. *)
Definition Bytes_fromHexString (hex : string) : option Bytes :=
  match hex with
  | String "0" (String "x" r) => bytes_of_hex r
  | _ => bytes_of_hex hex
  end.

(** [Address.fromBytes] refuses anything that is not 20 bytes wide. *)
Definition Address_fromBytes (b : Bytes) : outcome Address :=
  if (length b =? 20)%nat then Ok b else Abort.

(** [Address.fromString]: the text of a 20-byte address, or an abort. *)
Definition Address_fromString (s : string) : outcome Address :=
  match Bytes_fromHexString s with
  | Some b => Address_fromBytes b
  | None => Abort
  end.

(** An address constant of the source. *)
Definition address_literal (s : string) : Address :=
  match Address_fromString s with Ok a => a | Abort => [] end.

(** [==] on byte arrays. *)
Definition bytes_eqb (a b : Bytes) : bool := bool_decide (a = b).

(** The low four bytes of a two's-complement value, read as an [i32]. *)
Definition wrap32 (v : Z) : Z := ((v + 2 ^ 31) mod 2 ^ 32 - 2 ^ 31)%Z.

(** [BigInt.toI32].  The host hands a BigInt over as the shortest
    little-endian two's-complement byte array that holds it.  The conversion
    aborts only when a byte past the fourth is not sign padding, which is
    when the value is outside [-2^32, 2^32); otherwise it reads the low four
    bytes as an [i32], so a value from 2^31 up to 2^32 - 1 comes out
    negative. *)
Definition toI32 (v : Z) : outcome Z :=
  if ((- 2 ^ 32 <=? v) && (v <? 2 ^ 32))%Z then Ok (wrap32 v) else Abort.

(** [String.prototype.substr(0, n)] and [length]. *)
Definition substr0 (n : nat) (s : string) : string := substring 0 n s.

(** ** BigDecimal

    The host rounds the result of every BigDecimal operation; [rnd] is that
    rounding.  Literals of the source are short and taken as written. *)
Section BigDecimal.
Variable rnd : Q -> Q.

Definition plus (a b : Q) : Q := rnd (a + b).
Definition minus (a b : Q) : Q := rnd (a - b).
Definition times (a b : Q) : Q := rnd (a * b).
Definition div (a b : Q) : Q := rnd (a / b).
End BigDecimal.

Definition gt (a b : Q) : bool := negb (Qle_bool a b).

Definition toBigDecimal (v : Z) : Q := inject_Z v.

(** What the host must satisfy for the accounting to be sound: rounding
    is compatible with equality of values, monotone, and leaves a rounded
    value alone. *)
Record Rounding (rnd : Q -> Q) : Prop := {
  rnd_proper : forall x y : Q, x == y -> rnd x == rnd y;
  rnd_mono : forall x y : Q, (x <= y)%Q -> (rnd x <= rnd y)%Q;
  rnd_idem : forall x : Q, rnd (rnd x) == rnd x;
  rnd_zero : rnd 0%Q == 0%Q
}.

(** The host's BigDecimal keeps 34 significant digits (decimal128). *)
Definition decimal128 : Q -> Q := Dec.round_sig 34.

(** Chain state at the block of the event being handled: the contract
    calls the helpers make.  [None] is a reverted call. *)
Record Chain := {
  try_coins : Address -> Z -> option Address;
  try_decimals : Address -> option Z;
  try_decimalConversionRate : Address -> option Z
}.

Record Block := {
  number : Z;
  timestamp : Z
}.

End Graph.

(** ** Entities of the subgraph schema and the entity store *)

Module Schema.

Import Graph.

Record OracleRate := {
  oracle_id : string;
  oracle_token : Bytes;
  oracle_blockNumber : Z;
  oracle_blockTimestamp : Z;
  rateToETH : Q;
  source : string
}.

Record Pool := {
  pool_id : string;
  lpToken : Bytes;
  tokens : option (list (option Bytes));
  createdBlock : Z
}.

(** The entity as the store holds it keeps [tokens] as a value that may be
    missing and whose entries may be null.  [Pool_tokens] is the getter
    [pool.tokens] of the entity class, typed [Array<Bytes>]: it aborts when
    the field is missing, and the conversion of the stored list aborts on an
    entry that is not bytes. *)
Fixpoint allBytes (entries : list (option Bytes)) : outcome (list Bytes) :=
  match entries with
  | [] => Ok []
  | None :: _ => Abort
  | Some b :: rest =>
      match allBytes rest with
      | Ok bs => Ok (b :: bs)
      | Abort => Abort
      end
  end.

Definition Pool_tokens (p : Pool) : outcome (list Bytes) :=
  match tokens p with
  | None => Abort
  | Some entries => allBytes entries
  end.

Record User := {
  user_id : string;
  totalDepositedWETH : Q;
  totalWithdrawnWETH : Q;
  netLossWETH : Q;
  lastUpdatedBlock : Z
}.

(** A Deposit or a Withdrawal. *)
Record Flow := {
  flow_id : string;
  provider : Address;
  pool : string;
  token : Address;
  tokenIndex : Z;
  amountRaw : Z;
  amountWETH : Q;
  rateToETHId : string;
  blockNumber : Z;
  blockTimestamp : Z;
  transactionHash : Bytes
}.

Record Store := {
  pools : gmap string Pool;
  oracleRates : gmap string OracleRate;
  users : gmap string User;
  deposits : gmap string Flow;
  withdrawals : gmap string Flow
}.

Definition set_pools (f : gmap string Pool -> gmap string Pool) (s : Store) : Store :=
  {| pools := f (pools s); oracleRates := oracleRates s; users := users s;
     deposits := deposits s; withdrawals := withdrawals s |}.

Definition set_oracleRates (f : gmap string OracleRate -> gmap string OracleRate)
  (s : Store) : Store :=
  {| pools := pools s; oracleRates := f (oracleRates s); users := users s;
     deposits := deposits s; withdrawals := withdrawals s |}.

Definition set_users (f : gmap string User -> gmap string User) (s : Store) : Store :=
  {| pools := pools s; oracleRates := oracleRates s; users := f (users s);
     deposits := deposits s; withdrawals := withdrawals s |}.

Definition set_deposits (f : gmap string Flow -> gmap string Flow) (s : Store) : Store :=
  {| pools := pools s; oracleRates := oracleRates s; users := users s;
     deposits := f (deposits s); withdrawals := withdrawals s |}.

Definition set_withdrawals (f : gmap string Flow -> gmap string Flow) (s : Store) : Store :=
  {| pools := pools s; oracleRates := oracleRates s; users := users s;
     deposits := deposits s; withdrawals := f (withdrawals s) |}.

Definition emptyStore : Store :=
  {| pools := ∅; oracleRates := ∅; users := ∅; deposits := ∅; withdrawals := ∅ |}.

End Schema.

(** ** The minimal helpers *)

Module HelpersMinimal.

Import Graph Schema.
Local Open Scope string_scope.

Definition POOL_ADDRESS : Address :=
  Eval vm_compute in address_literal "0x2fD13b49F970e8C6D89283056C1c6281214b7EB6".
Definition WETH_ADDRESS : Address :=
  Eval vm_compute in address_literal "0xEE8c0E9f1BFFb4Eb878d8f15f368A02a35481242".
Definition WEETH_ADDRESS : Address :=
  Eval vm_compute in address_literal "0xA3D68b74bF0528fdD07263c60d6488749044914b".
Definition WSTETH_ADDRESS : Address :=
  Eval vm_compute in address_literal "0x10Aeaf63194db8d453d4D85a06E5eFE1dd0b5417".

Definition ZERO : string := "0x0000000000000000000000000000000000000000".

(** Make a per-token id: txPrefix-logIndex-tokenIndex. *)
Definition makePerTokenId (txHash : string) (logIndex : Z) (tokenIndex : Z) : string :=
  txHash ++ "-" ++ pretty logIndex ++ "-" ++ pretty tokenIndex.

(** The decimals cache only ever holds the default it was filled with, so
    a hit and a miss both answer 18. *)
Definition fetchTokenDecimals (token : Address) : Z := 18.

(** Resolve token address from Pool.tokens.  The list is read through the
    getter, so the null test that follows it never succeeds; the element is
    handed to [Address.fromBytes] unchecked. *)
Definition getTokenAddressFromPool (pool : option Pool) (index : Z) : outcome Address :=
  match pool with
  | None => Ok (address_literal ZERO)
  | Some pool =>
      match Pool_tokens pool with
      | Abort => Abort
      | Ok tokens =>
          if ((index <? 0) || (Z.of_nat (length tokens) <=? index))%Z
          then Ok (address_literal ZERO)
          else
            match tokens !! Z.to_nat index with
            | Some bytesValue => Address_fromBytes bytesValue
            | None => Abort
            end
      end
  end.

(** Minimal oracle rate creation/lookup. *)
Definition getOrCreateOracleRate (token : Address) (block : Block) (rate : Q)
  (source : string) (s : Store) : OracleRate * Store :=
  let id := toHexString token ++ "-" ++ pretty (number block) in
  match oracleRates s !! id with
  | Some r => (r, s)
  | None =>
      let r := {| oracle_id := id; oracle_token := token;
                  oracle_blockNumber := number block;
                  oracle_blockTimestamp := timestamp block;
                  rateToETH := rate; source := source |} in
      (r, set_oracleRates (insert id r) s)
  end.

(** Ensure Pool entity exists with minimal fields. *)
Definition initPoolIfNeeded (poolAddr : Address) (block : Block) (s : Store) : Store :=
  let id := toHexString poolAddr in
  match pools s !! id with
  | Some _ => s
  | None =>
      let p := {| pool_id := id;
                  lpToken := default [] (Bytes_fromHexString ZERO);
                  tokens := Some [];
                  createdBlock := number block |} in
      set_pools (insert id p) s
  end.

Section WithRounding.
Variable rnd : Q -> Q.

(** Convert BigInt to BigDecimal using decimals.  The cast [<u8>decimals]
    does not mask the value: the power is taken with the exponent as it is
    (a token's decimals are below 256). *)
Definition toDecimal (value : Z) (decimals : Z) : Q :=
  if (decimals <=? 0)%Z then toBigDecimal value
  else
    let scale := toBigDecimal (10 ^ decimals)%Z in
    div rnd (toBigDecimal value) scale.

(** Update per-user aggregates. *)
Definition updateUserAggregates (userId : string) (depositWETH withdrawWETH : Q)
  (blockNumber : Z) (s : Store) : Store :=
  let u := match users s !! userId with
           | Some u => u
           | None => {| user_id := userId; totalDepositedWETH := 0;
                        totalWithdrawnWETH := 0; netLossWETH := 0;
                        lastUpdatedBlock := 0 |}
           end in
  let dep := plus rnd (totalDepositedWETH u) depositWETH in
  let wd := plus rnd (totalWithdrawnWETH u) withdrawWETH in
  (* netLossWETH = withdrawn - deposited *)
  let u' := {| user_id := user_id u; totalDepositedWETH := dep;
               totalWithdrawnWETH := wd; netLossWETH := minus rnd wd dep;
               lastUpdatedBlock := blockNumber |} in
  set_users (insert userId u') s.
End WithRounding.

End HelpersMinimal.

(** ** The defensive helpers *)

Module Helpers.

Import Graph Schema.
Local Open Scope string_scope.

(** Emergency recovery flag: set true to force overwrite malformed Pool
    entity. *)
Definition FORCE_OVERWRITE : bool := true.

Definition POOL_ADDRESS : Address :=
  Eval vm_compute in address_literal "0x2fD13b49F970e8C6D89283056C1c6281214b7EB6".
Definition WETH_ADDRESS : Address :=
  Eval vm_compute in address_literal "0xEE8c0E9f1BFFb4Eb878d8f15f368A02a35481242".
Definition WEETH_ADDRESS : Address :=
  Eval vm_compute in address_literal "0xA3D68b74bF0528fdD07263c60d6488749044914b".
Definition WSTETH_ADDRESS : Address :=
  Eval vm_compute in address_literal "0x10Aeaf63194db8d453d4D85a06E5eFE1dd0b5417".
Definition ZERO_ADDRESS : Address :=
  Eval vm_compute in address_literal "0x0000000000000000000000000000000000000000".

(** Deterministic id for per-token rows: txHash prefix + logIndex +
    tokenIndex. *)
Definition makePerTokenId (txHash : string) (logIndex : Z) (tokenIndex : Z) : string :=
  let prefix := if (12 <? String.length txHash)%nat then substr0 12 txHash else txHash in
  prefix ++ "-" ++ pretty logIndex ++ "-" ++ pretty tokenIndex.

(** Fetch token decimals with safe try. *)
Definition fetchTokenDecimals (chain : Chain) (tokenAddr : Address) : Z :=
  match try_decimals chain tokenAddr with
  | None => 18
  | Some value => value
  end.

(** Persist OracleRate for token+block if not exists and return it. *)
Definition getOrCreateOracleRate (tokenAddr : Address) (block : Block) (rateToETH : Q)
  (source : string) (s : Store) : OracleRate * Store :=
  let id := toHexString tokenAddr ++ "-" ++ pretty (number block) in
  match oracleRates s !! id with
  | Some existing => (existing, s)
  | None =>
      let token :=
        match Bytes_fromHexString (toHexString tokenAddr) with
        | None => default [] (Bytes_fromHexString (toHexString ZERO_ADDRESS))
        | Some b => b
        end in
      let r := {| oracle_id := id; oracle_token := token;
                  oracle_blockNumber := number block;
                  oracle_blockTimestamp := timestamp block;
                  Schema.rateToETH := rateToETH; Schema.source := source |} in
      (r, set_oracleRates (insert id r) s)
  end.

(** Safely read token address from Pool.tokens at index.  Every
    [pool.tokens] of the source is a call of the getter, so a missing list
    or a null entry aborts before the two null tests, which never succeed;
    the bounds test and the width test are the ones that decide. *)
Definition getTokenAddressFromPool (pool : option Pool) (tokenIndex : Z) : outcome Address :=
  match pool with
  | None => Ok ZERO_ADDRESS
  | Some pool =>
      match Pool_tokens pool with
      | Abort => Abort
      | Ok tokens =>
          if ((tokenIndex <? 0) || (Z.of_nat (length tokens) <=? tokenIndex))%Z
          then Ok ZERO_ADDRESS
          else
            match tokens !! Z.to_nat tokenIndex with
            | Some b =>
                if negb (length b =? 20)%nat then Ok ZERO_ADDRESS
                else Address_fromBytes b
            | None => Abort
            end
      end
  end.

(** The probing loop: [coins(i)] for [i] below [maxIndex], until a call
    reverts or answers the zero address. *)
Fixpoint probe (chain : Chain) (poolAddr : Address) (fuel : nat) (i : Z)
  (discovered : list Address)
  : list Address :=
  match fuel with
  | O => discovered
  | S fuel' =>
      match try_coins chain poolAddr i with
      | None => discovered
      | Some coinAddr =>
          if bytes_eqb coinAddr ZERO_ADDRESS then discovered
          else probe chain poolAddr fuel' (i + 1)%Z (discovered ++ [coinAddr])
      end
  end.

(** The validation loop: discovered addresses become bytes through their
    hexadecimal text; anything not 20 bytes wide is skipped. *)
Fixpoint validate (discovered : list Address) : list Bytes :=
  match discovered with
  | [] => []
  | a :: rest =>
      match Bytes_fromHexString (toHexString a) with
      | None => validate rest
      | Some b => if (length b =? 20)%nat then b :: validate rest else validate rest
      end
  end.

(** Whether the stored Pool is malformed against a fresh discovery of
    [n] tokens. *)
Definition existingInvalid (existing : Pool) (n : nat) : bool :=
  match tokens existing with
  | None => true
  | Some ts =>
      if negb (length ts =? n)%nat then true
      else existsb (fun maybeEb =>
                      match maybeEb with
                      | None => true
                      | Some eb => negb (length eb =? 20)%nat
                      end) ts
  end.

(** Try to read pool coins(i) for indices 0..maxIndex-1 and persist a
    Pool entity with discovered token addresses. *)
Definition initPoolIfNeeded (chain : Chain) (poolAddr : Address) (block : Block)
  (maxIndex : Z) (s : Store) : Store :=
  let poolId := toHexString poolAddr in
  let existing := pools s !! poolId in
  let discovered := probe chain poolAddr (Z.to_nat maxIndex) 0 [] in
  let tokenBytes := validate discovered in
  if (length tokenBytes =? 0)%nat then s
  else
    let shouldWrite :=
      if FORCE_OVERWRITE then true
      else match existing with
           | None => true
           | Some existing => existingInvalid existing (length tokenBytes)
           end in
    if negb shouldWrite then s
    else
      let lp :=
        match Bytes_fromHexString (toHexString poolAddr) with
        | None => default [] (Bytes_fromHexString (toHexString ZERO_ADDRESS))
        | Some b => b
        end in
      let p := {| pool_id := poolId; lpToken := lp;
                  tokens := Some (map Some tokenBytes);
                  createdBlock := number block |} in
      set_pools (insert poolId p) s.

(** The default of the optional third parameter. *)
Definition maxIndex_default : Z := 8.

Section WithRounding.
Variable rnd : Q -> Q.

Definition exponentToBigDecimal (decimals : Z) : Q :=
  Nat.iter (Z.to_nat decimals) (fun bd => times rnd bd (10 # 1)) (1 # 1).

(** Convert BigInt token amount to BigDecimal using token decimals. *)
Definition toDecimal (amount : Z) (decimals : Z) : Q :=
  let precision := exponentToBigDecimal decimals in
  div rnd (toBigDecimal amount) precision.

(** Update user aggregates. *)
Definition updateUserAggregates (userAddr : string) (depositWETH withdrawWETH : Q)
  (blockNumber : Z) (s : Store) : Store :=
  let user := match users s !! userAddr with
              | Some user => user
              | None => {| user_id := userAddr; totalDepositedWETH := 0;
                           totalWithdrawnWETH := 0; netLossWETH := 0;
                           lastUpdatedBlock := 0 |}
              end in
  let dep := if gt depositWETH 0 then plus rnd (totalDepositedWETH user) depositWETH
             else totalDepositedWETH user in
  let wd := if gt withdrawWETH 0 then plus rnd (totalWithdrawnWETH user) withdrawWETH
            else totalWithdrawnWETH user in
  let user' := {| user_id := user_id user; totalDepositedWETH := dep;
                  totalWithdrawnWETH := wd; netLossWETH := minus rnd dep wd;
                  lastUpdatedBlock := blockNumber |} in
  set_users (insert userAddr user') s.
End WithRounding.

End Helpers.

(** ** The liquidity-event handlers *)

Module Mapping.

Import Graph Schema.
Local Open Scope string_scope.

(** The handlers import their helpers from a sibling module; either
    version of the helpers fits these signatures. *)
Record HelpersModule := {
  POOL_ADDRESS : Address;
  WETH_ADDRESS : Address;
  WEETH_ADDRESS : Address;
  WSTETH_ADDRESS : Address;
  toDecimal : Z -> Z -> Q;
  fetchTokenDecimals : Chain -> Address -> Z;
  makePerTokenId : string -> Z -> Z -> string;
  getOrCreateOracleRate : Address -> Block -> Q -> string -> Store -> OracleRate * Store;
  updateUserAggregates : string -> Q -> Q -> Z -> Store -> Store;
  initPoolIfNeeded : Chain -> Address -> Block -> Store -> Store;
  getTokenAddressFromPool : option Pool -> Z -> outcome Address
}.

Definition minimalHelpers (rnd : Q -> Q) : HelpersModule :=
  {| POOL_ADDRESS := HelpersMinimal.POOL_ADDRESS;
     WETH_ADDRESS := HelpersMinimal.WETH_ADDRESS;
     WEETH_ADDRESS := HelpersMinimal.WEETH_ADDRESS;
     WSTETH_ADDRESS := HelpersMinimal.WSTETH_ADDRESS;
     toDecimal := HelpersMinimal.toDecimal rnd;
     fetchTokenDecimals := fun _ => HelpersMinimal.fetchTokenDecimals;
     makePerTokenId := HelpersMinimal.makePerTokenId;
     getOrCreateOracleRate := HelpersMinimal.getOrCreateOracleRate;
     updateUserAggregates := HelpersMinimal.updateUserAggregates rnd;
     initPoolIfNeeded := fun _ => HelpersMinimal.initPoolIfNeeded;
     getTokenAddressFromPool := HelpersMinimal.getTokenAddressFromPool |}.

Definition defensiveHelpers (rnd : Q -> Q) : HelpersModule :=
  {| POOL_ADDRESS := Helpers.POOL_ADDRESS;
     WETH_ADDRESS := Helpers.WETH_ADDRESS;
     WEETH_ADDRESS := Helpers.WEETH_ADDRESS;
     WSTETH_ADDRESS := Helpers.WSTETH_ADDRESS;
     toDecimal := Helpers.toDecimal rnd;
     fetchTokenDecimals := Helpers.fetchTokenDecimals;
     makePerTokenId := Helpers.makePerTokenId;
     getOrCreateOracleRate := Helpers.getOrCreateOracleRate;
     updateUserAggregates := Helpers.updateUserAggregates rnd;
     initPoolIfNeeded := fun chain poolAddr block =>
       Helpers.initPoolIfNeeded chain poolAddr block Helpers.maxIndex_default;
     getTokenAddressFromPool := Helpers.getTokenAddressFromPool |}.

(** What the three events have in common. *)
Record EventMeta := {
  block : Block;
  transaction_hash : Bytes;
  logIndex : Z;
  params_provider : Address
}.

Record LiquidityEvent := {
  meta : EventMeta;
  token_amounts : list Z
}.

Record RemoveLiquidityOneEvent := {
  one_meta : EventMeta;
  token_id : Z;
  token_amount : Z
}.

Inductive FlowKind := IsDeposit | IsWithdrawal.

Section Handlers.
Variable rnd : Q -> Q.
Variable H : HelpersModule.
Variable chain : Chain.

Definition fetchRedemptionRate (tokenAddr : Address) (block : Block) : Q :=
  if bytes_eqb tokenAddr (WETH_ADDRESS H) then 1 # 1
  else if bytes_eqb tokenAddr (WEETH_ADDRESS H) then 10829400000000 # 10000000000000
  else if bytes_eqb tokenAddr (WSTETH_ADDRESS H) then 12208745075197 # 10000000000000
  else 1 # 1.

(** The positional fallback taken when the helper answers the zero
    address. *)
Definition fallbackToken (tokenAddr : Address) (tokenIndex : Z) : Address :=
  if bytes_eqb tokenAddr
       (address_literal "0x0000000000000000000000000000000000000000")
  then
    let a0 := if (tokenIndex =? 0)%Z then WEETH_ADDRESS H else tokenAddr in
    let a1 := if (tokenIndex =? 1)%Z then WSTETH_ADDRESS H else a0 in
    if (tokenIndex =? 2)%Z then WETH_ADDRESS H else a1
  else tokenAddr.

(** Everything a handler does for one (token index, raw amount) row:
    the body of the loop over [token_amounts], and the tail of
    [handleRemoveLiquidityOne]. *)
Definition processRow (kind : FlowKind) (ev : EventMeta) (pool : Pool)
  (tokenIndex : Z) (amountRaw : Z) (s : Store) : outcome Store :=
  if (amountRaw =? 0)%Z then Ok s
  else
    tokenAddr0 ← getTokenAddressFromPool H (Some pool) tokenIndex;
    let tokenAddr := fallbackToken tokenAddr0 tokenIndex in
    let decimals := fetchTokenDecimals H chain tokenAddr in
    let amountDecimal := toDecimal H amountRaw decimals in
    let rate := fetchRedemptionRate tokenAddr (block ev) in
    let '(oracle, s1) :=
      getOrCreateOracleRate H tokenAddr (block ev) rate "wrapper-call" s in
    let amountWETH := times rnd amountDecimal (rateToETH oracle) in
    let txHash := toHexString (transaction_hash ev) in
    let providerStr := toHexString (params_provider ev) in
    let id := makePerTokenId H txHash (logIndex ev) tokenIndex in
    provider ← Address_fromString providerStr;
    let f := {| flow_id := id; Schema.provider := provider;
                Schema.pool := toHexString (POOL_ADDRESS H);
                token := tokenAddr; Schema.tokenIndex := tokenIndex;
                Schema.amountRaw := amountRaw; Schema.amountWETH := amountWETH;
                rateToETHId := oracle_id oracle;
                blockNumber := number (block ev);
                blockTimestamp := timestamp (block ev);
                transactionHash := transaction_hash ev |} in
    match kind with
    | IsDeposit =>
        Ok (updateUserAggregates H providerStr amountWETH 0 (number (block ev))
              (set_deposits (insert id f) s1))
    | IsWithdrawal =>
        Ok (updateUserAggregates H providerStr 0 amountWETH (number (block ev))
              (set_withdrawals (insert id f) s1))
    end.

(** The loop [for (let i = 0; i < amounts.length; i++)]. *)
Fixpoint processAmounts (kind : FlowKind) (ev : EventMeta) (pool : Pool)
  (i : Z) (amounts : list Z) (s : Store) : outcome Store :=
  match amounts with
  | [] => Ok s
  | amountRaw :: rest =>
      s' ← processRow kind ev pool i amountRaw s;
      processAmounts kind ev pool (i + 1)%Z rest s'
  end.

(** The pool load shared by the handlers: init, load, one retry.
    [None] is the logged failure after which the handler returns. *)
Definition loadPool (ev : EventMeta) (s : Store) : Store * option Pool :=
  let s1 := initPoolIfNeeded H chain (POOL_ADDRESS H) (block ev) s in
  match pools s1 !! toHexString (POOL_ADDRESS H) with
  | Some pool => (s1, Some pool)
  | None =>
      let s2 := initPoolIfNeeded H chain (POOL_ADDRESS H) (block ev) s1 in
      (s2, pools s2 !! toHexString (POOL_ADDRESS H))
  end.

Definition handleAddLiquidity (event : LiquidityEvent) (s : Store) : outcome Store :=
  let '(s1, pool) := loadPool (meta event) s in
  match pool with
  | None => Ok s1
  | Some pool => processAmounts IsDeposit (meta event) pool 0 (token_amounts event) s1
  end.

Definition handleRemoveLiquidity (event : LiquidityEvent) (s : Store) : outcome Store :=
  let '(s1, pool) := loadPool (meta event) s in
  match pool with
  | None => Ok s1
  | Some pool => processAmounts IsWithdrawal (meta event) pool 0 (token_amounts event) s1
  end.

Definition handleRemoveLiquidityOne (event : RemoveLiquidityOneEvent) (s : Store)
  : outcome Store :=
  let '(s1, pool) := loadPool (one_meta event) s in
  match pool with
  | None => Ok s1
  | Some pool =>
      tokenIndex ← toI32 (token_id event);
      processRow IsWithdrawal (one_meta event) pool tokenIndex (token_amount event) s1
  end.

End Handlers.

End Mapping.

(** ** The handlers of the flat source layout

    The second version of the handlers: no retry of the pool load, the
    weETH rate read from the token contract, and the zero check of
    [handleRemoveLiquidityOne] ahead of the pool load. *)

Module MappingFlat.

Import Graph Schema.
Import Mapping.
Local Open Scope string_scope.

Section Handlers.
Variable rnd : Q -> Q.
Variable H : HelpersModule.
Variable chain : Chain.

Definition fetchRedemptionRate (tokenAddr : Address) (block : Block) : Q :=
  if bytes_eqb tokenAddr (WETH_ADDRESS H) then 1 # 1
  else if bytes_eqb tokenAddr (WEETH_ADDRESS H) then
    match try_decimalConversionRate chain tokenAddr with
    | Some value => toDecimal H value 18
    | None => 1 # 1
    end
  else if bytes_eqb tokenAddr (WSTETH_ADDRESS H) then 12208745075197 # 10000000000000
  else 1 # 1.

(** What follows the zero check for one (token index, raw amount) row. *)
Definition materialize (kind : FlowKind) (ev : EventMeta) (pool : option Pool)
  (tokenIndex : Z) (amountRaw : Z) (s : Store) : outcome Store :=
  tokenAddr0 ← getTokenAddressFromPool H pool tokenIndex;
  let tokenAddr := fallbackToken H tokenAddr0 tokenIndex in
  let decimals := fetchTokenDecimals H chain tokenAddr in
  let amountDecimal := toDecimal H amountRaw decimals in
  let rate := fetchRedemptionRate tokenAddr (block ev) in
  let '(oracle, s1) :=
    getOrCreateOracleRate H tokenAddr (block ev) rate "wrapper-call" s in
  let amountWETH := times rnd amountDecimal (rateToETH oracle) in
  let txHash := toHexString (transaction_hash ev) in
  let providerStr := toHexString (params_provider ev) in
  let id := makePerTokenId H txHash (logIndex ev) tokenIndex in
  provider ← Address_fromString providerStr;
  let f := {| flow_id := id; Schema.provider := provider;
              Schema.pool := toHexString (POOL_ADDRESS H);
              token := tokenAddr; Schema.tokenIndex := tokenIndex;
              Schema.amountRaw := amountRaw; Schema.amountWETH := amountWETH;
              rateToETHId := oracle_id oracle;
              blockNumber := number (block ev);
              blockTimestamp := timestamp (block ev);
              transactionHash := transaction_hash ev |} in
  match kind with
  | IsDeposit =>
      Ok (updateUserAggregates H providerStr amountWETH 0 (number (block ev))
            (set_deposits (insert id f) s1))
  | IsWithdrawal =>
      Ok (updateUserAggregates H providerStr 0 amountWETH (number (block ev))
            (set_withdrawals (insert id f) s1))
  end.

(** The body of the loop over [token_amounts]. *)
Definition processRow (kind : FlowKind) (ev : EventMeta) (pool : option Pool)
  (tokenIndex : Z) (amountRaw : Z) (s : Store) : outcome Store :=
  if (amountRaw =? 0)%Z then Ok s
  else materialize kind ev pool tokenIndex amountRaw s.

Fixpoint processAmounts (kind : FlowKind) (ev : EventMeta) (pool : option Pool)
  (i : Z) (amounts : list Z) (s : Store) : outcome Store :=
  match amounts with
  | [] => Ok s
  | amountRaw :: rest =>
      s' ← processRow kind ev pool i amountRaw s;
      processAmounts kind ev pool (i + 1)%Z rest s'
  end.

Definition handleAddLiquidity (event : LiquidityEvent) (s : Store) : outcome Store :=
  let s1 := initPoolIfNeeded H chain (POOL_ADDRESS H) (block (meta event)) s in
  let pool := pools s1 !! toHexString (POOL_ADDRESS H) in
  processAmounts IsDeposit (meta event) pool 0 (token_amounts event) s1.

Definition handleRemoveLiquidity (event : LiquidityEvent) (s : Store) : outcome Store :=
  let s1 := initPoolIfNeeded H chain (POOL_ADDRESS H) (block (meta event)) s in
  let pool := pools s1 !! toHexString (POOL_ADDRESS H) in
  processAmounts IsWithdrawal (meta event) pool 0 (token_amounts event) s1.

Definition handleRemoveLiquidityOne (event : RemoveLiquidityOneEvent) (s : Store)
  : outcome Store :=
  let s1 := initPoolIfNeeded H chain (POOL_ADDRESS H) (block (one_meta event)) s in
  tokenIndex ← toI32 (token_id event);
  if (token_amount event =? 0)%Z then Ok s1
  else
    let pool := pools s1 !! toHexString (POOL_ADDRESS H) in
    materialize IsWithdrawal (one_meta event) pool tokenIndex (token_amount event) s1.

End Handlers.

End MappingFlat.

(** * Terms of the statements *)

Section SwapTerms.
Import Js Script.
Local Open Scope string_scope.

(** The identity a raw token reference denotes, and one application of the
    normalisation to an identity. *)
Definition normalize (x : string) : string :=
  tokenAfter (swapTokenDeterministic (Some x)).

Definition wasSwapped (x : string) : bool :=
  swapped (swapTokenDeterministic (Some x)).

End SwapTerms.

Section OracleTerms.
Import Graph Schema.
Local Open Scope string_scope.

(** The key under which the rate of [token] at [block] is stored. *)
Definition oracleRateId (token : Address) (block : Block) : string :=
  toHexString token ++ "-" ++ pretty (number block).

Fixpoint no_dash (s : string) : bool :=
  match s with
  | EmptyString => true
  | String c r => negb (Ascii.eqb c "-") && no_dash r
  end.

(** Any number of later calls, for any keys, rates and sources. *)
Definition runOracleCalls (calls : list (Address * Block * Q * string)) (s : Store)
  : Store :=
  fold_left (fun s '(token, block, rate, src) =>
               snd (Helpers.getOrCreateOracleRate token block rate src s))
            calls s.

End OracleTerms.

Section LookupTerms.
Import Graph Schema.

(** A Pool as the entity type admits it: the token list is there and
    every entry is bytes. *)
Definition typedPool (p : Pool) (ts : list Bytes) : Prop :=
  tokens p = Some (Some <$> ts).

(** What the defensive lookup answers in a token list, clause by clause. *)
Definition entryAnswer (ts : list Bytes) (tokenIndex : Z) : Address :=
  match ts !! Z.to_nat tokenIndex with
  | Some b =>
      if decide (0 <= tokenIndex)%Z then
        if decide (length b = 20%nat) then b else Helpers.ZERO_ADDRESS
      else Helpers.ZERO_ADDRESS
  | None => Helpers.ZERO_ADDRESS
  end.

Definition lookupAnswer (pool : option Pool) (tokenIndex : Z) : outcome Address :=
  match pool with
  | None => Ok Helpers.ZERO_ADDRESS
  | Some p =>
      match Pool_tokens p with
      | Ok ts => Ok (entryAnswer ts tokenIndex)
      | Abort => Abort
      end
  end.

(** A stored pool whose first token entry is three bytes wide. *)
Definition malformedPool : Pool :=
  {| pool_id := toHexString Helpers.POOL_ADDRESS;
     lpToken := Helpers.ZERO_ADDRESS;
     tokens := Some [Some [Byte.xee; Byte.x8c; Byte.x0e]];
     createdBlock := 38642218 |}.




End LookupTerms.

Section LedgerTerms.
Import Graph Schema Mapping.

Variable chain : Chain.

(** What a handler may write besides Pool entities. *)
Definition sameLedger (s s' : Store) : Prop :=
  deposits s' = deposits s /\ withdrawals s' = withdrawals s
  /\ users s' = users s /\ oracleRates s' = oracleRates s.

(** The helpers' pool initialisation writes Pool entities only. *)
Definition poolOnly (H : HelpersModule) : Prop :=
  forall poolAddr block s, sameLedger s (initPoolIfNeeded H chain poolAddr block s).

End LedgerTerms.

Section DiscoveryTerms.
Import Graph Schema.

Variable chain : Chain.
Variable poolId : Address.

(** The answers of [coins(first)], ..., [coins(first + count - 1)] of the
    pool, in order. *)
Definition probeResults (first : Z) (count : nat) : list (option Address) :=
  map (fun k => try_coins chain poolId (first + Z.of_nat k)%Z) (seq 0 count).

(** The specification's reading of the probe: keep answers up to the first
    failed call or the first zero identity. *)
Fixpoint untilFailureOrSentinel (results : list (option Address)) : list Address :=
  match results with
  | Some a :: rest =>
      if bytes_eqb a Helpers.ZERO_ADDRESS then [] else a :: untilFailureOrSentinel rest
  | _ => []
  end.

Definition wellFormedIdentity (a : Address) : bool := (length a =? 20)%nat.

(** discover(poolId, maxProbeIndex): the validated identities, in probe
    order. *)
Definition spec_discover (maxProbeIndex : Z) : list Address :=
  List.filter wellFormedIdentity
    (untilFailureOrSentinel (probeResults 0 (Z.to_nat maxProbeIndex))).

End DiscoveryTerms.

Section AggregateTerms.
Import Graph Schema.

Variable rnd : Q -> Q.

(** The totals on record for a user: the stored ones, or zero. *)
Definition depositedOf (s : Store) (userId : string) : Q :=
  match users s !! userId with Some u => totalDepositedWETH u | None => 0 end.

Definition withdrawnOf (s : Store) (userId : string) : Q :=
  match users s !! userId with Some u => totalWithdrawnWETH u | None => 0 end.

Definition netOf (s : Store) (userId : string) : Q :=
  match users s !! userId with Some u => netLossWETH u | None => 0 end.

(** Every total the store holds went through the host's rounding. *)
Definition normalisedTotals (s : Store) : Prop :=
  forall userId u, users s !! userId = Some u ->
    rnd (totalDepositedWETH u) == totalDepositedWETH u
    /\ rnd (totalWithdrawnWETH u) == totalWithdrawnWETH u.

End AggregateTerms.

Section UpdateRuns.
Import Graph Schema.
Open Scope Q_scope.

Variable rnd : Q -> Q.

(** A sequence of updates through the defensive helper. *)
Definition runUpdates (calls : list (string * Q * Q * Z)) (s : Store) : Store :=
  fold_left (fun s '(userId, dep, wd, bn) =>
               Helpers.updateUserAggregates rnd userId dep wd bn s) calls s.

(** A sequence of updates through the minimal helper. *)
Definition runUpdatesMinimal (calls : list (string * Q * Q * Z)) (s : Store) : Store :=
  fold_left (fun s '(userId, dep, wd, bn) =>
               HelpersMinimal.updateUserAggregates rnd userId dep wd bn s) calls s.

(** A call whose two amounts are not negative. *)
Definition nonNegativeCall (c : string * Q * Q * Z) : Prop :=
  0 <= snd (fst (fst c)) /\ 0 <= snd (fst c).

End UpdateRuns.

Section ScriptRows.
Import Js Script.
Local Open Scope string_scope.

(** An event row denominated in the LP token: one pool share. *)
Definition lpRow : EventRow :=
  {| id := Some "lp-1";
     provider := Some "0x750e9a7b449904f47b793b805db469fa6e025e33";
     token := Some LP_TOKEN;
     amountRaw := Some "1000000000000000000";
     amountWETH := None;
     blockNumber := Some "39496719";
     transactionHash :=
       Some "0x48d878e4b6669c34ef333d84e9d714d3db06047e3eeefe89ba7614237a70d2df" |}.

Definition lpCorrected : CorrectedRow :=
  {| original := lpRow; row_tokenAfter := LP_TOKEN; row_swapped := false;
     amountWETHComputed := Some (1 # 1); conversionRate := "1.00000" |}.

End ScriptRows.

Section ConversionTerms.
Import Dec Js Script.
Open Scope Q_scope.

(** The specification's conversion: rawAmount / 10^decimals * rate, as an
    exact rational. *)
Definition spec_convert (rawAmount : Z) (decimals : Z) (rate : Q) : Q :=
  inject_Z rawAmount / pow10 decimals * rate.

(** A raw amount as the transport delivers it: decimal digits only. *)
Fixpoint all_digits (s : string) : bool :=
  match s with
  | EmptyString => true
  | String c r => is_digit c && all_digits r
  end.

Fixpoint digits_value_from (acc : Z) (s : string) : Z :=
  match s with
  | EmptyString => acc
  | String c r => digits_value_from (10 * acc + digit_val c)%Z r
  end.

Definition uint_value (s : string) : Z := digits_value_from 0 s.

End ConversionTerms.

Section HandlerRuns.
Import Graph Schema Mapping.
Local Open Scope string_scope.

(** A pool whose three coins answer and whose fourth probe reverts. *)
Definition threeCoinChain : Chain :=
  {| try_coins := fun _ i =>
       if (i =? 0)%Z then Some Helpers.WEETH_ADDRESS
       else if (i =? 1)%Z then Some Helpers.WSTETH_ADDRESS
       else if (i =? 2)%Z then Some Helpers.WETH_ADDRESS
       else None;
     try_decimals := fun _ => Some 18%Z;
     try_decimalConversionRate := fun _ => None |}.

(** The same pool at an earlier block, when only two coins answered. *)
Definition twoCoinChain : Chain :=
  {| try_coins := fun _ i =>
       if (i =? 0)%Z then Some Helpers.WEETH_ADDRESS
       else if (i =? 1)%Z then Some Helpers.WSTETH_ADDRESS
       else None;
     try_decimals := fun _ => Some 18%Z;
     try_decimalConversionRate := fun _ => None |}.

(** An AddLiquidity event with one non-zero amount, at token index 1. *)
Definition sampleDeposit : LiquidityEvent :=
  {| meta :=
       {| block := {| number := 39496719; timestamp := 1700000000 |};
          transaction_hash :=
            default []
              (Bytes_fromHexString
                 "0x48d878e4b6669c34ef333d84e9d714d3db06047e3eeefe89ba7614237a70d2df");
          logIndex := 7;
          params_provider := address_literal "0x750e9a7b449904f47b793b805db469fa6e025e33" |};
     token_amounts := [0; 4993670000000000000; 0]%Z |}.

Definition depositIds (r : outcome Store) : list string :=
  match r with Ok s => (map_to_list (deposits s)).*1 | Abort => [] end.

Definition netOfRun (r : outcome Store) : option Q :=
  match r with
  | Ok s => netLossWETH <$> users s !! "0x750e9a7b449904f47b793b805db469fa6e025e33"
  | Abort => None
  end.

Definition poolTokenCount (s : Store) : option nat :=
  match pools s !! toHexString Helpers.POOL_ADDRESS with
  | Some p => length <$> tokens p
  | None => None
  end.

End HandlerRuns.

Section ScriptTransportTerms.
Import Js Script.
Local Open Scope string_scope.

(** An endpoint that holds [rows] under [entity] and serves them in pages
    of at most [cap] rows. *)
Definition servesInPages (endpoint : Endpoint) (entity : string) (rows : list EventRow)
  (cap : nat) : Prop :=
  forall first skip,
    exists fields,
      endpoint entity first skip = Data fields
      /\ fields entity = Some (take (Nat.min first cap) (drop skip rows)).

(** The same endpoint when it refuses every request whose [skip] exceeds
    [limit]. *)
Definition servesUpTo (endpoint : Endpoint) (entity : string) (rows : list EventRow)
  (cap limit : nat) : Prop :=
  forall first skip,
    ((skip <= limit)%nat ->
     exists fields,
       endpoint entity first skip = Data fields
       /\ fields entity = Some (take (Nat.min first cap) (drop skip rows)))
    /\ ((limit < skip)%nat -> endpoint entity first skip = GraphQLErrors).

(** What one candidate contributes to [fetchAnyOf]. *)
Definition contribution (r : option (completion (list EventRow))) : list EventRow :=
  match r with Some (Normal items) => items | _ => [] end.

(** Three fetched rows, an endpoint that serves them two at a time under
    the plural name only, and the same endpoint when it refuses to skip more
    than one row. *)
Definition threeRows : list EventRow := [lpRow; lpRow; lpRow].

Definition pagedEndpoint : Endpoint :=
  fun entity first skip =>
    if String.eqb entity "deposits"
    then Data (fun _ => Some (take (Nat.min first 2) (drop skip threeRows)))
    else GraphQLErrors.

Definition limitedEndpoint : Endpoint :=
  fun entity first skip =>
    if (skip <=? 1)%nat
    then Data (fun _ => Some (take (Nat.min first 2) (drop skip threeRows)))
    else GraphQLErrors.

(** A reader of one CSV record under the usual quoting rule: fields are
    quoted and separated by commas, and a doubled quote inside a field
    stands for one quote. *)
Inductive ReaderState := AtFieldStart | InsideQuotes | AfterQuote.

Fixpoint readRecord (st : ReaderState) (cur : string) (s : string) : option (list string) :=
  match s with
  | EmptyString =>
      match st with AfterQuote => Some [cur] | _ => None end
  | String c r =>
      match st with
      | AtFieldStart => if Ascii.eqb c dquote then readRecord InsideQuotes "" r else None
      | InsideQuotes =>
          if Ascii.eqb c dquote then readRecord AfterQuote cur r
          else readRecord InsideQuotes (cur ++ String c "") r
      | AfterQuote =>
          if Ascii.eqb c dquote then readRecord InsideQuotes (cur ++ String dquote "") r
          else if Ascii.eqb c "," then cons cur <$> readRecord AtFieldStart "" r
          else None
      end
  end.

Definition readCsvLine (line : string) : option (list string) := readRecord AtFieldStart "" line.

(** The amount a corrected row adds to the per-transaction total of [key]:
    nothing for a row of another key, an LP row or a row without amount. *)
Definition countedFor (key : string) (r : CorrectedRow) : option Q :=
  if decide (txKey r = key) then
    if String.eqb (row_tokenAfter r) LP_TOKEN then None else amountWETHComputed r
  else None.

(** The amount a corrected row adds to a total of [user]. *)
Definition amountOf (user : string) (r : CorrectedRow) : option Q :=
  if decide (safeLower (provider (original r)) = user)
  then Some (default 0%Q (amountWETHComputed r))
  else None.

(** A raw amount as the subgraph serialises it: absent, or decimal digits
    only. *)
Definition serialisedAmount (raw : option string) : bool :=
  match raw with
  | None => true
  | Some raw => all_digits raw
  end.

(** A token reference as the subgraph serialises it: absent, or a text that
    starts with [0x]. *)
Definition hexToken (t : option string) : bool :=
  match t with
  | None => true
  | Some (String "0" (String "x" _)) => true
  | Some _ => false
  end.

End ScriptTransportTerms.

Section IndexingTerms.
Import Graph Schema Mapping.
Local Open Scope string_scope.

(** The events of the pool contract the subgraph listens to. *)
Inductive PoolEvent :=
| AddLiquidity (event : LiquidityEvent)
| RemoveLiquidity (event : LiquidityEvent)
| RemoveLiquidityOne (event : RemoveLiquidityOneEvent).

Definition eventMeta (ev : PoolEvent) : EventMeta :=
  match ev with
  | AddLiquidity e => meta e
  | RemoveLiquidity e => meta e
  | RemoveLiquidityOne e => one_meta e
  end.

Definition eventKind (ev : PoolEvent) : FlowKind :=
  match ev with
  | AddLiquidity _ => IsDeposit
  | RemoveLiquidity _ => IsWithdrawal
  | RemoveLiquidityOne _ => IsWithdrawal
  end.

(** The amounts of an event with their positions, counted from [i]. *)
Fixpoint indexedFrom (i : Z) (amounts : list Z) : list (Z * Z) :=
  match amounts with
  | [] => []
  | a :: rest => (i, a) :: indexedFrom (i + 1) rest
  end.

(** The (token index, raw amount) rows an event carries.  The index of a
    RemoveLiquidityOne row is its token id as [toI32] reads it. *)
Definition eventRows (ev : PoolEvent) : list (Z * Z) :=
  match ev with
  | AddLiquidity e => indexedFrom 0 (token_amounts e)
  | RemoveLiquidity e => indexedFrom 0 (token_amounts e)
  | RemoveLiquidityOne e => [(wrap32 (token_id e), token_amount e)]
  end.

(** Which source layout of the handlers runs. *)
Inductive Layout := Nested | Flat.

(** The handler the manifest binds to each event. *)
Definition handle (layout : Layout) (rnd : Q -> Q) (H : HelpersModule) (chain : Chain)
  (ev : PoolEvent) (s : Store) : outcome Store :=
  match layout, ev with
  | Nested, AddLiquidity e => Mapping.handleAddLiquidity rnd H chain e s
  | Nested, RemoveLiquidity e => Mapping.handleRemoveLiquidity rnd H chain e s
  | Nested, RemoveLiquidityOne e => Mapping.handleRemoveLiquidityOne rnd H chain e s
  | Flat, AddLiquidity e => MappingFlat.handleAddLiquidity rnd H chain e s
  | Flat, RemoveLiquidity e => MappingFlat.handleRemoveLiquidity rnd H chain e s
  | Flat, RemoveLiquidityOne e => MappingFlat.handleRemoveLiquidityOne rnd H chain e s
  end.

(** Indexing a sequence of events, each with the chain state of its block;
    an abort stops the subgraph. *)
Fixpoint index (layout : Layout) (rnd : Q -> Q) (H : HelpersModule)
  (events : list (Chain * PoolEvent)) (s : Store) : outcome Store :=
  match events with
  | [] => Ok s
  | (chain, ev) :: rest =>
      s' ← handle layout rnd H chain ev s;
      index layout rnd H rest s'
  end.

(** The flows of the kind an event does not produce. *)
Definition otherFlows (kind : FlowKind) (s : Store) : gmap string Flow :=
  match kind with IsDeposit => withdrawals s | IsWithdrawal => deposits s end.

Definition flowsOf (kind : FlowKind) (s : Store) : gmap string Flow :=
  match kind with IsDeposit => deposits s | IsWithdrawal => withdrawals s end.

(** What the helpers of either version keep to: pool initialisation writes
    the Pool of the given address only, the rate helper is the create-once
    helper, the aggregate update writes the addressed user only. *)
Record Disciplined (H : HelpersModule) : Prop := {
  init_frame : forall chain poolAddr block s,
    sameLedger s (initPoolIfNeeded H chain poolAddr block s)
    /\ forall other, other <> toHexString poolAddr ->
         pools (initPoolIfNeeded H chain poolAddr block s) !! other = pools s !! other;
  rate_helper : forall tokenAddr block rate src s,
    getOrCreateOracleRate H tokenAddr block rate src s
    = Helpers.getOrCreateOracleRate tokenAddr block rate src s;
  update_frame : forall userId dep wd bn s,
    let s' := updateUserAggregates H userId dep wd bn s in
    pools s' = pools s /\ oracleRates s' = oracleRates s
    /\ deposits s' = deposits s /\ withdrawals s' = withdrawals s
    /\ forall other, other <> userId -> users s' !! other = users s !! other;
  id_positions : forall txHash logIndex i j,
    makePerTokenId H txHash logIndex i = makePerTokenId H txHash logIndex j -> i = j
}.

(** What a handler does for a non-zero row, with the rate source of its
    layout left open. *)
Definition writeRow (rnd : Q -> Q) (H : HelpersModule) (chain : Chain)
  (rateOf : Address -> Block -> Q) (kind : FlowKind) (ev : EventMeta)
  (pool : option Pool) (tokenIndex : Z) (amountRaw : Z) (s : Store) : outcome Store :=
  tokenAddr0 ← getTokenAddressFromPool H pool tokenIndex;
  let tokenAddr := fallbackToken H tokenAddr0 tokenIndex in
  let decimals := fetchTokenDecimals H chain tokenAddr in
  let amountDecimal := toDecimal H amountRaw decimals in
  let rate := rateOf tokenAddr (block ev) in
  let '(oracle, s1) :=
    getOrCreateOracleRate H tokenAddr (block ev) rate "wrapper-call" s in
  let amountWETH := times rnd amountDecimal (rateToETH oracle) in
  let txHash := toHexString (transaction_hash ev) in
  let providerStr := toHexString (params_provider ev) in
  let id := makePerTokenId H txHash (logIndex ev) tokenIndex in
  provider ← Address_fromString providerStr;
  let f := {| flow_id := id; Schema.provider := provider;
              Schema.pool := toHexString (POOL_ADDRESS H);
              token := tokenAddr; Schema.tokenIndex := tokenIndex;
              Schema.amountRaw := amountRaw; Schema.amountWETH := amountWETH;
              rateToETHId := oracle_id oracle;
              blockNumber := number (block ev);
              blockTimestamp := timestamp (block ev);
              transactionHash := transaction_hash ev |} in
  match kind with
  | IsDeposit =>
      Ok (updateUserAggregates H providerStr amountWETH 0 (number (block ev))
            (set_deposits (insert id f) s1))
  | IsWithdrawal =>
      Ok (updateUserAggregates H providerStr 0 amountWETH (number (block ev))
            (set_withdrawals (insert id f) s1))
  end.

Definition setFlows (kind : FlowKind) (f : gmap string Flow -> gmap string Flow)
  (s : Store) : Store :=
  match kind with IsDeposit => set_deposits f s | IsWithdrawal => set_withdrawals f s end.

(** The amounts a row of the given kind passes to the aggregate update. *)
Definition depositPart (kind : FlowKind) (amountWETH : Q) : Q :=
  match kind with IsDeposit => amountWETH | IsWithdrawal => 0 end.

Definition withdrawalPart (kind : FlowKind) (amountWETH : Q) : Q :=
  match kind with IsDeposit => 0 | IsWithdrawal => amountWETH end.

(** The rows of an event, in order: a zero amount is skipped. *)
Fixpoint writeAll (rnd : Q -> Q) (H : HelpersModule) (chain : Chain)
  (rateOf : Address -> Block -> Q) (kind : FlowKind) (ev : EventMeta)
  (pool : option Pool) (rows : list (Z * Z)) (s : Store) : outcome Store :=
  match rows with
  | [] => Ok s
  | (i, a) :: rest =>
      s' ← (if (a =? 0)%Z then Ok s
            else writeRow rnd H chain rateOf kind ev pool i a s);
      writeAll rnd H chain rateOf kind ev pool rest s'
  end.

(** The id under which the row at position [i] of an event is stored. *)
Definition rowId (H : HelpersModule) (ev : EventMeta) (i : Z) : string :=
  makePerTokenId H (toHexString (transaction_hash ev)) (logIndex ev) i.

(** The ids of the rows of an event that are not skipped. *)
Definition writtenIds (H : HelpersModule) (ev : EventMeta) (rows : list (Z * Z))
  : list string :=
  map (fun r => rowId H ev (fst r)) (List.filter (fun r => negb (snd r =? 0)%Z) rows).

(** Every stored rate is keyed by its own id, every stored flow is keyed by
    its own id and refers to a stored rate. *)
Definition wellReferenced (s : Store) : Prop :=
  (forall k o, oracleRates s !! k = Some o -> oracle_id o = k)
  /\ (forall kind id f, flowsOf kind s !! id = Some f ->
        flow_id f = id /\ is_Some (oracleRates s !! rateToETHId f)).

(** Every stored net is the rounded difference of the stored totals. *)
Definition netConsistent (rnd : Q -> Q) (s : Store) : Prop :=
  forall userId u, users s !! userId = Some u ->
    netLossWETH u = minus rnd (totalDepositedWETH u) (totalWithdrawnWETH u).

(** The rate source of each layout. *)
Definition rateSource (layout : Layout) (H : HelpersModule) (chain : Chain)
  : Address -> Block -> Q :=
  match layout with
  | Nested => Mapping.fetchRedemptionRate H
  | Flat => MappingFlat.fetchRedemptionRate H chain
  end.

(** What a run keeps of the accounts, under the host rounding [rnd]:
    rounded totals stay rounded, consistent nets stay consistent, and no
    total decreases. *)
Definition accountsKept (rnd : Q -> Q) (s s' : Store) : Prop :=
  (normalisedTotals rnd s -> normalisedTotals rnd s')
  /\ (netConsistent rnd s -> netConsistent rnd s')
  /\ (normalisedTotals rnd s ->
      forall user, (depositedOf s user <= depositedOf s' user)%Q
                   /\ (withdrawnOf s user <= withdrawnOf s' user)%Q).

(** No stored rate is negative. *)
Definition nonNegativeRates (s : Store) : Prop :=
  forall k o, oracleRates s !! k = Some o -> (0 <= rateToETH o)%Q.

(** The amounts of an event are unsigned integers, and so is the conversion
    rate a token contract answers. *)
Definition unsignedAmounts (ev : PoolEvent) : Prop :=
  match ev with
  | AddLiquidity e => Forall (fun a => 0 <= a)%Z (token_amounts e)
  | RemoveLiquidity e => Forall (fun a => 0 <= a)%Z (token_amounts e)
  | RemoveLiquidityOne e => (0 <= token_amount e)%Z
  end.

Definition unsignedRates (chain : Chain) : Prop :=
  forall tokenAddr value,
    try_decimalConversionRate chain tokenAddr = Some value -> (0 <= value)%Z.

(** The Pool on record, if any, is one the entity type admits. *)
Definition poolReadable (s : Store) : Prop :=
  forall p, pools s !! toHexString Helpers.POOL_ADDRESS = Some p ->
    exists ts, typedPool p ts.

(** An event the handlers can take: the provider is a 20-byte address and
    the token id of a RemoveLiquidityOne fits the four bytes [toI32] reads
    plus sign padding. *)
Definition admissible (ev : PoolEvent) : Prop :=
  length (params_provider (eventMeta ev)) = 20%nat
  /\ match ev with
     | RemoveLiquidityOne e => (- 2 ^ 32 <= token_id e < 2 ^ 32)%Z
     | _ => True
     end.

(** A withdrawal of one coin whose token id is 2^31. *)
Definition wrappingWithdrawal : RemoveLiquidityOneEvent :=
  {| one_meta := meta sampleDeposit;
     token_id := 2147483648;
     token_amount := 1000000000000000000 |}.

(** What a run keeps when its amounts and rates are not negative: rounded
    totals, rates that are not negative, and totals that have not fallen. *)
Definition keepsTotals (rnd : Q -> Q) (s s' : Store) : Prop :=
  normalisedTotals rnd s' /\ nonNegativeRates s'
  /\ forall user, (depositedOf s user <= depositedOf s' user)%Q
                  /\ (withdrawnOf s user <= withdrawnOf s' user)%Q.

(** A pool whose [coins] always reverts. *)
Definition deadChain : Chain :=
  {| try_coins := fun _ _ => None;
     try_decimals := fun _ => None;
     try_decimalConversionRate := fun _ => None |}.

(** The store after [sampleDeposit] is indexed on the empty store. *)
Definition afterSampleDeposit (layout : Layout) : Store :=
  match handle layout decimal128 (defensiveHelpers decimal128) threeCoinChain
          (AddLiquidity sampleDeposit) emptyStore with
  | Ok s => s
  | Abort => emptyStore
  end.

(** The same with the minimal helpers, and the store after
    [wrappingWithdrawal] is indexed on top of [afterSampleDeposit]. *)
Definition afterMinimalDeposit (layout : Layout) : Store :=
  match handle layout decimal128 (minimalHelpers decimal128) threeCoinChain
          (AddLiquidity sampleDeposit) emptyStore with
  | Ok s => s
  | Abort => emptyStore
  end.

Definition afterWrappingWithdrawal (layout : Layout) : Store :=
  match handle layout decimal128 (defensiveHelpers decimal128) threeCoinChain
          (RemoveLiquidityOne wrappingWithdrawal) (afterSampleDeposit layout) with
  | Ok s => s
  | Abort => emptyStore
  end.

End IndexingTerms.

(** * Properties *)

(** ** The model on concrete inputs *)

Example round_sig_3 : Dec.round_sig 3 (12345 # 1) = (12300 # 1).
Proof. vm_compute. reflexivity. Qed.

Example round_sig_tie : Dec.round_sig 2 (125 # 100) = (13 # 10).
Proof. vm_compute. reflexivity. Qed.

Example round_sig_neg : Dec.round_sig 2 (- (125 # 100)) = (- (13 # 10))%Q.
Proof. vm_compute. reflexivity. Qed.

Example round_sig_small : Dec.round_sig 2 (1 # 3) = (33 # 100).
Proof. vm_compute. reflexivity. Qed.

Example round_sig_carry : Dec.round_sig 2 (9996 # 1000) = (10 # 1).
Proof. vm_compute. reflexivity. Qed.

Example new_Decimal_int : Js.new_Decimal "4993670000000000000" = Some (4993670000000000000 # 1).
Proof. vm_compute. reflexivity. Qed.

Example new_Decimal_frac : Js.new_Decimal "1.0829400000000" = Some (54147 # 50000).
Proof. vm_compute. reflexivity. Qed.

Example new_Decimal_exp : Js.new_Decimal "-.5e1" = Some (- (5 # 1))%Q.
Proof. vm_compute. reflexivity. Qed.

Example new_Decimal_bad : Js.new_Decimal "12a" = None /\ Js.new_Decimal "." = None
                          /\ Js.new_Decimal "" = None /\ Js.new_Decimal "1e" = None.
Proof. vm_compute. repeat split. Qed.

Example toLowerCase_mixed :
  Js.toLowerCase "0xEE8c0E9f1BFFb4Eb878d8f15f368A02a35481242"
  = "0xee8c0e9f1bffb4eb878d8f15f368a02a35481242"%string.
Proof. reflexivity. Qed.

Example swap_weth :
  Script.swapTokenDeterministic (Some "0xEE8c0E9f1BFFb4Eb878d8f15f368A02a35481242"%string)
  = {| Script.tokenBefore := Script.WETH; Script.tokenAfter := Script.WEETH;
       Script.swapped := true |}.
Proof. reflexivity. Qed.

(** Scenario A of the specification: 4.99367 WETH at rate 1. *)
Example scenario_A :
  Script.computeAmountWETHFromRaw (Some "4993670000000000000"%string) (Some "1.00000"%string)
  = Script.Normal (Some (499367 # 100000)).
Proof. vm_compute. reflexivity. Qed.

Example rate_default : Script.conversionRateForToken "0xabc" = Some "1.00000"%string.
Proof. reflexivity. Qed.

Example rate_inherited : Script.conversionRateForToken "constructor" = None.
Proof. reflexivity. Qed.

Example toHexString_ex :
  Graph.toHexString [Byte.xee; Byte.x8c; Byte.x0e] = "0xee8c0e"%string.
Proof. reflexivity. Qed.

Example fromHexString_ex :
  Graph.Bytes_fromHexString "0xEE8c0e" = Some [Byte.xee; Byte.x8c; Byte.x0e]
  /\ Graph.Bytes_fromHexString "0xabc" = None.
Proof. split; reflexivity. Qed.

Example makePerTokenId_new :
  Helpers.makePerTokenId
    "0x48d878e4b6669c34ef333d84e9d714d3db06047e3eeefe89ba7614237a70d2df" 7 1
  = "0x48d878e4b6-7-1"%string.
Proof. vm_compute. reflexivity. Qed.

Example makePerTokenId_minimal :
  HelpersMinimal.makePerTokenId "0x48d878e4b6669c34" 7 1 = "0x48d878e4b6669c34-7-1"%string.
Proof. vm_compute. reflexivity. Qed.

(** ** Rounding to significant digits *)

Section DecFacts.
Import Dec.
Open Scope Q_scope.

Lemma ten_neq_0 : ~ ten == 0.
Proof. unfold ten. intros H. discriminate H. Qed.

Lemma pow10_pos (k : Z) : 0 < pow10 k.
Proof. apply Qpower_0_lt. reflexivity. Qed.

Lemma pow10_add (a b : Z) : pow10 (a + b) == pow10 a * pow10 b.
Proof. apply Qpower_plus, ten_neq_0. Qed.

Lemma pow10_0 : pow10 0 == 1.
Proof. reflexivity. Qed.

Lemma pow10_1 : pow10 1 == 10 # 1.
Proof. reflexivity. Qed.

Lemma pow10_opp (a : Z) : pow10 (- a) == / pow10 a.
Proof. apply Qpower_opp. Qed.

Lemma pow10_sub (a b : Z) : pow10 (a - b) == pow10 a / pow10 b.
Proof. unfold Z.sub. rewrite pow10_add, pow10_opp. reflexivity. Qed.

Lemma pow10_le (a b : Z) : (a <= b)%Z -> pow10 a <= pow10 b.
Proof. intros H. apply Qpower_le_compat_l; [exact H|]. unfold ten. apply Qle_bool_iff. reflexivity. Qed.

Lemma pow10_lt (a b : Z) : (a < b)%Z -> pow10 a < pow10 b.
Proof. intros H. apply Qpower_lt_compat_l; [exact H|]. reflexivity. Qed.

Lemma pow10_inject (k : Z) : (0 <= k)%Z -> pow10 k == inject_Z (10 ^ k).
Proof. intros H. unfold pow10, ten. rewrite Zpower_Qpower by exact H. reflexivity. Qed.

Lemma digits_loop_spec (fuel : nat) (n : Z) :
  (0 < n)%Z -> (n < 2 ^ Z.of_nat fuel)%Z ->
  (10 ^ (digits_loop fuel n - 1) <= n < 10 ^ digits_loop fuel n)%Z /\ (1 <= digits_loop fuel n)%Z.
Proof.
  revert n. induction fuel as [|fuel IH]; intros n Hpos Hlt.
  - cbn in Hlt. lia.
  - cbn [digits_loop]. destruct (Z.ltb_spec n 10) as [Hs|Hb].
    + cbn. lia.
    + assert (H2 : (n / 10 < 2 ^ Z.of_nat fuel)%Z).
      { apply Z.div_lt_upper_bound; [lia|].
        rewrite Nat2Z.inj_succ, Z.pow_succ_r in Hlt by lia. lia. }
      assert (H1 : (0 < n / 10)%Z) by (apply Z.div_str_pos; lia).
      destruct (IH (n / 10)%Z H1 H2) as [[A B] C].
      replace (1 + digits_loop fuel (n / 10) - 1)%Z with (Z.succ (digits_loop fuel (n / 10) - 1)) by lia.
      replace (1 + digits_loop fuel (n / 10))%Z with (Z.succ (digits_loop fuel (n / 10))) by lia.
      rewrite !Z.pow_succ_r by lia.
      pose proof (Z.div_mod n 10 ltac:(lia)) as E.
      pose proof (Z.mod_pos_bound n 10 ltac:(lia)) as M.
      lia.
Qed.

Lemma ndigits_spec (n : Z) :
  (0 < n)%Z -> (10 ^ (ndigits n - 1) <= n < 10 ^ ndigits n)%Z /\ (1 <= ndigits n)%Z.
Proof.
  intros Hpos. unfold ndigits. destruct (Z.leb_spec n 0) as [H|_]; [lia|].
  apply digits_loop_spec; [exact Hpos|].
  rewrite Nat2Z.inj_succ, Z2Nat.id by apply Z.log2_nonneg.
  apply Z.log2_spec, Hpos.
Qed.

Lemma Q_as_quotient (x : Q) : x == inject_Z (Qnum x) / inject_Z (Zpos (Qden x)).
Proof. destruct x as [a b]. cbn [Qnum Qden]. apply Qmake_Qdiv. Qed.

Lemma ilog10_bounds (x : Q) :
  0 < x ->
  let t := (ndigits (Qnum x) - ndigits (Zpos (Qden x)))%Z in
  pow10 (t - 1) <= x /\ x < pow10 (t + 1).
Proof.
  intros Hx t.
  assert (Ha : (0 < Qnum x)%Z).
  { destruct x as [a b]. unfold Qlt in Hx. cbn in *. lia. }
  destruct (ndigits_spec (Qnum x) Ha) as [[A1 A2] A3].
  destruct (ndigits_spec (Zpos (Qden x)) ltac:(lia)) as [[B1 B2] B3].
  set (da := ndigits (Qnum x)) in *. set (db := ndigits (Zpos (Qden x))) in *.
  set (A := inject_Z (Qnum x)). set (B := inject_Z (Zpos (Qden x))).
  assert (HB : 0 < B) by (unfold B; apply (Qlt_le_trans _ (inject_Z 1)); [reflexivity|rewrite <- Zle_Qle; lia]).
  assert (HA1 : pow10 (da - 1) <= A).
  { rewrite pow10_inject by lia. unfold A. rewrite <- Zle_Qle. exact A1. }
  assert (HA2 : A < pow10 da).
  { rewrite pow10_inject by lia. unfold A. rewrite <- Zlt_Qlt. exact A2. }
  assert (HB1 : pow10 (db - 1) <= B).
  { rewrite pow10_inject by lia. unfold B. rewrite <- Zle_Qle. exact B1. }
  assert (HB2 : B < pow10 db).
  { rewrite pow10_inject by lia. unfold B. rewrite <- Zlt_Qlt. exact B2. }
  assert (Ex : x * B == A).
  { rewrite (Q_as_quotient x) at 1. fold A B. field. lra. }
  pose proof (pow10_pos (t - 1)) as P1. pose proof (pow10_pos (t + 1)) as P2.
  pose proof (pow10_pos db) as P3. pose proof (pow10_pos (db - 1)) as P4.
  assert (E1 : pow10 (t - 1) * pow10 db == pow10 (da - 1)).
  { rewrite <- pow10_add. unfold t. replace (da - db - 1 + db)%Z with (da - 1)%Z by lia. reflexivity. }
  assert (E2 : pow10 (t + 1) * pow10 (db - 1) == pow10 da).
  { rewrite <- pow10_add. unfold t. replace (da - db + 1 + (db - 1))%Z with da by lia. reflexivity. }
  split.
  - apply (Qmult_le_r _ _ B HB). rewrite Ex.
    apply (Qle_trans _ (pow10 (t - 1) * pow10 db)); [|rewrite E1; exact HA1].
    apply Qmult_le_l; [exact P1|]. apply Qlt_le_weak, HB2.
  - apply (Qmult_lt_r _ _ B HB). rewrite Ex.
    apply (Qlt_le_trans _ (pow10 da)); [exact HA2|]. rewrite <- E2.
    apply Qmult_le_l; [exact P2|exact HB1].
Qed.

Lemma ilog10_spec (x : Q) : 0 < x -> pow10 (ilog10 x) <= x /\ x < pow10 (ilog10 x + 1).
Proof.
  intros Hx. destruct (ilog10_bounds x Hx) as [L U]. unfold ilog10.
  set (t := (ndigits (Qnum x) - ndigits (Zpos (Qden x)))%Z) in *.
  destruct (Qle_bool (pow10 t) x) eqn:E.
  - apply Qle_bool_iff in E. auto.
  - split; [exact L|]. replace (t - 1 + 1)%Z with t by lia.
    apply Qnot_le_lt. intros H. apply Qle_bool_iff in H. congruence.
Qed.

Lemma ilog10_unique (x : Q) (e : Z) :
  pow10 e <= x -> x < pow10 (e + 1) -> ilog10 x = e.
Proof.
  intros L U.
  assert (Hx : 0 < x) by (apply (Qlt_le_trans _ (pow10 e)); [apply pow10_pos|exact L]).
  destruct (ilog10_spec x Hx) as [L' U'].
  destruct (Z.lt_trichotomy (ilog10 x) e) as [H|[H|H]]; [|exact H|].
  - pose proof (pow10_le (ilog10 x + 1) e ltac:(lia)). lra.
  - pose proof (pow10_le (e + 1) (ilog10 x) ltac:(lia)). lra.
Qed.

Lemma ilog10_proper (x y : Q) : 0 < x -> x == y -> ilog10 x = ilog10 y.
Proof.
  intros Hx E. symmetry. destruct (ilog10_spec x Hx) as [L U].
  apply ilog10_unique; rewrite <- E; assumption.
Qed.

Lemma ilog10_scale (x : Q) (j : Z) : 0 < x -> ilog10 (x * pow10 j) = (ilog10 x + j)%Z.
Proof.
  intros Hx. destruct (ilog10_spec x Hx) as [L U]. pose proof (pow10_pos j) as Pj.
  apply ilog10_unique.
  - rewrite pow10_add. apply Qmult_le_r; assumption.
  - replace (ilog10 x + j + 1)%Z with (ilog10 x + 1 + j)%Z by lia.
    rewrite pow10_add. apply Qmult_lt_r; assumption.
Qed.

Lemma round_half_up_proper (x y : Q) : x == y -> round_half_up x = round_half_up y.
Proof.
  intros E. unfold round_half_up. rewrite (Qleb_comp 0 0 (Qeq_refl 0) x y E).
  destruct (Qle_bool 0 y); [apply Qfloor_comp|f_equal; apply Qfloor_comp]; rewrite E; reflexivity.
Qed.

Lemma round_half_up_nonneg (x : Q) : 0 <= x -> round_half_up x = Qfloor (x + (1 # 2)).
Proof. intros H. unfold round_half_up. apply Qle_bool_iff in H. rewrite H. reflexivity. Qed.

Lemma round_half_up_neg (x : Q) : x < 0 -> round_half_up x = (- Qfloor (- x + (1 # 2)))%Z.
Proof.
  intros H. unfold round_half_up. destruct (Qle_bool 0 x) eqn:E; [|reflexivity].
  apply Qle_bool_iff in E. lra.
Qed.

Lemma Qfloor_half_int (m : Z) : Qfloor (inject_Z m + (1 # 2)) = m.
Proof.
  pose proof (Qfloor_le (inject_Z m + (1 # 2))) as L.
  pose proof (Qlt_floor (inject_Z m + (1 # 2))) as U.
  set (f := Qfloor (inject_Z m + (1 # 2))) in *.
  assert (A : (f <= m)%Z).
  { apply Z.lt_succ_r. rewrite Zlt_Qlt. unfold Z.succ. rewrite inject_Z_plus.
    change (inject_Z 1) with 1. lra. }
  assert (B : (m <= f)%Z).
  { apply Z.lt_succ_r. rewrite Zlt_Qlt. unfold Z.succ. rewrite inject_Z_plus.
    rewrite inject_Z_plus in U. change (inject_Z 1) with 1 in *. lra. }
  lia.
Qed.

Lemma round_half_up_opp (x : Q) : round_half_up (- x) = (- round_half_up x)%Z.
Proof.
  destruct (Qlt_le_dec x 0) as [Hn|Hp].
  - rewrite (round_half_up_neg x Hn), round_half_up_nonneg by lra. lia.
  - destruct (Qlt_le_dec 0 x) as [Hs|Hz].
    + rewrite (round_half_up_nonneg x Hp), round_half_up_neg by lra.
      f_equal. apply Qfloor_comp. ring.
    + assert (E : x == inject_Z 0) by (change (inject_Z 0) with 0; lra).
      rewrite (round_half_up_proper (- x) (inject_Z 0)), (round_half_up_proper x (inject_Z 0)).
      * reflexivity.
      * exact E.
      * rewrite E. reflexivity.
Qed.

Lemma round_half_up_int (m : Z) : round_half_up (inject_Z m) = m.
Proof.
  destruct (Z.le_gt_cases 0 m) as [H|H].
  - rewrite round_half_up_nonneg by (change 0 with (inject_Z 0); rewrite <- Zle_Qle; exact H).
    apply Qfloor_half_int.
  - rewrite round_half_up_neg by (change 0 with (inject_Z 0); rewrite <- Zlt_Qlt; exact H).
    rewrite <- inject_Z_opp, Qfloor_half_int. lia.
Qed.

Lemma round_half_up_mono (x y : Q) : x <= y -> (round_half_up x <= round_half_up y)%Z.
Proof.
  intros H. destruct (Qlt_le_dec x 0) as [Hx|Hx], (Qlt_le_dec y 0) as [Hy|Hy].
  - rewrite (round_half_up_neg x Hx), (round_half_up_neg y Hy).
    apply Z.opp_le_mono. rewrite !Z.opp_involutive. apply Qfloor_resp_le. lra.
  - rewrite (round_half_up_neg x Hx), (round_half_up_nonneg y Hy).
    assert (A : (0 <= Qfloor (- x + (1 # 2)))%Z).
    { rewrite <- (Qfloor_Z 0). apply Qfloor_resp_le. change (inject_Z 0) with 0. lra. }
    assert (B : (0 <= Qfloor (y + (1 # 2)))%Z).
    { rewrite <- (Qfloor_Z 0). apply Qfloor_resp_le. change (inject_Z 0) with 0. lra. }
    lia.
  - lra.
  - rewrite (round_half_up_nonneg x Hx), (round_half_up_nonneg y Hy).
    apply Qfloor_resp_le. lra.
Qed.

Lemma round_sig_zero (p : Z) (x : Q) : x == 0 -> round_sig p x == 0.
Proof. intros E. unfold round_sig. apply Qeq_eq_bool in E. rewrite E. reflexivity. Qed.

Lemma round_sig_nonzero (p : Z) (x : Q) :
  ~ x == 0 ->
  round_sig p x
  == inject_Z (round_half_up (x / pow10 (ilog10 (Qabs x) - p + 1)))
     * pow10 (ilog10 (Qabs x) - p + 1).
Proof.
  intros N. unfold round_sig. destruct (Qeq_bool x 0) eqn:E.
  - apply Qeq_bool_eq in E. contradiction.
  - apply Qred_correct.
Qed.

Lemma round_sig_pos (p : Z) (x : Q) :
  0 < x ->
  round_sig p x
  == inject_Z (Qfloor (x / pow10 (ilog10 x - p + 1) + (1 # 2))) * pow10 (ilog10 x - p + 1).
Proof.
  intros Hx. rewrite round_sig_nonzero by lra.
  assert (E : ilog10 (Qabs x) = ilog10 x).
  { apply ilog10_proper; [|apply Qabs_pos; lra]. rewrite Qabs_pos; lra. }
  rewrite E. pose proof (pow10_pos (ilog10 x - p + 1)) as P.
  rewrite round_half_up_nonneg; [reflexivity|].
  apply Qle_shift_div_l; [exact P|]. lra.
Qed.

Lemma Qabs_nonzero_pos (x : Q) : ~ x == 0 -> 0 < Qabs x.
Proof.
  intros N. destruct (Qlt_le_dec 0 x) as [H|H].
  - rewrite Qabs_pos; lra.
  - destruct (Qlt_le_dec x 0) as [H'|H'].
    + rewrite Qabs_neg; lra.
    + exfalso. apply N. lra.
Qed.

Lemma round_sig_opp (p : Z) (x : Q) : round_sig p (- x) == - round_sig p x.
Proof.
  destruct (Qeq_dec x 0) as [E|N].
  - rewrite (round_sig_zero p x E), round_sig_zero; [reflexivity|]. rewrite E. reflexivity.
  - assert (N' : ~ - x == 0) by (intros H; apply N; lra).
    rewrite (round_sig_nonzero p x N), (round_sig_nonzero p (- x) N').
    assert (E : ilog10 (Qabs (- x)) = ilog10 (Qabs x)).
    { apply ilog10_proper; [|apply Qabs_opp]. apply Qabs_nonzero_pos, N'. }
    rewrite E. set (k := (ilog10 (Qabs x) - p + 1)%Z).
    rewrite (round_half_up_proper (- x / pow10 k) (- (x / pow10 k))).
    + rewrite round_half_up_opp, inject_Z_opp. ring.
    + pose proof (pow10_pos k). field. lra.
Qed.

Lemma round_sig_proper (p : Z) (x y : Q) : x == y -> round_sig p x == round_sig p y.
Proof.
  intros E. destruct (Qeq_dec x 0) as [Z0|N].
  - rewrite (round_sig_zero p x Z0), round_sig_zero; [reflexivity|]. rewrite <- E. exact Z0.
  - assert (N' : ~ y == 0) by (rewrite <- E; exact N).
    rewrite (round_sig_nonzero p x N), (round_sig_nonzero p y N').
    assert (K : ilog10 (Qabs x) = ilog10 (Qabs y)).
    { apply ilog10_proper; [apply Qabs_nonzero_pos, N|]. rewrite E. reflexivity. }
    rewrite K. set (k := (ilog10 (Qabs y) - p + 1)%Z).
    rewrite (round_half_up_proper (x / pow10 k) (y / pow10 k)); [reflexivity|].
    rewrite E. reflexivity.
Qed.

(** The scaled value and its rounded mantissa. *)
Lemma scaled_bounds (p : Z) (x : Q) :
  0 < x ->
  let k := (ilog10 x - p + 1)%Z in
  pow10 (p - 1) <= x / pow10 k /\ x / pow10 k < pow10 p.
Proof.
  intros Hx k. destruct (ilog10_spec x Hx) as [L U].
  pose proof (pow10_pos k) as Pk.
  assert (E1 : pow10 (ilog10 x) == pow10 (p - 1) * pow10 k).
  { rewrite <- pow10_add. unfold k. replace (p - 1 + (ilog10 x - p + 1))%Z with (ilog10 x) by lia. reflexivity. }
  assert (E2 : pow10 (ilog10 x + 1) == pow10 p * pow10 k).
  { rewrite <- pow10_add. unfold k. replace (p + (ilog10 x - p + 1))%Z with (ilog10 x + 1)%Z by lia. reflexivity. }
  split.
  - apply Qle_shift_div_l; [exact Pk|]. rewrite <- E1. exact L.
  - apply Qlt_shift_div_r; [exact Pk|]. rewrite <- E2. exact U.
Qed.

Lemma mantissa_bounds (p : Z) (x : Q) :
  0 < x -> (1 <= p)%Z ->
  let k := (ilog10 x - p + 1)%Z in
  (10 ^ (p - 1) <= Qfloor (x / pow10 k + (1 # 2)) <= 10 ^ p)%Z.
Proof.
  intros Hx Hp k. destruct (scaled_bounds p x Hx) as [L U]. fold k in L, U.
  rewrite (pow10_inject (p - 1)) in L by lia. rewrite (pow10_inject p) in U by lia.
  set (y := x / pow10 k) in *. split.
  - rewrite <- (Qfloor_Z (10 ^ (p - 1))). apply Qfloor_resp_le. lra.
  - pose proof (Qfloor_le (y + (1 # 2))) as F.
    apply Z.lt_succ_r. rewrite Zlt_Qlt. unfold Z.succ. rewrite inject_Z_plus.
    change (inject_Z 1) with 1. lra.
Qed.

Lemma round_sig_pos_bounds (p : Z) (x : Q) :
  0 < x -> (1 <= p)%Z ->
  pow10 (ilog10 x) <= round_sig p x /\ round_sig p x <= pow10 (ilog10 x + 1).
Proof.
  intros Hx Hp. rewrite (round_sig_pos p x Hx).
  destruct (mantissa_bounds p x Hx Hp) as [L U].
  set (k := (ilog10 x - p + 1)%Z) in *. set (m := Qfloor (x / pow10 k + (1 # 2))) in *.
  pose proof (pow10_pos k) as Pk.
  assert (E1 : pow10 (ilog10 x) == pow10 (p - 1) * pow10 k).
  { rewrite <- pow10_add. unfold k. replace (p - 1 + (ilog10 x - p + 1))%Z with (ilog10 x) by lia. reflexivity. }
  assert (E2 : pow10 (ilog10 x + 1) == pow10 p * pow10 k).
  { rewrite <- pow10_add. unfold k. replace (p + (ilog10 x - p + 1))%Z with (ilog10 x + 1)%Z by lia. reflexivity. }
  rewrite E1, E2. rewrite (pow10_inject (p - 1)), (pow10_inject p) by lia. split.
  - apply Qmult_le_r; [exact Pk|]. rewrite <- Zle_Qle. exact L.
  - apply Qmult_le_r; [exact Pk|]. rewrite <- Zle_Qle. exact U.
Qed.

Lemma round_sig_pos_pos (p : Z) (x : Q) : 0 < x -> (1 <= p)%Z -> 0 < round_sig p x.
Proof.
  intros Hx Hp. destruct (round_sig_pos_bounds p x Hx Hp) as [L _].
  pose proof (pow10_pos (ilog10 x)). lra.
Qed.

Lemma ilog10_mono (x y : Q) : 0 < x -> x <= y -> (ilog10 x <= ilog10 y)%Z.
Proof.
  intros Hx Hxy. destruct (ilog10_spec x Hx) as [Lx Ux].
  destruct (ilog10_spec y ltac:(lra)) as [Ly Uy].
  destruct (Z.le_gt_cases (ilog10 x) (ilog10 y)) as [H|H]; [exact H|].
  pose proof (pow10_le (ilog10 y + 1) (ilog10 x) ltac:(lia)). lra.
Qed.

Lemma round_sig_mono_pos (p : Z) (x y : Q) :
  (1 <= p)%Z -> 0 < x -> x <= y -> round_sig p x <= round_sig p y.
Proof.
  intros Hp Hx Hxy. assert (Hy : 0 < y) by lra.
  pose proof (ilog10_mono x y Hx Hxy) as He.
  destruct (Z.eq_dec (ilog10 x) (ilog10 y)) as [E|N].
  - rewrite (round_sig_pos p x Hx), (round_sig_pos p y Hy), E.
    set (k := (ilog10 y - p + 1)%Z). pose proof (pow10_pos k) as Pk.
    apply Qmult_le_r; [exact Pk|]. rewrite <- Zle_Qle. apply Qfloor_resp_le.
    assert (x / pow10 k <= y / pow10 k); [|lra].
    apply Qmult_le_r; [apply Qinv_lt_0_compat, Pk|exact Hxy].
  - destruct (round_sig_pos_bounds p x Hx Hp) as [_ Ux].
    destruct (round_sig_pos_bounds p y Hy Hp) as [Ly _].
    pose proof (pow10_le (ilog10 x + 1) (ilog10 y) ltac:(lia)). lra.
Qed.

Lemma round_sig_mono (p : Z) (x y : Q) :
  (1 <= p)%Z -> x <= y -> round_sig p x <= round_sig p y.
Proof.
  intros Hp Hxy.
  destruct (Qlt_le_dec 0 x) as [Hx|Hx].
  - apply round_sig_mono_pos; assumption.
  - destruct (Qlt_le_dec 0 y) as [Hy|Hy].
    + pose proof (round_sig_pos_pos p y Hy Hp) as Py.
      destruct (Qeq_dec x 0) as [Zx|Nx].
      * rewrite (round_sig_zero p x Zx). lra.
      * assert (Hnx : 0 < - x).
        { destruct (Qlt_le_dec x 0); [lra|]. exfalso. apply Nx. lra. }
        pose proof (round_sig_pos_pos p (- x) Hnx Hp) as Px.
        rewrite round_sig_opp in Px. lra.
    + destruct (Qeq_dec y 0) as [Zy|Ny].
      * rewrite (round_sig_zero p y Zy).
        destruct (Qeq_dec x 0) as [Zx|Nx]; [rewrite (round_sig_zero p x Zx); lra|].
        assert (Hnx : 0 < - x).
        { destruct (Qlt_le_dec x 0); [lra|]. exfalso. apply Nx. lra. }
        pose proof (round_sig_pos_pos p (- x) Hnx Hp) as Px.
        rewrite round_sig_opp in Px. lra.
      * assert (Hny : 0 < - y).
        { destruct (Qlt_le_dec y 0); [lra|]. exfalso. apply Ny. lra. }
        pose proof (round_sig_mono_pos p (- y) (- x) Hp Hny ltac:(lra)) as M.
        rewrite !round_sig_opp in M. lra.
Qed.

Lemma round_sig_scale (p : Z) (x : Q) (j : Z) :
  round_sig p (x * pow10 j) == round_sig p x * pow10 j.
Proof.
  pose proof (pow10_pos j) as Pj.
  assert (Pos : forall y, 0 < y -> round_sig p (y * pow10 j) == round_sig p y * pow10 j).
  { intros y Hy. assert (Hyj : 0 < y * pow10 j) by (apply Qmult_lt_0_compat; assumption).
    rewrite (round_sig_pos p y Hy), (round_sig_pos p _ Hyj), (ilog10_scale y j Hy).
    replace (ilog10 y + j - p + 1)%Z with ((ilog10 y - p + 1) + j)%Z by lia.
    set (k := (ilog10 y - p + 1)%Z). pose proof (pow10_pos k) as Pk.
    rewrite (Qfloor_comp (y * pow10 j / pow10 (k + j) + (1 # 2)) (y / pow10 k + (1 # 2))).
    - rewrite pow10_add. ring.
    - rewrite pow10_add. field. lra. }
  destruct (Qlt_le_dec 0 x) as [Hx|Hx]; [apply Pos, Hx|].
  destruct (Qeq_dec x 0) as [Zx|Nx].
  - rewrite (round_sig_zero p x Zx), round_sig_zero; [ring|]. rewrite Zx. ring.
  - assert (Hnx : 0 < - x).
    { destruct (Qlt_le_dec x 0); [lra|]. exfalso. apply Nx. lra. }
    pose proof (Pos (- x) Hnx) as E.
    rewrite (round_sig_proper p (- x * pow10 j) (- (x * pow10 j))) in E by ring.
    rewrite !round_sig_opp in E. lra.
Qed.

Lemma round_sig_int_small (p m : Z) :
  (1 <= p)%Z -> (0 < m < 10 ^ p)%Z -> round_sig p (inject_Z m) == inject_Z m.
Proof.
  intros Hp [Hm0 Hm].
  assert (Hx : 0 < inject_Z m) by (change 0 with (inject_Z 0); rewrite <- Zlt_Qlt; exact Hm0).
  destruct (ndigits_spec m Hm0) as [[D1 D2] D3]. set (d := ndigits m) in *.
  assert (Hd : (d <= p)%Z).
  { destruct (Z.le_gt_cases d p) as [H|H]; [exact H|].
    pose proof (Z.pow_le_mono_r 10 p (d - 1) ltac:(lia) ltac:(lia)). lia. }
  assert (E : ilog10 (inject_Z m) = (d - 1)%Z).
  { apply ilog10_unique.
    - rewrite pow10_inject by lia. rewrite <- Zle_Qle. exact D1.
    - replace (d - 1 + 1)%Z with d by lia. rewrite pow10_inject by lia.
      rewrite <- Zlt_Qlt. exact D2. }
  rewrite (round_sig_pos p _ Hx), E.
  set (k := (d - 1 - p + 1)%Z). pose proof (pow10_pos k) as Pk.
  assert (F : pow10 (p - d) * pow10 k == 1).
  { rewrite <- pow10_add. unfold k. replace (p - d + (d - 1 - p + 1))%Z with 0%Z by lia.
    reflexivity. }
  assert (G : inject_Z m / pow10 k == inject_Z (m * 10 ^ (p - d))).
  { rewrite inject_Z_mult, <- (pow10_inject (p - d)) by lia.
    assert (I : / pow10 k == pow10 (p - d)).
    { rewrite <- (Qmult_1_l (/ pow10 k)), <- F. field. lra. }
    unfold Qdiv. rewrite I. reflexivity. }
  rewrite (Qfloor_comp _ (inject_Z (m * 10 ^ (p - d)) + (1 # 2))) by (rewrite G; reflexivity).
  rewrite Qfloor_half_int, <- G. field. lra.
Qed.

(** A mantissa of at most [p] digits with any exponent is kept as it is. *)
Lemma round_sig_exact (p m j : Z) :
  (1 <= p)%Z -> (Z.abs m < 10 ^ p)%Z ->
  round_sig p (inject_Z m * pow10 j) == inject_Z m * pow10 j.
Proof.
  intros Hp Hm. rewrite round_sig_scale.
  destruct (Z.lt_trichotomy m 0) as [H|[H|H]].
  - assert (E : inject_Z m == - inject_Z (- m)) by (rewrite inject_Z_opp; ring).
    rewrite (round_sig_proper p _ _ E), round_sig_opp, round_sig_int_small by lia.
    rewrite E. reflexivity.
  - subst m. rewrite round_sig_zero; reflexivity.
  - rewrite round_sig_int_small by lia. reflexivity.
Qed.

Lemma round_sig_idem (p : Z) (x : Q) :
  (1 <= p)%Z -> round_sig p (round_sig p x) == round_sig p x.
Proof.
  intros Hp.
  assert (Pos : forall y, 0 < y -> round_sig p (round_sig p y) == round_sig p y).
  { intros y Hy. destruct (mantissa_bounds p y Hy Hp) as [L U].
    pose proof (round_sig_pos p y Hy) as E.
    set (k := (ilog10 y - p + 1)%Z) in *. set (m := Qfloor (y / pow10 k + (1 # 2))) in *.
    rewrite (round_sig_proper p _ _ E), E.
    destruct (Z.eq_dec m (10 ^ p)%Z) as [Em|Nm].
    - assert (E1 : inject_Z m * pow10 k == inject_Z 1 * pow10 (p + k)).
      { rewrite Em, <- pow10_inject, pow10_add by lia. change (inject_Z 1) with 1. ring. }
      rewrite (round_sig_proper p _ _ E1), E1. apply round_sig_exact; [exact Hp|].
      change (Z.abs 1) with 1%Z. apply Z.pow_gt_1; lia.
    - apply round_sig_exact; [exact Hp|].
      assert (0 < 10 ^ (p - 1))%Z by (apply Z.pow_pos_nonneg; lia). lia. }
  destruct (Qlt_le_dec 0 x) as [Hx|Hx]; [apply Pos, Hx|].
  destruct (Qeq_dec x 0) as [Zx|Nx].
  - rewrite (round_sig_proper p _ _ (round_sig_zero p x Zx)).
    rewrite (round_sig_zero p x Zx). apply round_sig_zero. reflexivity.
  - assert (Hnx : 0 < - x).
    { destruct (Qlt_le_dec x 0); [lra|]. exfalso. apply Nx. lra. }
    pose proof (Pos (- x) Hnx) as E.
    rewrite (round_sig_proper p _ _ (round_sig_opp p x)) in E.
    rewrite !round_sig_opp in E. lra.
Qed.

End DecFacts.

(** Rounding to [p >= 1] significant digits is a rounding in the sense the
    accounting needs. *)
Lemma round_sig_rounding (p : Z) : (1 <= p)%Z -> Graph.Rounding (Dec.round_sig p).
Proof.
  intros Hp. constructor.
  - intros x y E. apply round_sig_proper, E.
  - intros x y H. apply round_sig_mono; assumption.
  - intros x. apply round_sig_idem, Hp.
  - apply round_sig_zero. reflexivity.
Qed.

Lemma decimal128_rounding : Graph.Rounding Graph.decimal128.
Proof. apply round_sig_rounding. lia. Qed.

(** ** Hexadecimal text round trip *)

Section HexFacts.
Import Graph.
Local Open Scope string_scope.

Lemma append_cons (c : ascii) (s r : string) : String c s ++ r = String c (s ++ r).
Proof. reflexivity. Qed.

Lemma append_nil (r : string) : "" ++ r = r.
Proof. reflexivity. Qed.

Lemma byte_hex_decode (b : Byte.byte) (r : string) :
  bytes_of_hex (byte_hex b ++ r) = option_map (cons b) (bytes_of_hex r).
Proof.
  unfold byte_hex. rewrite !append_cons, append_nil.
  destruct b; cbn; destruct (bytes_of_hex r); reflexivity.
Qed.

Lemma bytes_of_hex_of_bytes (bs : Bytes) : bytes_of_hex (hex_of_bytes bs) = Some bs.
Proof.
  induction bs as [|b bs IH]; [reflexivity|].
  cbn [hex_of_bytes]. rewrite byte_hex_decode, IH. reflexivity.
Qed.

Lemma fromHexString_toHexString (bs : Bytes) :
  Bytes_fromHexString (toHexString bs) = Some bs.
Proof.
  unfold toHexString, Bytes_fromHexString. rewrite !append_cons, append_nil.
  apply bytes_of_hex_of_bytes.
Qed.

Lemma toHexString_inj (a b : Bytes) : toHexString a = toHexString b -> a = b.
Proof.
  intros E. apply (f_equal Bytes_fromHexString) in E.
  rewrite !fromHexString_toHexString in E. congruence.
Qed.

End HexFacts.

(** ** Token swap normalisation *)

Section SwapFacts.
Import Js Script.
Local Open Scope string_scope.

Lemma lower_ascii_idem (c : ascii) : lower_ascii (lower_ascii c) = lower_ascii c.
Proof. destruct c as [[] [] [] [] [] [] [] []]; reflexivity. Qed.

Lemma toLowerCase_idem (s : string) : toLowerCase (toLowerCase s) = toLowerCase s.
Proof.
  induction s as [|c s IH]; [reflexivity|].
  cbn [toLowerCase]. rewrite lower_ascii_idem, IH. reflexivity.
Qed.

Lemma swap_other (y : string) :
  toLowerCase y = y -> y <> WETH -> y <> WEETH ->
  swapTokenDeterministic (Some y)
  = {| tokenBefore := y; tokenAfter := y; swapped := false |}.
Proof.
  intros Hl H1 H2. unfold swapTokenDeterministic, safeLower. rewrite Hl.
  destruct y as [|c y]; [reflexivity|]. cbn [truthy negb].
  destruct (String.eqb_spec (String c y) WETH) as [E|_]; [contradiction|].
  destruct (String.eqb_spec (String c y) WEETH) as [E|_]; [contradiction|].
  reflexivity.
Qed.

Lemma normalize_iter_other (y : string) (n : nat) :
  toLowerCase y = y -> y <> WETH -> y <> WEETH ->
  Nat.iter n normalize y = y.
Proof.
  intros Hl H1 H2. induction n as [|n IH]; [reflexivity|].
  rewrite Nat.iter_succ, IH. unfold normalize. rewrite swap_other; auto.
Qed.

(** A reference in any letter case: the first application resolves it to
    its lower-case identity, where it then stays. *)
Lemma normalize_resolves (y : string) :
  toLowerCase y <> WETH -> toLowerCase y <> WEETH ->
  normalize y = toLowerCase y /\ wasSwapped y = false.
Proof.
  intros H1 H2. unfold normalize, wasSwapped, swapTokenDeterministic, safeLower.
  destruct (toLowerCase y) as [|c t] eqn:E; [split; reflexivity|].
  cbn [truthy negb].
  destruct (String.eqb_spec (String c t) WETH) as [E1|_]; [contradiction|].
  destruct (String.eqb_spec (String c t) WEETH) as [E2|_]; [contradiction|].
  split; reflexivity.
Qed.

Lemma normalize_iter_resolves (y : string) (n : nat) :
  toLowerCase y <> WETH -> toLowerCase y <> WEETH ->
  Nat.iter (S n) normalize y = toLowerCase y.
Proof.
  intros H1 H2. rewrite Nat.iter_succ_r.
  rewrite (proj1 (normalize_resolves y H1 H2)).
  apply normalize_iter_other; [apply toLowerCase_idem|assumption|assumption].
Qed.

End SwapFacts.

(** C3.  Swap normalisation exchanges the two swapped identities (one
    application yields the other one with [swapped = true], two applications
    yield the original), and it leaves every other identity alone with
    [swapped = false], however often it is applied.  An identity is a
    lower-case key, which is what the function resolves any raw reference to
    ([tokenBefore]) before it compares. *)
Theorem swap_normalization_involution_on_pair :
  Script.swapTokenDeterministic (Some Script.WETH)
  = {| Script.tokenBefore := Script.WETH; Script.tokenAfter := Script.WEETH;
       Script.swapped := true |}
  /\ Script.swapTokenDeterministic (Some Script.WEETH)
     = {| Script.tokenBefore := Script.WEETH; Script.tokenAfter := Script.WETH;
          Script.swapped := true |}
  /\ normalize (normalize Script.WETH) = Script.WETH
  /\ normalize (normalize Script.WEETH) = Script.WEETH
  /\ (forall y : string,
        Js.toLowerCase y = y -> y <> Script.WETH -> y <> Script.WEETH ->
        forall n : nat,
          Nat.iter n normalize y = y
          /\ wasSwapped (Nat.iter n normalize y) = false)
  /\ (forall y : string,
        Js.toLowerCase y <> Script.WETH -> Js.toLowerCase y <> Script.WEETH ->
        forall n : nat,
          Nat.iter (S n) normalize y = Js.toLowerCase y
          /\ wasSwapped (Nat.iter n normalize y) = false)
  /\ (forall raw : option string,
        let r := Script.swapTokenDeterministic raw in
        Script.tokenBefore r = Script.safeLower raw
        /\ (Script.tokenBefore r <> Script.WETH ->
            Script.tokenBefore r <> Script.WEETH ->
            Script.tokenAfter r = Script.tokenBefore r
            /\ Script.swapped r = false)).
Proof.
  split; [reflexivity|]. split; [reflexivity|].
  split; [reflexivity|]. split; [reflexivity|]. split; [|split].
  - intros y Hl H1 H2 n. rewrite normalize_iter_other by assumption.
    split; [reflexivity|]. unfold wasSwapped. rewrite swap_other; auto.
  - intros y H1 H2 n. split; [apply normalize_iter_resolves; assumption|].
    destruct n as [|n]; [apply (normalize_resolves y H1 H2)|].
    rewrite normalize_iter_resolves by assumption.
    apply normalize_resolves; rewrite toLowerCase_idem; assumption.
  - intros raw r. subst r. unfold Script.swapTokenDeterministic.
    destruct (Script.safeLower raw) as [|c t] eqn:E; cbn [Js.truthy negb].
    + cbn. auto.
    + destruct (String.eqb_spec (String c t) Script.WETH) as [E1|N1].
      * cbn. split; [reflexivity|]. intros A. contradiction.
      * destruct (String.eqb_spec (String c t) Script.WEETH) as [E2|N2].
        -- cbn. split; [reflexivity|]. intros _ A. contradiction.
        -- cbn. auto.
Qed.

Lemma swap_normalization_involution_on_pair_witness :
  Nat.iter 3 normalize "0x10aeaf63194db8d453d4d85a06e5efe1dd0b5417"
  = "0x10aeaf63194db8d453d4d85a06e5efe1dd0b5417"%string
  /\ wasSwapped (Nat.iter 3 normalize "0x10aeaf63194db8d453d4d85a06e5efe1dd0b5417") = false.
Proof.
  destruct swap_normalization_involution_on_pair as (_ & _ & _ & _ & Hother & _ & _).
  apply (Hother "0x10aeaf63194db8d453d4d85a06e5efe1dd0b5417"%string).
  - reflexivity.
  - discriminate.
  - discriminate.
Defined.

(** ** Deterministic identifiers *)

Section IdFacts.
Import Graph.
Local Open Scope string_scope.

Lemma substring_all (n : nat) (s : string) :
  (String.length s <= n)%nat -> substring 0 n s = s.
Proof.
  revert n. induction s as [|c s IH]; intros n Hn.
  - destruct n; reflexivity.
  - destruct n as [|n]; cbn [String.length] in Hn; [lia|].
    cbn [substring]. rewrite IH by lia. reflexivity.
Qed.

(** The defensive helper: the id starts with the first 12 characters of
    the transaction-hash text, for every hash. *)
Lemma makePerTokenId_first12 (txHash : string) (logIndex tokenIndex : Z) :
  Helpers.makePerTokenId txHash logIndex tokenIndex
  = substring 0 12 txHash ++ "-" ++ pretty logIndex ++ "-" ++ pretty tokenIndex.
Proof.
  unfold Helpers.makePerTokenId, substr0.
  destruct (Nat.ltb_spec 12 (String.length txHash)) as [_|Hle]; [reflexivity|].
  rewrite substring_all by exact Hle. reflexivity.
Qed.

(** The minimal helper: the text it is given, in full. *)
Lemma makePerTokenId_minimal_full (txHash : string) (logIndex tokenIndex : Z) :
  HelpersMinimal.makePerTokenId txHash logIndex tokenIndex
  = txHash ++ "-" ++ pretty logIndex ++ "-" ++ pretty tokenIndex.
Proof. reflexivity. Qed.

End IdFacts.

(** C5.  The FlowRecord id is the first 12 characters of the transaction
    hash text, the log index and the token index, joined by dashes.  The
    defensive helper builds exactly that ([makePerTokenId_first12]); the
    minimal helper, handed the same 66-character hash the handlers pass,
    keeps all of it. *)
Theorem makePerTokenId_minimal_keeps_whole_hash :
  let txHash := "0x48d878e4b6669c34ef333d84e9d714d3db06047e3eeefe89ba7614237a70d2df"%string in
  Helpers.makePerTokenId txHash 7 1 = "0x48d878e4b6-7-1"%string
  /\ HelpersMinimal.makePerTokenId txHash 7 1
     = "0x48d878e4b6669c34ef333d84e9d714d3db06047e3eeefe89ba7614237a70d2df-7-1"%string
  /\ HelpersMinimal.makePerTokenId txHash 7 1
     <> (substring 0 12 txHash ++ "-" ++ pretty 7%Z ++ "-" ++ pretty 1%Z)%string.
Proof.
  cbv zeta. split; [vm_compute; reflexivity|]. split; [vm_compute; reflexivity|].
  vm_compute. discriminate.
Qed.

(** ** The oracle-rate cache *)

Section OracleFacts.
Import Graph Schema.
Local Open Scope string_scope.

Lemma no_dash_app (s r : string) : no_dash (s ++ r) = no_dash s && no_dash r.
Proof.
  induction s as [|c s IH]; [reflexivity|].
  rewrite append_cons. cbn [no_dash]. rewrite IH, andb_assoc. reflexivity.
Qed.

Lemma no_dash_hex (bs : Bytes) : no_dash (hex_of_bytes bs) = true.
Proof.
  induction bs as [|b bs IH]; [reflexivity|].
  cbn [hex_of_bytes]. rewrite no_dash_app, IH, andb_true_r.
  destruct b; reflexivity.
Qed.

Lemma no_dash_toHexString (bs : Bytes) : no_dash (toHexString bs) = true.
Proof. unfold toHexString. rewrite no_dash_app, no_dash_hex. reflexivity. Qed.

(** Two dash-free prefixes followed by a dash split a text the same way. *)
Lemma split_at_dash (s1 s2 x y : string) :
  no_dash s1 = true -> no_dash s2 = true ->
  s1 ++ "-" ++ x = s2 ++ "-" ++ y -> s1 = s2 /\ x = y.
Proof.
  revert s2. induction s1 as [|c s1 IH]; intros [|d s2] H1 H2 E.
  - rewrite !append_nil in E. injection E as E. auto.
  - rewrite append_nil, !append_cons, append_nil in E. injection E as Ec _.
    subst d. cbn in H2. discriminate.
  - rewrite append_nil, !append_cons, append_nil in E. injection E as Ec _.
    subst c. cbn in H1. discriminate.
  - rewrite !append_cons in E. injection E as Ec E. subst d.
    cbn [no_dash] in H1, H2.
    apply andb_true_iff in H1 as [_ H1]. apply andb_true_iff in H2 as [_ H2].
    destruct (IH s2 H1 H2 E) as [-> ->]. auto.
Qed.

(** Distinct (token, block number) pairs have distinct keys. *)
Lemma oracleRateId_inj (t1 t2 : Address) (b1 b2 : Block) :
  oracleRateId t1 b1 = oracleRateId t2 b2 -> t1 = t2 /\ number b1 = number b2.
Proof.
  intros E. unfold oracleRateId in E.
  apply split_at_dash in E as [Et En]; try apply no_dash_toHexString.
  split; [apply toHexString_inj, Et|]. apply (inj pretty), En.
Qed.

(** Both versions of the helper are the same function. *)
Lemma getOrCreateOracleRate_versions_agree token block rate src s :
  HelpersMinimal.getOrCreateOracleRate token block rate src s
  = Helpers.getOrCreateOracleRate token block rate src s.
Proof.
  unfold HelpersMinimal.getOrCreateOracleRate, Helpers.getOrCreateOracleRate.
  rewrite fromHexString_toHexString. reflexivity.
Qed.

Lemma getOrCreateOracleRate_existing token block rate src s existing :
  oracleRates s !! oracleRateId token block = Some existing ->
  Helpers.getOrCreateOracleRate token block rate src s = (existing, s).
Proof.
  intros E. unfold Helpers.getOrCreateOracleRate. fold (oracleRateId token block).
  rewrite E. reflexivity.
Qed.

Lemma getOrCreateOracleRate_fresh token block rate src s :
  oracleRates s !! oracleRateId token block = None ->
  let r := {| oracle_id := oracleRateId token block; oracle_token := token;
              oracle_blockNumber := number block;
              oracle_blockTimestamp := timestamp block;
              rateToETH := rate; source := src |} in
  Helpers.getOrCreateOracleRate token block rate src s
  = (r, set_oracleRates (insert (oracleRateId token block) r) s).
Proof.
  intros E. unfold Helpers.getOrCreateOracleRate. fold (oracleRateId token block).
  rewrite E, fromHexString_toHexString. reflexivity.
Qed.

(** A call leaves every record that is already stored as it is. *)
Lemma getOrCreateOracleRate_preserves token block rate src s key r :
  oracleRates s !! key = Some r ->
  oracleRates (snd (Helpers.getOrCreateOracleRate token block rate src s)) !! key
  = Some r.
Proof.
  intros Hk.
  destruct (oracleRates s !! oracleRateId token block) as [existing|] eqn:E.
  - rewrite (getOrCreateOracleRate_existing _ _ _ _ _ _ E). exact Hk.
  - rewrite (getOrCreateOracleRate_fresh _ _ _ _ _ E). cbn.
    rewrite lookup_insert_ne; [exact Hk|]. intros <-. congruence.
Qed.

Lemma runOracleCalls_preserves calls s key r :
  oracleRates s !! key = Some r ->
  oracleRates (runOracleCalls calls s) !! key = Some r.
Proof.
  revert s. induction calls as [|[[[token block] rate] src] calls IH]; intros s Hk.
  - exact Hk.
  - cbn [runOracleCalls fold_left]. apply IH.
    apply getOrCreateOracleRate_preserves, Hk.
Qed.

End OracleFacts.

(** C6.  [getOrCreateOracleRate], in both versions of the helpers: a record
    stored under the exact (token, block) key is returned as it is and the
    store is left untouched, whatever rate and source the call carries;
    otherwise a new record with the given rate and source is stored under
    that key and returned, and nothing else in the store changes.  A stored
    record survives any later calls unchanged, and distinct (token, block
    number) pairs never share a key. *)
Theorem getOrCreateOracleRate_create_once :
  forall (token : Graph.Address) (block : Graph.Block) (rate : Q) (src : string)
         (s : Schema.Store),
    let key := oracleRateId token block in
    let r := fst (Helpers.getOrCreateOracleRate token block rate src s) in
    let s' := snd (Helpers.getOrCreateOracleRate token block rate src s) in
    HelpersMinimal.getOrCreateOracleRate token block rate src s = (r, s')
    /\ Schema.oracleRates s' !! key = Some r
    /\ (forall existing, Schema.oracleRates s !! key = Some existing ->
                         r = existing /\ s' = s)
    /\ (Schema.oracleRates s !! key = None ->
        r = {| Schema.oracle_id := key; Schema.oracle_token := token;
               Schema.oracle_blockNumber := Graph.number block;
               Schema.oracle_blockTimestamp := Graph.timestamp block;
               Schema.rateToETH := rate; Schema.source := src |}
        /\ s' = Schema.set_oracleRates (insert key r) s)
    /\ (forall key', key' <> key ->
                     Schema.oracleRates s' !! key' = Schema.oracleRates s !! key')
    /\ (forall rate2 src2,
          Helpers.getOrCreateOracleRate token block rate2 src2 s' = (r, s')
          /\ HelpersMinimal.getOrCreateOracleRate token block rate2 src2 s' = (r, s'))
    /\ (forall calls, Schema.oracleRates (runOracleCalls calls s') !! key = Some r)
    /\ (forall token2 block2,
          oracleRateId token2 block2 = key ->
          token2 = token /\ Graph.number block2 = Graph.number block).
Proof.
  intros token block rate src s key r s'.
  assert (Hstored : Schema.oracleRates s' !! key = Some r).
  { subst r s'. destruct (Schema.oracleRates s !! key) as [existing|] eqn:E.
    - rewrite (getOrCreateOracleRate_existing _ _ _ _ _ _ E). exact E.
    - rewrite (getOrCreateOracleRate_fresh _ _ _ _ _ E). cbn.
      apply lookup_insert_eq. }
  split; [|split; [exact Hstored|split; [|split; [|split; [|split; [|split]]]]]].
  - rewrite getOrCreateOracleRate_versions_agree. subst r s'.
    destruct (Helpers.getOrCreateOracleRate token block rate src s). reflexivity.
  - intros existing E. subst r s'.
    rewrite (getOrCreateOracleRate_existing _ _ _ _ _ _ E). auto.
  - intros E. subst r s'. rewrite (getOrCreateOracleRate_fresh _ _ _ _ _ E). auto.
  - intros key' Hne. subst s'.
    destruct (Schema.oracleRates s !! key) as [existing|] eqn:E.
    + rewrite (getOrCreateOracleRate_existing _ _ _ _ _ _ E). reflexivity.
    + rewrite (getOrCreateOracleRate_fresh _ _ _ _ _ E). cbn.
      apply lookup_insert_ne. intros Heq. apply Hne. rewrite <- Heq. reflexivity.
  - intros rate2 src2. rewrite getOrCreateOracleRate_versions_agree.
    split; apply getOrCreateOracleRate_existing, Hstored.
  - intros calls. apply runOracleCalls_preserves, Hstored.
  - intros token2 block2 E. apply oracleRateId_inj, E.
Qed.

(** ** Positional token lookup *)

Section LookupFacts.
Import Graph Schema.

Lemma ZERO_ADDRESS_width : length Helpers.ZERO_ADDRESS = 20%nat.
Proof. reflexivity. Qed.

Lemma allBytes_typed (ts : list Bytes) : allBytes (Some <$> ts) = Ok ts.
Proof.
  induction ts as [|b ts IH]; [reflexivity|].
  rewrite fmap_cons. cbn [allBytes]. rewrite IH. reflexivity.
Qed.

Lemma Pool_tokens_typed (p : Pool) (ts : list Bytes) :
  typedPool p ts -> Pool_tokens p = Ok ts.
Proof. unfold typedPool, Pool_tokens. intros ->. apply allBytes_typed. Qed.

Lemma getTokenAddressFromPool_answer (pool : option Pool) (tokenIndex : Z) :
  Helpers.getTokenAddressFromPool pool tokenIndex = lookupAnswer pool tokenIndex.
Proof.
  unfold Helpers.getTokenAddressFromPool, lookupAnswer.
  destruct pool as [p|]; [|reflexivity].
  destruct (Pool_tokens p) as [ts|]; [|reflexivity].
  unfold entryAnswer.
  destruct (Z.ltb_spec tokenIndex 0) as [Hneg|Hnn]; cbn [orb].
  - destruct (ts !! Z.to_nat tokenIndex) as [b|]; [|reflexivity].
    destruct (decide (0 <= tokenIndex)%Z); [lia|reflexivity].
  - destruct (Z.leb_spec (Z.of_nat (length ts)) tokenIndex) as [Hge|Hlt].
    + rewrite (lookup_ge_None_2 ts (Z.to_nat tokenIndex)) by lia. reflexivity.
    + destruct (lookup_lt_is_Some_2 ts (Z.to_nat tokenIndex)) as [b He]; [lia|].
      rewrite He. destruct (decide (0 <= tokenIndex)%Z); [|lia].
      unfold Address_fromBytes.
      destruct (Nat.eqb_spec (length b) 20) as [E|N]; cbn [negb].
      * destruct (decide (length b = 20%nat)); [reflexivity|contradiction].
      * destruct (decide (length b = 20%nat)); [contradiction|reflexivity].
Qed.

Lemma entryAnswer_width (ts : list Bytes) (tokenIndex : Z) :
  length (entryAnswer ts tokenIndex) = 20%nat.
Proof.
  unfold entryAnswer. destruct (ts !! Z.to_nat tokenIndex) as [b|]; [|reflexivity].
  destruct (decide (0 <= tokenIndex)%Z); [|reflexivity].
  destruct (decide (length b = 20%nat)); [assumption|reflexivity].
Qed.

(** On a typed pool the defensive lookup returns, and what it returns is
    20 bytes wide. *)
Lemma getTokenAddressFromPool_typed (pool : option Pool) (tokenIndex : Z) :
  (forall p, pool = Some p -> exists ts, typedPool p ts) ->
  exists a, Helpers.getTokenAddressFromPool pool tokenIndex = Ok a /\ length a = 20%nat.
Proof.
  intros Hp. rewrite getTokenAddressFromPool_answer. unfold lookupAnswer.
  destruct pool as [p|].
  - destruct (Hp p eq_refl) as [ts Hts]. rewrite (Pool_tokens_typed p ts Hts).
    eexists. split; [reflexivity|apply entryAnswer_width].
  - eexists. split; [reflexivity|reflexivity].
Qed.



End LookupFacts.

(** An entry that is not 20 bytes wide: the defensive lookup answers the
    zero address, the minimal lookup hands the entry to [Address.fromBytes]
    unchecked. *)
Example lookup_of_short_entry :
  Helpers.getTokenAddressFromPool (Some malformedPool) 0 = Graph.Ok Helpers.ZERO_ADDRESS
  /\ HelpersMinimal.getTokenAddressFromPool (Some malformedPool) 0 = Graph.Abort.
Proof. split; reflexivity. Qed.




(** ** Zero raw amounts *)

Section ZeroAmountFacts.
Import Graph Schema Mapping.

Variable rnd : Q -> Q.
Variable chain : Chain.

Lemma sameLedger_refl (s : Store) : sameLedger s s.
Proof. repeat split. Qed.

Lemma sameLedger_trans (s1 s2 s3 : Store) :
  sameLedger s1 s2 -> sameLedger s2 s3 -> sameLedger s1 s3.
Proof.
  intros (A1 & A2 & A3 & A4) (B1 & B2 & B3 & B4).
  repeat split; congruence.
Qed.

Lemma processRow_zero (H : HelpersModule) kind ev pool tokenIndex s :
  processRow rnd H chain kind ev pool tokenIndex 0 s = Ok s.
Proof. reflexivity. Qed.

Lemma processAmounts_zero_head (H : HelpersModule) kind ev pool i rest s :
  processAmounts rnd H chain kind ev pool i (0%Z :: rest) s
  = processAmounts rnd H chain kind ev pool (i + 1)%Z rest s.
Proof. reflexivity. Qed.

Lemma processAmounts_all_zero (H : HelpersModule) kind ev pool amounts :
  Forall (fun a => a = 0%Z) amounts ->
  forall i s, processAmounts rnd H chain kind ev pool i amounts s = Ok s.
Proof.
  induction 1 as [|a amounts Ha _ IH]; intros i s; [reflexivity|].
  subst a. rewrite processAmounts_zero_head. apply IH.
Qed.

Lemma initPool_minimal_ledger poolAddr block s :
  sameLedger s (HelpersMinimal.initPoolIfNeeded poolAddr block s).
Proof.
  unfold HelpersMinimal.initPoolIfNeeded.
  destruct (pools s !! toHexString poolAddr); repeat split.
Qed.

Lemma initPool_defensive_ledger poolAddr block maxIndex s :
  sameLedger s (Helpers.initPoolIfNeeded chain poolAddr block maxIndex s).
Proof.
  unfold Helpers.initPoolIfNeeded.
  destruct (length _ =? 0)%nat; [apply sameLedger_refl|].
  destruct (negb _); repeat split.
Qed.

Lemma minimalHelpers_poolOnly : poolOnly chain (minimalHelpers rnd).
Proof. intros poolAddr block s. apply initPool_minimal_ledger. Qed.

Lemma defensiveHelpers_poolOnly : poolOnly chain (defensiveHelpers rnd).
Proof. intros poolAddr block s. apply initPool_defensive_ledger. Qed.

Lemma loadPool_ledger (H : HelpersModule) ev s :
  poolOnly chain H -> sameLedger s (fst (loadPool H chain ev s)).
Proof.
  intros HP. unfold loadPool.
  destruct (pools _ !! _); cbn [fst].
  - apply HP.
  - eapply sameLedger_trans; apply HP.
Qed.

Lemma handleRemoveLiquidityOne_zero (H : HelpersModule) event s :
  poolOnly chain H -> token_amount event = 0%Z ->
  match handleRemoveLiquidityOne rnd H chain event s with
  | Ok s' => sameLedger s s'
  | Abort => toI32 (token_id event) = Abort
  end.
Proof.
  intros HP Hz. unfold handleRemoveLiquidityOne.
  pose proof (loadPool_ledger H (one_meta event) s HP) as HL.
  destruct (loadPool H chain (one_meta event) s) as [s1 [pool|]]; cbn [fst] in HL.
  - destruct (toI32 (token_id event)) as [tokenIndex|]; [|reflexivity].
    cbn. rewrite Hz, processRow_zero. exact HL.
  - exact HL.
Qed.

Lemma handleLiquidity_all_zero (H : HelpersModule) event s :
  poolOnly chain H -> Forall (fun a => a = 0%Z) (token_amounts event) ->
  (exists s', handleAddLiquidity rnd H chain event s = Ok s' /\ sameLedger s s')
  /\ (exists s', handleRemoveLiquidity rnd H chain event s = Ok s' /\ sameLedger s s').
Proof.
  intros HP Hz. unfold handleAddLiquidity, handleRemoveLiquidity.
  pose proof (loadPool_ledger H (meta event) s HP) as HL.
  destruct (loadPool H chain (meta event) s) as [s1 [pool|]]; cbn [fst] in HL.
  - rewrite !processAmounts_all_zero by exact Hz. split; exists s1; auto.
  - split; exists s1; auto.
Qed.

(** The same for the handlers of the flat layout. *)
Lemma flat_processRow_zero (H : HelpersModule) kind ev pool tokenIndex s :
  MappingFlat.processRow rnd H chain kind ev pool tokenIndex 0 s = Ok s.
Proof. reflexivity. Qed.

Lemma flat_processAmounts_zero_head (H : HelpersModule) kind ev pool i rest s :
  MappingFlat.processAmounts rnd H chain kind ev pool i (0%Z :: rest) s
  = MappingFlat.processAmounts rnd H chain kind ev pool (i + 1)%Z rest s.
Proof. reflexivity. Qed.

Lemma flat_processAmounts_all_zero (H : HelpersModule) kind ev pool amounts :
  Forall (fun a => a = 0%Z) amounts ->
  forall i s, MappingFlat.processAmounts rnd H chain kind ev pool i amounts s = Ok s.
Proof.
  induction 1 as [|a amounts Ha _ IH]; intros i s; [reflexivity|].
  subst a. rewrite flat_processAmounts_zero_head. apply IH.
Qed.

Lemma flat_handleRemoveLiquidityOne_zero (H : HelpersModule) event s :
  poolOnly chain H -> token_amount event = 0%Z ->
  match MappingFlat.handleRemoveLiquidityOne rnd H chain event s with
  | Ok s' => sameLedger s s'
  | Abort => toI32 (token_id event) = Abort
  end.
Proof.
  intros HP Hz. unfold MappingFlat.handleRemoveLiquidityOne.
  destruct (toI32 (token_id event)) as [tokenIndex|]; [|reflexivity].
  cbn. rewrite Hz. cbn. apply HP.
Qed.

Lemma flat_handleLiquidity_all_zero (H : HelpersModule) event s :
  poolOnly chain H -> Forall (fun a => a = 0%Z) (token_amounts event) ->
  (exists s', MappingFlat.handleAddLiquidity rnd H chain event s = Ok s'
              /\ sameLedger s s')
  /\ (exists s', MappingFlat.handleRemoveLiquidity rnd H chain event s = Ok s'
                 /\ sameLedger s s').
Proof.
  intros HP Hz. unfold MappingFlat.handleAddLiquidity, MappingFlat.handleRemoveLiquidity.
  rewrite !flat_processAmounts_all_zero by exact Hz.
  split; eexists; (split; [reflexivity|apply HP]).
Qed.

End ZeroAmountFacts.

(** C7.  A row whose raw amount is zero is skipped: processing it returns
    the store as it was, so no Deposit or Withdrawal is created and no user
    aggregate or rate record changes; the loop over an event's amounts steps
    over it.  An event that carries only zero amounts leaves the ledger
    (deposits, withdrawals, users, rates) untouched, in both versions of the
    handlers and under either version of the helpers; the only writes are
    the Pool refresh at the head of the handler. *)
Theorem zero_amount_row_has_no_effect :
  forall (rnd : Q -> Q) (chain : Graph.Chain),
    (forall (H : Mapping.HelpersModule) kind ev pool tokenIndex (s : Schema.Store),
        Mapping.processRow rnd H chain kind ev pool tokenIndex 0 s = Graph.Ok s
        /\ MappingFlat.processRow rnd H chain kind ev (Some pool) tokenIndex 0 s
           = Graph.Ok s
        /\ MappingFlat.processRow rnd H chain kind ev None tokenIndex 0 s = Graph.Ok s)
    /\ (forall (H : Mapping.HelpersModule) kind ev pool i rest (s : Schema.Store),
          Mapping.processAmounts rnd H chain kind ev pool i (0%Z :: rest) s
          = Mapping.processAmounts rnd H chain kind ev pool (i + 1)%Z rest s)
    /\ (forall (H : Mapping.HelpersModule) kind ev pool i rest (s : Schema.Store),
          MappingFlat.processAmounts rnd H chain kind ev pool i (0%Z :: rest) s
          = MappingFlat.processAmounts rnd H chain kind ev pool (i + 1)%Z rest s)
    /\ (forall (H : Mapping.HelpersModule) event (s : Schema.Store),
          H = Mapping.minimalHelpers rnd \/ H = Mapping.defensiveHelpers rnd ->
          Mapping.token_amount event = 0%Z ->
          match Mapping.handleRemoveLiquidityOne rnd H chain event s with
          | Graph.Ok s' => sameLedger s s'
          | Graph.Abort => Graph.toI32 (Mapping.token_id event) = Graph.Abort
          end
          /\ match MappingFlat.handleRemoveLiquidityOne rnd H chain event s with
             | Graph.Ok s' => sameLedger s s'
             | Graph.Abort => Graph.toI32 (Mapping.token_id event) = Graph.Abort
             end)
    /\ (forall (H : Mapping.HelpersModule) event (s : Schema.Store),
          H = Mapping.minimalHelpers rnd \/ H = Mapping.defensiveHelpers rnd ->
          Forall (fun a => a = 0%Z) (Mapping.token_amounts event) ->
          (exists s', Mapping.handleAddLiquidity rnd H chain event s = Graph.Ok s'
                      /\ sameLedger s s')
          /\ (exists s', Mapping.handleRemoveLiquidity rnd H chain event s = Graph.Ok s'
                         /\ sameLedger s s')
          /\ (exists s', MappingFlat.handleAddLiquidity rnd H chain event s = Graph.Ok s'
                         /\ sameLedger s s')
          /\ (exists s', MappingFlat.handleRemoveLiquidity rnd H chain event s = Graph.Ok s'
                         /\ sameLedger s s')).
Proof.
  intros rnd chain. split; [|split; [|split; [|split]]].
  - intros. repeat split.
  - intros. apply processAmounts_zero_head.
  - intros. apply flat_processAmounts_zero_head.
  - intros H event s HH Hz.
    assert (HP : poolOnly chain H).
    { destruct HH as [-> | ->];
        [apply minimalHelpers_poolOnly|apply defensiveHelpers_poolOnly]. }
    split.
    + apply handleRemoveLiquidityOne_zero; assumption.
    + apply flat_handleRemoveLiquidityOne_zero; assumption.
  - intros H event s HH Hz.
    assert (HP : poolOnly chain H).
    { destruct HH as [-> | ->];
        [apply minimalHelpers_poolOnly|apply defensiveHelpers_poolOnly]. }
    destruct (handleLiquidity_all_zero rnd chain H event s HP Hz) as [A B].
    destruct (flat_handleLiquidity_all_zero rnd chain H event s HP Hz) as [C D].
    auto.
Qed.

(** ** Pool token discovery *)

Section DiscoveryFacts.
Import Graph Schema.

Variable chain : Chain.
Variable poolAddr : Address.

Lemma probeResults_succ (first : Z) (count : nat) :
  probeResults chain poolAddr first (S count)
  = try_coins chain poolAddr first :: probeResults chain poolAddr (first + 1) count.
Proof.
  unfold probeResults. cbn [seq map]. rewrite Z.add_0_r. f_equal.
  rewrite <- seq_shift, map_map. apply map_ext. intros k. f_equal. lia.
Qed.

Lemma probe_spec (fuel : nat) (i : Z) (discovered : list Address) :
  Helpers.probe chain poolAddr fuel i discovered
  = discovered ++ untilFailureOrSentinel (probeResults chain poolAddr i fuel).
Proof.
  revert i discovered. induction fuel as [|fuel IH]; intros i discovered.
  - cbn. rewrite app_nil_r. reflexivity.
  - rewrite probeResults_succ. cbn [Helpers.probe untilFailureOrSentinel].
    destruct (try_coins chain poolAddr i) as [a|]; [|rewrite app_nil_r; reflexivity].
    destruct (bytes_eqb a Helpers.ZERO_ADDRESS); [rewrite app_nil_r; reflexivity|].
    rewrite IH, <- app_assoc. reflexivity.
Qed.

Lemma validate_filter (discovered : list Address) :
  Helpers.validate discovered = List.filter wellFormedIdentity discovered.
Proof.
  induction discovered as [|a rest IH]; [reflexivity|].
  cbn [Helpers.validate List.filter]. rewrite fromHexString_toHexString, IH.
  reflexivity.
Qed.

Lemma discovery_refines_spec (maxIndex : Z) :
  Helpers.validate (Helpers.probe chain poolAddr (Z.to_nat maxIndex) 0 [])
  = spec_discover chain poolAddr maxIndex.
Proof. rewrite probe_spec, validate_filter. reflexivity. Qed.

Lemma initPoolIfNeeded_nothing_found block maxIndex s :
  spec_discover chain poolAddr maxIndex = [] ->
  Helpers.initPoolIfNeeded chain poolAddr block maxIndex s = s.
Proof.
  intros E. unfold Helpers.initPoolIfNeeded.
  rewrite discovery_refines_spec, E. reflexivity.
Qed.

Lemma initPoolIfNeeded_found block maxIndex s :
  spec_discover chain poolAddr maxIndex <> [] ->
  Helpers.initPoolIfNeeded chain poolAddr block maxIndex s
  = set_pools
      (insert (toHexString poolAddr)
         {| pool_id := toHexString poolAddr; lpToken := poolAddr;
            tokens := Some (map Some (spec_discover chain poolAddr maxIndex));
            createdBlock := number block |}) s.
Proof.
  intros E. unfold Helpers.initPoolIfNeeded.
  rewrite discovery_refines_spec, fromHexString_toHexString.
  destruct (spec_discover chain poolAddr maxIndex) as [|a rest]; [contradiction|].
  reflexivity.
Qed.

End DiscoveryFacts.

(** C8.  Discovery probes [coins(i)] for [i = 0 .. maxIndex - 1] in
    increasing order, stops at the first reverted call or the first zero
    address, keeps the probed addresses that are 20 bytes wide (skipping the
    others without stopping), and persists exactly those, in probe order, as
    the token list of the Pool; when none is left it writes nothing.  The
    default bound is 8. *)
Theorem initPoolIfNeeded_discovers_validated_prefix :
  forall (chain : Graph.Chain) (poolAddr : Graph.Address) (block : Graph.Block)
         (maxIndex : Z) (s : Schema.Store),
    let found := spec_discover chain poolAddr maxIndex in
    let s' := Helpers.initPoolIfNeeded chain poolAddr block maxIndex s in
    Helpers.probe chain poolAddr (Z.to_nat maxIndex) 0 []
    = untilFailureOrSentinel (probeResults chain poolAddr 0 (Z.to_nat maxIndex))
    /\ Helpers.validate (Helpers.probe chain poolAddr (Z.to_nat maxIndex) 0 []) = found
    /\ (found = [] -> s' = s)
    /\ (found <> [] ->
        Schema.pools s' !! Graph.toHexString poolAddr
        = Some {| Schema.pool_id := Graph.toHexString poolAddr;
                  Schema.lpToken := poolAddr;
                  Schema.tokens := Some (map Some found);
                  Schema.createdBlock := Graph.number block |}
        /\ (forall other, other <> Graph.toHexString poolAddr ->
                          Schema.pools s' !! other = Schema.pools s !! other)
        /\ sameLedger s s')
    /\ Helpers.maxIndex_default = 8%Z.
Proof.
  intros chain poolAddr block maxIndex s found s'.
  split; [apply (probe_spec chain poolAddr _ 0%Z [])|].
  split; [apply discovery_refines_spec|].
  split; [intros E; apply initPoolIfNeeded_nothing_found, E|].
  split; [|reflexivity].
  intros E. subst s'. rewrite (initPoolIfNeeded_found chain poolAddr _ _ _ E). cbn.
  split; [apply lookup_insert_eq|]. split.
  - intros other Hne. apply lookup_insert_ne. congruence.
  - repeat split.
Qed.

(** ** Per-user aggregates *)

Section AggregateFacts.
Import Graph Schema.

Variable rnd : Q -> Q.

Lemma updated_user_defensive userId dep wd bn s :
  exists u, users (Helpers.updateUserAggregates rnd userId dep wd bn s) !! userId = Some u
    /\ totalDepositedWETH u
       = (if gt dep 0 then plus rnd (depositedOf s userId) dep else depositedOf s userId)
    /\ totalWithdrawnWETH u
       = (if gt wd 0 then plus rnd (withdrawnOf s userId) wd else withdrawnOf s userId)
    /\ netLossWETH u = minus rnd (totalDepositedWETH u) (totalWithdrawnWETH u)
    /\ lastUpdatedBlock u = bn.
Proof.
  unfold Helpers.updateUserAggregates, depositedOf, withdrawnOf. cbn.
  rewrite lookup_insert_eq. eexists. split; [reflexivity|].
  destruct (users s !! userId); cbn; auto.
Qed.

Lemma updated_user_minimal userId dep wd bn s :
  exists u, users (HelpersMinimal.updateUserAggregates rnd userId dep wd bn s) !! userId
            = Some u
    /\ totalDepositedWETH u = plus rnd (depositedOf s userId) dep
    /\ totalWithdrawnWETH u = plus rnd (withdrawnOf s userId) wd
    /\ netLossWETH u = minus rnd (totalWithdrawnWETH u) (totalDepositedWETH u)
    /\ lastUpdatedBlock u = bn.
Proof.
  unfold HelpersMinimal.updateUserAggregates, depositedOf, withdrawnOf. cbn.
  rewrite lookup_insert_eq. eexists. split; [reflexivity|].
  destruct (users s !! userId); cbn; auto.
Qed.

Lemma other_users_defensive userId dep wd bn s other :
  other <> userId ->
  users (Helpers.updateUserAggregates rnd userId dep wd bn s) !! other = users s !! other.
Proof.
  intros Hne. unfold Helpers.updateUserAggregates. cbn.
  apply lookup_insert_ne. congruence.
Qed.

Lemma other_users_minimal userId dep wd bn s other :
  other <> userId ->
  users (HelpersMinimal.updateUserAggregates rnd userId dep wd bn s) !! other
  = users s !! other.
Proof.
  intros Hne. unfold HelpersMinimal.updateUserAggregates. cbn.
  apply lookup_insert_ne. congruence.
Qed.

End AggregateFacts.

Section MonotoneFacts.
Import Graph Schema.
Open Scope Q_scope.

Variable rnd : Q -> Q.
Hypothesis rounding : Rounding rnd.

Lemma gt_zero_pos (a : Q) : gt a 0 = true -> 0 < a.
Proof.
  unfold gt. intros Hg. apply negb_true_iff in Hg.
  destruct (Qlt_le_dec 0 a) as [Hlt|Hle]; [exact Hlt|].
  apply Qle_bool_iff in Hle. congruence.
Qed.

Lemma deposited_normalised s userId :
  normalisedTotals rnd s -> rnd (depositedOf s userId) == depositedOf s userId.
Proof.
  intros Hn. unfold depositedOf.
  destruct (users s !! userId) as [u|] eqn:E.
  - apply (Hn userId u E).
  - apply (rnd_zero rnd rounding).
Qed.

Lemma withdrawn_normalised s userId :
  normalisedTotals rnd s -> rnd (withdrawnOf s userId) == withdrawnOf s userId.
Proof.
  intros Hn. unfold withdrawnOf.
  destruct (users s !! userId) as [u|] eqn:E.
  - apply (Hn userId u E).
  - apply (rnd_zero rnd rounding).
Qed.

(** Adding a non-negative amount to a normalised total does not lower it. *)
Lemma plus_nonneg_mono (x d : Q) : rnd x == x -> 0 <= d -> x <= plus rnd x d.
Proof.
  intros Hx Hd. unfold plus. rewrite <- Hx at 1.
  apply (rnd_mono rnd rounding). lra.
Qed.

Lemma plus_normalised (x d : Q) : rnd (plus rnd x d) == plus rnd x d.
Proof. apply (rnd_idem rnd rounding). Qed.

Lemma defensive_step_monotone userId dep wd bn s user :
  normalisedTotals rnd s ->
  let s' := Helpers.updateUserAggregates rnd userId dep wd bn s in
  depositedOf s user <= depositedOf s' user
  /\ withdrawnOf s user <= withdrawnOf s' user.
Proof.
  intros Hn s'. subst s'. destruct (decide (user = userId)) as [->|Hne].
  - destruct (updated_user_defensive rnd userId dep wd bn s) as (u & Hu & Hd & Hw & _).
    unfold depositedOf at 2, withdrawnOf at 2. rewrite Hu, Hd, Hw. split.
    + destruct (gt dep 0) eqn:G; [|lra].
      apply plus_nonneg_mono; [apply deposited_normalised, Hn|].
      apply Qlt_le_weak, gt_zero_pos, G.
    + destruct (gt wd 0) eqn:G; [|lra].
      apply plus_nonneg_mono; [apply withdrawn_normalised, Hn|].
      apply Qlt_le_weak, gt_zero_pos, G.
  - unfold depositedOf, withdrawnOf.
    rewrite (other_users_defensive rnd userId dep wd bn s user Hne).
    split; lra.
Qed.

Lemma defensive_step_normalised userId dep wd bn s :
  normalisedTotals rnd s ->
  normalisedTotals rnd (Helpers.updateUserAggregates rnd userId dep wd bn s).
Proof.
  intros Hn user u Hu. destruct (decide (user = userId)) as [->|Hne].
  - destruct (updated_user_defensive rnd userId dep wd bn s) as (u' & Hu' & Hd & Hw & _).
    rewrite Hu' in Hu. injection Hu as <-. rewrite Hd, Hw. split.
    + destruct (gt dep 0); [apply plus_normalised|apply deposited_normalised, Hn].
    + destruct (gt wd 0); [apply plus_normalised|apply withdrawn_normalised, Hn].
  - rewrite (other_users_defensive rnd userId dep wd bn s user Hne) in Hu.
    apply (Hn user u Hu).
Qed.

Lemma minimal_step_monotone userId dep wd bn s user :
  normalisedTotals rnd s -> 0 <= dep -> 0 <= wd ->
  let s' := HelpersMinimal.updateUserAggregates rnd userId dep wd bn s in
  depositedOf s user <= depositedOf s' user
  /\ withdrawnOf s user <= withdrawnOf s' user.
Proof.
  intros Hn Hd0 Hw0 s'. subst s'. destruct (decide (user = userId)) as [->|Hne].
  - destruct (updated_user_minimal rnd userId dep wd bn s) as (u & Hu & Hd & Hw & _).
    unfold depositedOf at 2, withdrawnOf at 2. rewrite Hu, Hd, Hw. split.
    + apply plus_nonneg_mono; [apply deposited_normalised, Hn|exact Hd0].
    + apply plus_nonneg_mono; [apply withdrawn_normalised, Hn|exact Hw0].
  - unfold depositedOf, withdrawnOf.
    rewrite (other_users_minimal rnd userId dep wd bn s user Hne).
    split; lra.
Qed.

Lemma runUpdates_monotone calls s user :
  normalisedTotals rnd s ->
  depositedOf s user <= depositedOf (runUpdates rnd calls s) user
  /\ withdrawnOf s user <= withdrawnOf (runUpdates rnd calls s) user.
Proof.
  revert s. induction calls as [|[[[userId dep] wd] bn] calls IH]; intros s Hn.
  - cbn. split; lra.
  - cbn [runUpdates fold_left].
    destruct (defensive_step_monotone userId dep wd bn s user Hn) as [A B].
    destruct (IH _ (defensive_step_normalised userId dep wd bn s Hn)) as [C D].
    unfold runUpdates in C, D. split; lra.
Qed.

End MonotoneFacts.

Section AggregateClaims.
Open Scope Q_scope.

(** Every update recomputes the stored net field from the two totals it
    has just stored: the defensive helper as deposited minus withdrawn
    (exactly that difference whenever the difference fits the host's
    decimal), the minimal helper with the operands the other way round,
    withdrawn minus deposited.  The script never stores a net: it subtracts
    when it writes the aggregate file. *)
Theorem net_recomputed_from_totals :
  forall (rnd : Q -> Q) (userId : string) (dep wd : Q) (bn : Z) (s : Schema.Store),
    let s2 := Helpers.updateUserAggregates rnd userId dep wd bn s in
    let s1 := HelpersMinimal.updateUserAggregates rnd userId dep wd bn s in
    netOf s2 userId = Graph.minus rnd (depositedOf s2 userId) (withdrawnOf s2 userId)
    /\ (rnd (depositedOf s2 userId - withdrawnOf s2 userId)
        == depositedOf s2 userId - withdrawnOf s2 userId ->
        netOf s2 userId == depositedOf s2 userId - withdrawnOf s2 userId)
    /\ netOf s1 userId = Graph.minus rnd (withdrawnOf s1 userId) (depositedOf s1 userId)
    /\ (forall vals : Script.UserTotals,
          Script.remaining vals
          = Js.Decimal_minus (Script.deposits vals) (Script.withdrawals vals)).
Proof.
  intros rnd userId dep wd bn s s2 s1.
  destruct (updated_user_defensive rnd userId dep wd bn s) as (u2 & Hu2 & _ & _ & Hn2 & _).
  destruct (updated_user_minimal rnd userId dep wd bn s) as (u1 & Hu1 & _ & _ & Hn1 & _).
  fold s2 in Hu2. fold s1 in Hu1.
  unfold netOf, depositedOf, withdrawnOf. rewrite Hu2, Hu1.
  split; [exact Hn2|]. split; [|split; [exact Hn1|reflexivity]].
  intros E. rewrite Hn2. unfold Graph.minus. exact E.
Qed.

(** C4.  After every update the stored net is totalDeposited minus
    totalWithdrawn, recomputed from the two totals.  The defensive helper
    stores exactly that ([net_recomputed_from_totals]); the minimal helper
    subtracts the other way round, so after a first deposit of 1 the stored
    net is -1. *)
Theorem minimal_net_has_opposite_sign :
  let user := "0x750e9a7b449904f47b793b805db469fa6e025e33"%string in
  let s1 := HelpersMinimal.updateUserAggregates Graph.decimal128 user 1 0 39496719
              Schema.emptyStore in
  depositedOf s1 user == 1 /\ withdrawnOf s1 user == 0 /\ netOf s1 user == - (1)
  /\ ~ netOf s1 user == depositedOf s1 user - withdrawnOf s1 user.
Proof.
  cbv zeta.
  destruct (updated_user_minimal Graph.decimal128
              "0x750e9a7b449904f47b793b805db469fa6e025e33" 1 0 39496719
              Schema.emptyStore) as (u & Hu & Hd & Hw & Hn & _).
  unfold netOf, depositedOf, withdrawnOf in *. rewrite Hu.
  rewrite Hn, Hd, Hw. cbn [Schema.users Schema.emptyStore]. rewrite lookup_empty.
  vm_compute. repeat split; discriminate.
Qed.

(** Under a host rounding, on a store whose totals went through that
    rounding: no call of the defensive helper lowers any user's
    totalDeposited or totalWithdrawn, whatever amounts it is given, and so no
    sequence of such calls does; the minimal helper adds its arguments
    unguarded and keeps the totals from falling when the amounts are not
    negative, which is what the handlers pass. *)
Theorem totals_never_decrease :
  forall (rnd : Q -> Q), Graph.Rounding rnd ->
  forall (s : Schema.Store), normalisedTotals rnd s ->
  forall (userId : string) (dep wd : Q) (bn : Z) (user : string),
    (depositedOf s user
       <= depositedOf (Helpers.updateUserAggregates rnd userId dep wd bn s) user
     /\ withdrawnOf s user
          <= withdrawnOf (Helpers.updateUserAggregates rnd userId dep wd bn s) user)
    /\ normalisedTotals rnd (Helpers.updateUserAggregates rnd userId dep wd bn s)
    /\ (forall calls,
          depositedOf s user <= depositedOf (runUpdates rnd calls s) user
          /\ withdrawnOf s user <= withdrawnOf (runUpdates rnd calls s) user)
    /\ (0 <= dep -> 0 <= wd ->
        depositedOf s user
          <= depositedOf (HelpersMinimal.updateUserAggregates rnd userId dep wd bn s) user
        /\ withdrawnOf s user
             <= withdrawnOf (HelpersMinimal.updateUserAggregates rnd userId dep wd bn s) user).
Proof.
  intros rnd R s Hn userId dep wd bn user.
  split; [apply (defensive_step_monotone rnd R); exact Hn|].
  split; [apply (defensive_step_normalised rnd R); exact Hn|].
  split; [intros calls; apply (runUpdates_monotone rnd R); exact Hn|].
  intros Hd Hw. apply (minimal_step_monotone rnd R); assumption.
Qed.

Lemma emptyStore_normalised (rnd : Q -> Q) : normalisedTotals rnd Schema.emptyStore.
Proof. intros userId u Hu. cbn in Hu. rewrite lookup_empty in Hu. discriminate. Qed.

Lemma totals_never_decrease_witness :
  let user := "0x750e9a7b449904f47b793b805db469fa6e025e33"%string in
  depositedOf Schema.emptyStore user
  <= depositedOf
       (runUpdates Graph.decimal128
          [(user, 499367 # 100000, 0, 39496719%Z); (user, - (1), 3 # 1, 39496720%Z)]
          Schema.emptyStore) user.
Proof.
  cbv zeta.
  exact (proj1
           (proj1 (proj2 (proj2
              (totals_never_decrease Graph.decimal128 decimal128_rounding
                 Schema.emptyStore (emptyStore_normalised Graph.decimal128)
                 "0x750e9a7b449904f47b793b805db469fa6e025e33"%string 0 0 0%Z
                 "0x750e9a7b449904f47b793b805db469fa6e025e33"%string))) _)).
Defined.

(** Taken alone, the minimal helper adds whatever it is given: a call
    that carried a negative deposit would lower the stored total from 5 to
    4.  No handler makes such a call: the amounts they pass are converted
    unsigned integers times a stored rate, or the literal zero. *)
Example minimal_update_is_unguarded :
  let user := "0x750e9a7b449904f47b793b805db469fa6e025e33"%string in
  let s0 := HelpersMinimal.updateUserAggregates Graph.decimal128 user (5 # 1) 0 39496719
              Schema.emptyStore in
  let s1 := HelpersMinimal.updateUserAggregates Graph.decimal128 user (- (1)) 0 39496720 s0 in
  depositedOf s0 user == 5 # 1 /\ depositedOf s1 user == 4 # 1
  /\ depositedOf s1 user < depositedOf s0 user.
Proof.
  cbv zeta.
  set (user := "0x750e9a7b449904f47b793b805db469fa6e025e33"%string).
  set (s0 := HelpersMinimal.updateUserAggregates Graph.decimal128 user (5 # 1) 0 39496719
               Schema.emptyStore).
  destruct (updated_user_minimal Graph.decimal128 user (5 # 1) 0 39496719
              Schema.emptyStore) as (u0 & Hu0 & Hd0 & _).
  fold s0 in Hu0.
  destruct (updated_user_minimal Graph.decimal128 user (- (1)) 0 39496720 s0)
    as (u1 & Hu1 & Hd1 & _).
  assert (E0 : depositedOf s0 user = 5 # 1).
  { unfold depositedOf at 1. rewrite Hu0, Hd0. unfold depositedOf.
    cbn [Schema.users Schema.emptyStore]. rewrite lookup_empty. vm_compute. reflexivity. }
  assert (E1 : depositedOf
                 (HelpersMinimal.updateUserAggregates Graph.decimal128 user (- (1)) 0
                    39496720 s0) user = 4 # 1).
  { unfold depositedOf at 1. rewrite Hu1, Hd1, E0. vm_compute. reflexivity. }
  rewrite E0, E1. repeat split.
Qed.

End AggregateClaims.

(** ** Aggregation in the script *)

Section ScriptAggregateFacts.
Import Js Script.
Local Open Scope string_scope.

(** A row whose resolved token is the LP token leaves every
    per-(user, transaction) total as it was: at most it creates the key with
    a zero total. *)
Lemma txAggStep_ignores_LP (map : gmap string Q) (r : CorrectedRow) :
  row_tokenAfter r = LP_TOKEN ->
  forall key, txTotal (txAggStep map r) key = txTotal map key.
Proof.
  intros HLP key. unfold txAggStep, txTotal. rewrite HLP, String.eqb_refl. cbn [negb].
  assert (E : default 0%Q
                ((match map !! txKey r with
                  | Some _ => map
                  | None => <[txKey r := 0%Q]> map
                  end) !! key) = default 0%Q (map !! key)).
  { destruct (map !! txKey r) as [v|] eqn:Ek; [reflexivity|].
    destruct (decide (key = txKey r)) as [->|Hne].
    - rewrite lookup_insert_eq, Ek. reflexivity.
    - rewrite lookup_insert_ne by congruence. reflexivity. }
  destruct (amountWETHComputed r); exact E.
Qed.

(** A row that is not an LP row and carries an amount is added to the total
    of its key. *)
Lemma txAggStep_counts_other (map : gmap string Q) (r : CorrectedRow) (v : Q) :
  row_tokenAfter r <> LP_TOKEN -> amountWETHComputed r = Some v ->
  txTotal (txAggStep map r) (txKey r) = Decimal_plus (txTotal map (txKey r)) v.
Proof.
  intros HLP Hv. unfold txAggStep, txTotal. rewrite Hv.
  destruct (String.eqb_spec (row_tokenAfter r) LP_TOKEN) as [E|_]; [contradiction|].
  cbn [negb]. rewrite lookup_insert_eq. cbn [default].
  destruct (map !! txKey r) as [w|] eqn:Ek.
  - rewrite Ek. reflexivity.
  - rewrite lookup_insert_eq. reflexivity.
Qed.

(** What one iteration does to the total read for any key. *)
Lemma txAggStep_total (map : gmap string Q) (r : CorrectedRow) (key : string) :
  txTotal (txAggStep map r) key
  = if decide (key = txKey r) then
      match amountWETHComputed r with
      | Some v =>
          if String.eqb (row_tokenAfter r) LP_TOKEN then txTotal map key
          else Decimal_plus (txTotal map key) v
      | None => txTotal map key
      end
    else txTotal map key.
Proof.
  destruct (String.eqb_spec (row_tokenAfter r) LP_TOKEN) as [HLP|HLP].
  - rewrite txAggStep_ignores_LP by exact HLP.
    destruct (decide (key = txKey r)); [destruct (amountWETHComputed r)|]; reflexivity.
  - destruct (amountWETHComputed r) as [v|] eqn:Hv.
    + destruct (decide (key = txKey r)) as [->|Hne].
      * apply txAggStep_counts_other; assumption.
      * unfold txAggStep, txTotal. rewrite Hv.
        destruct (String.eqb_spec (row_tokenAfter r) LP_TOKEN) as [E|_]; [contradiction|].
        cbn [negb]. rewrite lookup_insert_ne by congruence.
        destruct (map !! txKey r); [reflexivity|].
        rewrite lookup_insert_ne by congruence. reflexivity.
    + unfold txAggStep, txTotal. rewrite Hv.
      destruct (decide (key = txKey r)) as [->|Hne].
      * destruct (map !! txKey r) as [w|] eqn:Ek; [rewrite Ek; reflexivity|].
        rewrite lookup_insert_eq. reflexivity.
      * destruct (map !! txKey r); [reflexivity|].
        rewrite lookup_insert_ne by congruence. reflexivity.
Qed.

(** The loop of [computeTxAggregates] reads its map only through the totals. *)
Lemma txAgg_fold_ext (rows : list CorrectedRow) (m1 m2 : gmap string Q) :
  (forall key, txTotal m1 key = txTotal m2 key) ->
  forall key,
    txTotal (fold_left txAggStep rows m1) key = txTotal (fold_left txAggStep rows m2) key.
Proof.
  revert m1 m2. induction rows as [|r rows IH]; intros m1 m2 Hm key; [apply Hm|].
  cbn [fold_left]. apply IH. intros k. rewrite !txAggStep_total, !Hm. reflexivity.
Qed.

(** Over a whole batch, the per-(user, transaction) totals are those of the
    batch without its LP rows. *)
Lemma computeTxAggregates_without_LP (rows : list CorrectedRow) (key : string) :
  txTotal (computeTxAggregates rows) key
  = txTotal
      (computeTxAggregates
         (List.filter (fun r => negb (String.eqb (row_tokenAfter r) LP_TOKEN)) rows))
      key.
Proof.
  unfold computeTxAggregates. generalize (∅ : gmap string Q) as m. revert key.
  induction rows as [|r rows IH]; intros key m; [reflexivity|].
  cbn [fold_left List.filter].
  destruct (String.eqb_spec (row_tokenAfter r) LP_TOKEN) as [HLP|HLP]; cbn [negb].
  - rewrite <- IH. apply txAgg_fold_ext. intros k.
    apply txAggStep_ignores_LP. exact HLP.
  - cbn [fold_left]. apply IH.
Qed.

(** The per-user loops add the amount of every row, whatever its token. *)
Lemma userDepositStep_adds (userMap : gmap string UserTotals) (r : CorrectedRow) :
  userTotals (userDepositStep userMap r) (safeLower (provider (original r)))
  = {| deposits :=
         Decimal_plus
           (deposits (userTotals userMap (safeLower (provider (original r)))))
           (default 0%Q (amountWETHComputed r));
       withdrawals := withdrawals (userTotals userMap (safeLower (provider (original r)))) |}.
Proof. unfold userDepositStep, userTotals. rewrite lookup_insert_eq. reflexivity. Qed.

Lemma userWithdrawalStep_adds (userMap : gmap string UserTotals) (r : CorrectedRow) :
  userTotals (userWithdrawalStep userMap r) (safeLower (provider (original r)))
  = {| deposits := deposits (userTotals userMap (safeLower (provider (original r))));
       withdrawals :=
         Decimal_plus
           (withdrawals (userTotals userMap (safeLower (provider (original r)))))
           (default 0%Q (amountWETHComputed r)) |}.
Proof. unfold userWithdrawalStep, userTotals. rewrite lookup_insert_eq. reflexivity. Qed.

End ScriptAggregateFacts.

(** C1.  Rows whose resolved token is the LP token contribute neither to the
    per-(user, transaction) totals nor to the per-user totals.  The first
    half holds for every row ([txAggStep_ignores_LP]); the per-user loops
    never look at the token, so the LP row below raises its provider's
    totalDeposited (and, fed to the withdrawal loop, totalWithdrawn) from 0
    to 1. *)
Theorem lp_row_counts_toward_user_totals :
  let user := "0x750e9a7b449904f47b793b805db469fa6e025e33"%string in
  Script.correctRow lpRow = Script.Normal lpCorrected
  /\ Script.row_tokenAfter lpCorrected = Script.LP_TOKEN
  /\ (forall map key,
        Script.txTotal (Script.txAggStep map lpCorrected) key = Script.txTotal map key)
  /\ Script.userTotals ∅ user = {| Script.deposits := 0; Script.withdrawals := 0 |}
  /\ Script.userTotals (Script.userDepositStep ∅ lpCorrected) user
     = {| Script.deposits := 1; Script.withdrawals := 0 |}
  /\ Script.userTotals (Script.userWithdrawalStep ∅ lpCorrected) user
     = {| Script.deposits := 0; Script.withdrawals := 1 |}.
Proof.
  cbv zeta. split; [vm_compute; reflexivity|]. split; [reflexivity|].
  split; [intros map key; apply txAggStep_ignores_LP; reflexivity|].
  split; [reflexivity|]. split.
  - change "0x750e9a7b449904f47b793b805db469fa6e025e33"%string
      with (Script.safeLower (Script.provider (Script.original lpCorrected))).
    rewrite userDepositStep_adds. vm_compute. reflexivity.
  - change "0x750e9a7b449904f47b793b805db469fa6e025e33"%string
      with (Script.safeLower (Script.provider (Script.original lpCorrected))).
    rewrite userWithdrawalStep_adds. vm_compute. reflexivity.
Qed.

(** ** Conversion of raw amounts *)

Section ConversionFacts.
Import Dec Js Script.
Open Scope Q_scope.

Lemma read_digits_all (s : string) (acc cnt : Z) :
  all_digits s = true ->
  read_digits s acc cnt
  = (digits_value_from acc s, (cnt + Z.of_nat (String.length s))%Z, EmptyString).
Proof.
  revert acc cnt. induction s as [|c s IH]; intros acc cnt H.
  - cbn. rewrite Z.add_0_r. reflexivity.
  - cbn [all_digits] in H. apply andb_true_iff in H as [Hc Hs].
    cbn [read_digits digits_value_from String.length]. rewrite Hc, (IH _ _ Hs).
    replace (cnt + 1 + Z.of_nat (String.length s))%Z
      with (cnt + Z.of_nat (S (String.length s)))%Z by lia.
    reflexivity.
Qed.

Lemma parse_unsigned_digits (s : string) :
  all_digits s = true -> s <> EmptyString ->
  parse_unsigned s = Some (Qred (inject_Z (uint_value s * 10 ^ 0 + 0) * pow10 (0 - 0))).
Proof.
  intros Hd Hne. unfold parse_unsigned. rewrite (read_digits_all s 0 0 Hd).
  destruct s as [|c s]; [contradiction|].
  cbn [String.length]. 
  assert (Hpos : (0 <? 0 + Z.of_nat (S (String.length s)))%Z = true)
    by (apply Z.ltb_lt; lia).
  rewrite Hpos. reflexivity.
Qed.

Lemma new_Decimal_digits (s : string) :
  all_digits s = true -> s <> EmptyString ->
  exists q, new_Decimal s = Some q /\ q == inject_Z (uint_value s).
Proof.
  intros Hd Hne. exists (Qred (inject_Z (uint_value s * 10 ^ 0 + 0) * pow10 (0 - 0))).
  split.
  - rewrite <- (parse_unsigned_digits s Hd Hne).
    destruct s as [|c s]; [contradiction|].
    cbn [all_digits] in Hd. apply andb_true_iff in Hd as [Hc _].
    destruct c as [[] [] [] [] [] [] [] []]; try discriminate Hc; reflexivity.
  - rewrite Qred_correct. change (pow10 (0 - 0)) with 1.
    rewrite Z.pow_0_r, Z.mul_1_r, Z.add_0_r. ring.
Qed.

Lemma Decimal_pow_10_18 : Decimal_pow (10 # 1) 18 == pow10 18.
Proof. vm_compute. reflexivity. Qed.

(** What [computeAmountWETHFromRaw] returns on a digit string and a rate
    that parses. *)
Lemma computeAmountWETHFromRaw_value (raw rateStr : string) (r : Q) :
  all_digits raw = true -> raw <> EmptyString -> new_Decimal rateStr = Some r ->
  exists v,
    computeAmountWETHFromRaw (Some raw) (Some rateStr) = Normal (Some v)
    /\ v == round_sig precision
              (round_sig precision (inject_Z (uint_value raw) * r) / pow10 18).
Proof.
  intros Hd Hne Hr. destruct (new_Decimal_digits raw Hd Hne) as (q & Hq & Eq).
  unfold computeAmountWETHFromRaw, rawToBigDecimal.
  destruct raw as [|c raw]; [contradiction|]. cbn [truthy]. rewrite Hq.
  destruct rateStr as [|c' rateStr]; [discriminate Hr|]. cbn [truthy]. rewrite Hr.
  cbn [bind]. eexists. split; [reflexivity|].
  unfold Decimal_div, Decimal_mul. apply round_sig_proper.
  rewrite Decimal_pow_10_18.
  rewrite (round_sig_proper precision (q * r) (inject_Z (uint_value (String c raw)) * r))
    by (rewrite Eq; reflexivity).
  reflexivity.
Qed.

(** When the product needs no rounding, neither does the quotient. *)
Lemma fixed_18_exact (n : Z) (r : Q) :
  representable precision (inject_Z n * r) ->
  round_sig precision (round_sig precision (inject_Z n * r) / pow10 18)
  == spec_convert n 18 r.
Proof.
  unfold representable. intros Hrep.
  rewrite (round_sig_proper precision _ (inject_Z n * r / pow10 18))
    by (rewrite Hrep; reflexivity).
  assert (E : inject_Z n * r / pow10 18 == inject_Z n * r * pow10 (- 18)).
  { reflexivity. }
  rewrite (round_sig_proper precision _ _ E), round_sig_scale, Hrep, <- E.
  unfold spec_convert. pose proof (pow10_pos 18). field. lra.
Qed.

End ConversionFacts.

Section SubgraphConversionFacts.
Import Dec Graph.
Open Scope Q_scope.

Variable rnd : Q -> Q.
Hypothesis rnd_proper : forall x y : Q, x == y -> rnd x == rnd y.

(** The loop of [exponentToBigDecimal] multiplies by ten [decimals] times;
    as long as the host keeps powers of ten as they are, it yields
    [10^decimals]. *)
Lemma exponentToBigDecimal_pow10 (n : nat) :
  (forall k : Z, (0 <= k <= Z.of_nat n)%Z -> rnd (pow10 k) == pow10 k) ->
  Nat.iter n (fun bd => times rnd bd (10 # 1)) (1 # 1) == pow10 (Z.of_nat n).
Proof.
  induction n as [|n IH]; intros Hex; [reflexivity|].
  rewrite Nat.iter_succ. unfold times at 1.
  rewrite (rnd_proper _ (pow10 (Z.of_nat (S n)))).
  - apply Hex. lia.
  - rewrite IH by (intros k Hk; apply Hex; lia).
    rewrite Nat2Z.inj_succ. unfold Z.succ. rewrite pow10_add. reflexivity.
Qed.

Lemma toDecimal_value (amount decimals : Z) :
  (0 <= decimals)%Z ->
  (forall k : Z, (0 <= k <= decimals)%Z -> rnd (pow10 k) == pow10 k) ->
  Helpers.toDecimal rnd amount decimals == rnd (inject_Z amount / pow10 decimals).
Proof.
  intros Hd Hex. unfold Helpers.toDecimal, Helpers.exponentToBigDecimal, div, toBigDecimal.
  apply rnd_proper.
  rewrite exponentToBigDecimal_pow10 by (intros k Hk; apply Hex; lia).
  rewrite Z2Nat.id by exact Hd. reflexivity.
Qed.

End SubgraphConversionFacts.

Section ConversionClaims.
Open Scope Q_scope.

(** C2, as the code has it.  The script divides by the fixed 10^18 and
    rounds each decimal.js operation to 20 significant digits: on a digit
    string and a rate it returns round(round(raw * rate) / 10^18), which is
    raw / 10^18 * rate exactly whenever raw * rate needs no rounding; without
    a raw amount it returns null.  The subgraph divides by 10^decimals for
    the decimals it is given: toDecimal(amount, decimals) * rate is
    rnd(rnd(amount / 10^decimals) * rate) under the host's rounding, and is
    amount / 10^decimals * rate exactly whenever neither step rounds.  All of
    it is decimal arithmetic on rationals; no binary floating point. *)
Theorem conversion_as_computed :
  (forall (raw rateStr : string) (r : Q),
      all_digits raw = true -> raw <> EmptyString -> Js.new_Decimal rateStr = Some r ->
      exists v,
        Script.computeAmountWETHFromRaw (Some raw) (Some rateStr)
        = Script.Normal (Some v)
        /\ v == Dec.round_sig Js.precision
                  (Dec.round_sig Js.precision (inject_Z (uint_value raw) * r)
                   / Dec.pow10 18)
        /\ (Dec.representable Js.precision (inject_Z (uint_value raw) * r) ->
            v == spec_convert (uint_value raw) 18 r))
  /\ (forall rateStr : option string,
        Script.computeAmountWETHFromRaw None rateStr = Script.Normal None
        /\ Script.computeAmountWETHFromRaw (Some EmptyString) rateStr = Script.Normal None)
  /\ (forall (rnd : Q -> Q) (amount decimals : Z) (rate : Q),
        (forall x y : Q, x == y -> rnd x == rnd y) ->
        (0 <= decimals)%Z ->
        (forall k : Z, (0 <= k <= decimals)%Z -> rnd (Dec.pow10 k) == Dec.pow10 k) ->
        Graph.times rnd (Helpers.toDecimal rnd amount decimals) rate
        == rnd (rnd (inject_Z amount / Dec.pow10 decimals) * rate)
        /\ (rnd (inject_Z amount / Dec.pow10 decimals)
            == inject_Z amount / Dec.pow10 decimals ->
            rnd (spec_convert amount decimals rate) == spec_convert amount decimals rate ->
            Graph.times rnd (Helpers.toDecimal rnd amount decimals) rate
            == spec_convert amount decimals rate)).
Proof.
  split; [|split].
  - intros raw rateStr r Hd Hne Hr.
    destruct (computeAmountWETHFromRaw_value raw rateStr r Hd Hne Hr) as (v & Hv & Ev).
    exists v. split; [exact Hv|]. split; [exact Ev|].
    intros Hrep. rewrite Ev. apply fixed_18_exact, Hrep.
  - intros rateStr. split; reflexivity.
  - intros rnd amount decimals rate Hp Hd Hex.
    assert (E : Graph.times rnd (Helpers.toDecimal rnd amount decimals) rate
                == rnd (rnd (inject_Z amount / Dec.pow10 decimals) * rate)).
    { unfold Graph.times. apply Hp.
      rewrite (toDecimal_value rnd Hp amount decimals Hd Hex). reflexivity. }
    split; [exact E|]. intros E1 E2. rewrite E.
    rewrite (Hp _ (spec_convert amount decimals rate)); [exact E2|].
    rewrite E1. reflexivity.
Qed.

Lemma pow10_exact_decimal128 (k : Z) : Graph.decimal128 (Dec.pow10 k) == Dec.pow10 k.
Proof.
  unfold Graph.decimal128.
  rewrite (round_sig_proper 34 (Dec.pow10 k) (inject_Z 1 * Dec.pow10 k))
    by (change (inject_Z 1) with 1; ring).
  rewrite round_sig_exact; [change (inject_Z 1) with 1; ring|lia|reflexivity].
Qed.

(** Scenario A through both converters: 4.99367 WETH, 18 decimals, rate 1. *)
Lemma conversion_as_computed_witness :
  (exists v,
      Script.computeAmountWETHFromRaw (Some "4993670000000000000"%string)
        (Some "1.00000"%string) = Script.Normal (Some v)
      /\ v == spec_convert 4993670000000000000 18 1)
  /\ Graph.times Graph.decimal128
       (Helpers.toDecimal Graph.decimal128 4993670000000000000 18) 1
     == spec_convert 4993670000000000000 18 1.
Proof.
  destruct conversion_as_computed as (Hscript & _ & Hgraph). split.
  - destruct (Hscript "4993670000000000000"%string "1.00000"%string 1)
      as (v & Hv & _ & Hexact).
    + reflexivity.
    + discriminate.
    + vm_compute. reflexivity.
    + exists v. split; [exact Hv|]. apply Hexact. vm_compute. reflexivity.
  - apply (Hgraph Graph.decimal128 4993670000000000000%Z 18%Z 1).
    + intros x y E. apply round_sig_proper, E.
    + lia.
    + intros k _. apply pow10_exact_decimal128.
    + vm_compute. reflexivity.
    + vm_compute. reflexivity.
Defined.

(** C2 as stated fails on the script.  A raw amount of a 6-decimals token is
    still divided by 10^18; and the third manual deposit of the script,
    0.088141282419113033 taken at the weETH rate, loses its last digits to
    the 20-digit rounding. *)
Lemma conversion_counterexample :
  (exists v,
      Script.computeAmountWETHFromRaw (Some "1000000"%string) (Some "1"%string)
      = Script.Normal (Some v)
      /\ v == 1 # 1000000000000
      /\ ~ v == spec_convert 1000000 6 1)
  /\ (exists v,
        Script.computeAmountWETHFromRaw (Some "88141282419113033"%string)
          (Some "1.0829400000000"%string) = Script.Normal (Some v)
        /\ v == 95451720382954267957 # 1000000000000000000000
        /\ spec_convert 88141282419113033 18 (10829400000000 # 10000000000000)
           == 9545172038295426795702 # 100000000000000000000000
        /\ ~ v == spec_convert 88141282419113033 18 (10829400000000 # 10000000000000)).
Proof.
  split.
  - eexists. split; [vm_compute; reflexivity|]. split; [reflexivity|].
    vm_compute. discriminate.
  - eexists. split; [vm_compute; reflexivity|]. split; [reflexivity|].
    split; [vm_compute; reflexivity|]. vm_compute. discriminate.
Qed.

End ConversionClaims.

(** ** The script on its injected deposits *)

(** The first injected deposit names WETH: it is resolved to weETH, priced
    at weETH's rate, and audited as a swap. *)
Example scenario_B :
  Script.bind (nth 0 Script.manualDeposits Script.Throw)
    (fun row =>
       Script.bind (Script.correctRow row)
         (fun c =>
            Script.Normal
              (Script.amountRaw row, Script.row_tokenAfter c, Script.conversionRate c,
               Script.amountWETHComputed c, Script.auditReason c)))
  = Script.Normal
      (Some "4993670000000000000"%string, Script.WEETH, "1.0829400000000"%string,
       Some (27039224949 # 5000000000), "swapped-token"%string).
Proof. vm_compute. reflexivity. Qed.

(** The three injected deposits, with nothing fetched: each provider's
    deposited total is its injected amount at the rate of the resolved
    token, nothing is withdrawn, and the remainder is the deposited total. *)
Example scenario_C :
  Script.bind (Script.main_userMap [] [])
    (fun userMap =>
       Script.Normal
         (map (fun user =>
                 (Script.userTotals userMap user,
                  Script.remaining (Script.userTotals userMap user)))
              ["0x750e9a7b449904f47b793b805db469fa6e025e33"%string;
               "0x8d114f86f43c76e084ac9b82b073a744e3e55fdb"%string;
               "0x50d4df2878e44f0d4ba02502f0a3646f9daf5d5f"%string]))
  = Script.Normal
      [({| Script.deposits := 27039224949 # 5000000000; Script.withdrawals := 0 |},
        27039224949 # 5000000000);
       ({| Script.deposits := 0.705403; Script.withdrawals := 0 |}, 0.705403);
       ({| Script.deposits := 0.095451720382954267957; Script.withdrawals := 0 |},
        0.095451720382954267957)]%Q.
Proof. vm_compute. reflexivity. Qed.

(** ** A run of the handlers *)

(** One deposit row is materialised, under the short id, and the zero rows
    leave nothing behind. *)
Example handleAddLiquidity_defensive_run :
  let r := Mapping.handleAddLiquidity Graph.decimal128
             (Mapping.defensiveHelpers Graph.decimal128) threeCoinChain sampleDeposit
             Schema.emptyStore in
  depositIds r = ["0x48d878e4b6-7-1"%string]
  /\ netOfRun r = Some (6096644401965900299 # 1000000000000000000).
Proof. vm_compute. split; reflexivity. Qed.

(** The same event through the minimal helpers: the id keeps the whole hash
    and the net has the other sign. *)
Example handleAddLiquidity_minimal_run :
  let r := Mapping.handleAddLiquidity Graph.decimal128
             (Mapping.minimalHelpers Graph.decimal128) threeCoinChain sampleDeposit
             Schema.emptyStore in
  depositIds r
  = ["0x48d878e4b6669c34ef333d84e9d714d3db06047e3eeefe89ba7614237a70d2df-7-1"%string]
  /\ netOfRun r = Some (- (6096644401965900299 # 1000000000000000000))%Q.
Proof. vm_compute. split; reflexivity. Qed.

(** Scenario D of the specification: two valid coins and a failure at
    index 2 persist a 2-token Pool; a later run that finds three replaces
    it. *)
Example scenario_D :
  let block1 := {| Graph.number := 38642218; Graph.timestamp := 1690000000 |} in
  let block2 := {| Graph.number := 39496719; Graph.timestamp := 1700000000 |} in
  let s1 := Helpers.initPoolIfNeeded twoCoinChain Helpers.POOL_ADDRESS block1
              Helpers.maxIndex_default Schema.emptyStore in
  let s2 := Helpers.initPoolIfNeeded threeCoinChain Helpers.POOL_ADDRESS block2
              Helpers.maxIndex_default s1 in
  poolTokenCount s1 = Some 2%nat /\ poolTokenCount s2 = Some 3%nat.
Proof. vm_compute. split; reflexivity. Qed.

(** ** The transport of the script: paging *)

Section TransportFacts.
Import Js Script.
Local Open Scope string_scope.

Lemma take_then_rest {A} (n : nat) (l : list A) :
  (take n l ++ drop (length (take n l)) l)%list = l.
Proof.
  destruct (Nat.le_gt_cases n (length l)) as [Hle|Hgt].
  - rewrite length_take, Nat.min_l by exact Hle. apply take_drop.
  - rewrite take_ge by lia. rewrite drop_all. apply app_nil_r.
Qed.

Lemma fetchAll_from_pages endpoint entity rows cap fuel skip out :
  servesInPages endpoint entity rows cap -> (0 < cap)%nat ->
  (length rows - skip < fuel)%nat ->
  fetchAll_from endpoint entity fuel skip out = Some (Normal (out ++ drop skip rows)%list).
Proof.
  intros Hs Hcap. revert skip out.
  induction fuel as [|fuel IH]; intros skip out Hfuel; [lia|].
  cbn [fetchAll_from]. destruct (Hs PAGE skip) as (fields & -> & Hf).
  cbn [gql]. rewrite Hf. cbn [default from_option Datatypes.id].
  set (items := take (Nat.min PAGE cap) (drop skip rows)).
  assert (Hlen : length items = Nat.min (Nat.min PAGE cap) (length rows - skip)).
  { unfold items. rewrite length_take, length_drop. reflexivity. }
  destruct (Nat.eqb_spec (length items) 0) as [E0|Hne].
  - assert (length rows <= skip)%nat by (unfold PAGE in Hlen; lia).
    rewrite drop_ge by lia. rewrite app_nil_r. reflexivity.
  - rewrite IH by lia. f_equal. f_equal. rewrite <- app_assoc. f_equal.
    rewrite <- drop_drop. apply take_then_rest.
Qed.

Lemma fetchAll_pages endpoint entity rows cap fuel :
  servesInPages endpoint entity rows cap -> (0 < cap)%nat -> (length rows < fuel)%nat ->
  fetchAll endpoint fuel entity = Some (Normal rows).
Proof.
  intros Hs Hcap Hfuel. unfold fetchAll.
  rewrite (fetchAll_from_pages endpoint entity rows cap) by (assumption || lia).
  reflexivity.
Qed.

Lemma fetchAnyOf_from_contributions endpoint fuel candidates out :
  Forall (fun name => fetchAll endpoint fuel name <> None) candidates ->
  fetchAnyOf_from endpoint fuel candidates out
  = Some (Normal (out ++ concat (map (fun name => contribution (fetchAll endpoint fuel name))
                                   candidates))%list).
Proof.
  revert out. induction candidates as [|name rest IH]; intros out Hall.
  - cbn. rewrite app_nil_r. reflexivity.
  - inversion Hall as [|? ? Hname Hrest]; subst.
    cbn [fetchAnyOf_from map concat].
    destruct (fetchAll endpoint fuel name) as [[items|]|]; [| |congruence].
    + cbn [contribution]. destruct (Nat.ltb_spec 0 (length items)) as [Hpos|Hz].
      * rewrite IH by exact Hrest. rewrite <- app_assoc. reflexivity.
      * destruct items; [|cbn in Hz; lia]. rewrite IH by exact Hrest. reflexivity.
    + cbn [contribution]. rewrite IH by exact Hrest. reflexivity.
Qed.

Lemma fetchAll_from_past_limit endpoint entity rows cap limit fuel skip out :
  servesUpTo endpoint entity rows cap limit -> (0 < cap)%nat ->
  (limit < length rows)%nat ->
  (skip < length rows \/ limit < skip)%nat ->
  (length rows - skip < fuel)%nat ->
  fetchAll_from endpoint entity fuel skip out = Some Throw.
Proof.
  intros Hs Hcap Hlimit. revert skip out.
  induction fuel as [|fuel IH]; intros skip out Hskip Hfuel; [lia|].
  cbn [fetchAll_from]. destruct (Hs PAGE skip) as [Hserved Hrefused].
  destruct (Nat.le_gt_cases skip limit) as [Hle|Hgt].
  - destruct (Hserved Hle) as (fields & -> & Hf). cbn [gql]. rewrite Hf.
    cbn [default from_option Datatypes.id].
    set (items := take (Nat.min PAGE cap) (drop skip rows)).
    assert (Hlen : length items = Nat.min (Nat.min PAGE cap) (length rows - skip)).
    { unfold items. rewrite length_take, length_drop. reflexivity. }
    unfold PAGE in Hlen.
    destruct (Nat.eqb_spec (length items) 0) as [E0|Hne]; [lia|].
    apply IH; lia.
  - rewrite (Hrefused Hgt). reflexivity.
Qed.

(** X1.  [fetchAll] puts the pages of an entity back together: when the
    endpoint serves the rows of the entity in slices of any positive size,
    the pager returns exactly those rows, in order, each once. *)
Theorem fetchAll_reassembles_pages (endpoint : Endpoint) (entity : string)
  (rows : list EventRow) (cap fuel : nat) :
  servesInPages endpoint entity rows cap -> (0 < cap)%nat -> (length rows < fuel)%nat ->
  fetchAll endpoint fuel entity = Some (Normal rows).
Proof. apply fetchAll_pages. Qed.

Lemma fetchAll_reassembles_pages_witness :
  fetchAll pagedEndpoint 4 "deposits" = Some (Normal threeRows).
Proof.
  apply (fetchAll_reassembles_pages pagedEndpoint "deposits" threeRows 2 4).
  - intros first skip. eexists. split; reflexivity.
  - lia.
  - cbn. lia.
Defined.

(** X2.  A failure on any page loses the whole entity: when the endpoint
    refuses to skip past a limit that the entity exceeds, [fetchAll] throws,
    and [fetchAnyOf] returns nothing for that name, the pages already
    received included. *)
Theorem fetchAll_fails_past_skip_limit (endpoint : Endpoint) (entity : string)
  (rows : list EventRow) (cap limit fuel : nat) :
  servesUpTo endpoint entity rows cap limit -> (0 < cap)%nat ->
  (limit < length rows)%nat -> (length rows < fuel)%nat ->
  fetchAll endpoint fuel entity = Some Throw
  /\ fetchAnyOf endpoint fuel [entity] = Some (Normal []).
Proof.
  intros Hs Hcap Hlimit Hfuel.
  assert (E : fetchAll endpoint fuel entity = Some Throw).
  { unfold fetchAll. apply (fetchAll_from_past_limit endpoint entity rows cap limit); lia || assumption. }
  split; [exact E|]. unfold fetchAnyOf. cbn [fetchAnyOf_from]. rewrite E. reflexivity.
Qed.

Lemma fetchAll_fails_past_skip_limit_witness :
  fetchAll limitedEndpoint 4 "deposits" = Some Throw
  /\ fetchAnyOf limitedEndpoint 4 ["deposits"] = Some (Normal []).
Proof.
  apply (fetchAll_fails_past_skip_limit limitedEndpoint "deposits" threeRows 2 1 4).
  - intros first skip. unfold limitedEndpoint. split; intros Hs.
    + destruct (Nat.leb_spec skip 1) as [_|Hgt]; [|lia]. eexists. split; reflexivity.
    + destruct (Nat.leb_spec skip 1) as [Hle|_]; [lia|]. reflexivity.
  - lia.
  - cbn. lia.
  - cbn. lia.
Defined.

(** X3.  [fetchAnyOf] never throws: a candidate name whose fetch fails is
    skipped, and the rows of the others are concatenated in the order of the
    candidates (so two names that both answer contribute their rows twice). *)
Theorem fetchAnyOf_concatenates_what_succeeds (endpoint : Endpoint) (fuel : nat)
  (candidates : list string) :
  Forall (fun name => fetchAll endpoint fuel name <> None) candidates ->
  fetchAnyOf endpoint fuel candidates
  = Some (Normal (concat (map (fun name => contribution (fetchAll endpoint fuel name))
                            candidates))).
Proof. intros Hall. unfold fetchAnyOf. rewrite fetchAnyOf_from_contributions by exact Hall. reflexivity. Qed.

Lemma fetchAnyOf_concatenates_what_succeeds_witness :
  fetchAnyOf pagedEndpoint 4 ["deposit"; "deposits"]
  = Some (Normal (concat (map (fun name => contribution (fetchAll pagedEndpoint 4 name))
                            ["deposit"; "deposits"]))).
Proof.
  apply (fetchAnyOf_concatenates_what_succeeds pagedEndpoint 4 ["deposit"; "deposits"]).
  repeat constructor; vm_compute; discriminate.
Defined.

End TransportFacts.

(** ** The CSV lines of the script *)

Section CsvFacts.
Import Js Script.
Local Open Scope string_scope.

Lemma str_app_assoc (a b c : string) : (a ++ b) ++ c = a ++ (b ++ c).
Proof. induction a as [|x a IH]; [reflexivity|]. rewrite !append_cons, IH. reflexivity. Qed.
Lemma str_app_nil_r (a : string) : a ++ "" = a.
Proof. induction a as [|x a IH]; [reflexivity|]. rewrite append_cons, IH. reflexivity. Qed.

Lemma readRecord_field (f cur rest : string) :
  readRecord InsideQuotes cur (double_quotes f ++ String dquote rest)
  = readRecord AfterQuote (cur ++ f) rest.
Proof.
  revert cur. induction f as [|c f IH]; intros cur.
  - rewrite str_app_nil_r. cbn [double_quotes]. rewrite append_nil.
    cbn [readRecord]. rewrite Ascii.eqb_refl. reflexivity.
  - cbn [double_quotes]. destruct (Ascii.eqb_spec c dquote) as [->|Hne].
    + rewrite !append_cons. cbn [readRecord]. rewrite !Ascii.eqb_refl.
      rewrite IH, str_app_assoc. reflexivity.
    + rewrite append_cons. cbn [readRecord].
      destruct (Ascii.eqb_spec c dquote) as [E|_]; [contradiction|].
      rewrite IH, str_app_assoc. reflexivity.
Qed.

Lemma readRecord_escaped (f rest : string) :
  readRecord AtFieldStart "" (csvEscape f ++ rest) = readRecord AfterQuote f rest.
Proof.
  unfold csvEscape. rewrite append_cons. cbn [readRecord]. rewrite Ascii.eqb_refl.
  rewrite str_app_assoc, append_cons, append_nil, readRecord_field. reflexivity.
Qed.

(** X4.  A CSV line written by the script reads back as the fields it was
    built from: every field is quoted and its quotes are doubled, so commas,
    quotes and line breaks inside a field cannot split or merge fields. *)
Theorem csvLine_reads_back (f : string) (fields : list string) :
  readCsvLine (csvLine (f :: fields)) = Some (f :: fields).
Proof.
  unfold readCsvLine, csvLine. revert f. induction fields as [|g fields IH]; intros f.
  - cbn [map join]. rewrite <- (str_app_nil_r (csvEscape f)), readRecord_escaped.
    reflexivity.
  - change (join "," (map csvEscape (f :: g :: fields)))
      with (csvEscape f ++ "," ++ join "," (map csvEscape (g :: fields))).
    rewrite readRecord_escaped. rewrite append_cons, append_nil. cbn [readRecord].
    change (Ascii.eqb "," dquote) with false. cbn iota. rewrite Ascii.eqb_refl.
    rewrite IH. reflexivity.
Qed.

End CsvFacts.

(** ** The sums of the script *)

Section ScriptSumFacts.
Import Js Script.
Local Open Scope string_scope.

Lemma omap_cons {A B} (f : A -> option B) (x : A) (l : list A) :
  omap f (x :: l) = match f x with Some y => y :: omap f l | None => omap f l end.
Proof. reflexivity. Qed.

Lemma txAgg_fold_total (rows : list CorrectedRow) (m : gmap string Q) (key : string) :
  txTotal (fold_left txAggStep rows m) key
  = fold_left Decimal_plus (omap (countedFor key) rows) (txTotal m key).
Proof.
  revert m. induction rows as [|r rows IH]; intros m; [reflexivity|].
  rewrite omap_cons. cbn [fold_left]. rewrite IH, txAggStep_total.
  unfold countedFor at 2.
  destruct (decide (key = txKey r)) as [->|Hne].
  - rewrite decide_True by reflexivity.
    destruct (amountWETHComputed r) as [v|];
      destruct (String.eqb (row_tokenAfter r) LP_TOKEN); reflexivity.
  - rewrite decide_False by congruence. reflexivity.
Qed.

(** X5.  The per-(user, transaction) total of a key is the sum, in row
    order and with decimal.js rounding at each addition, of the amounts of
    the rows of that key that are not LP rows and carry an amount; rows of
    other keys do not touch it. *)
Theorem computeTxAggregates_sums_counted_rows (rows : list CorrectedRow) (key : string) :
  txTotal (computeTxAggregates rows) key
  = fold_left Decimal_plus (omap (countedFor key) rows) 0%Q.
Proof. unfold computeTxAggregates. rewrite txAgg_fold_total. reflexivity. Qed.

Lemma txAggStep_dom (m : gmap string Q) (r : CorrectedRow) :
  dom (txAggStep m r) = {[ txKey r ]} ∪ dom m.
Proof.
  unfold txAggStep.
  assert (E : dom (match m !! txKey r with
                   | Some _ => m
                   | None => <[txKey r := 0%Q]> m
                   end) = {[ txKey r ]} ∪ dom m).
  { destruct (m !! txKey r) as [v|] eqn:Ek.
    - apply elem_of_dom_2 in Ek. symmetry.
      apply subseteq_union_1_L, singleton_subseteq_l, Ek.
    - rewrite dom_insert_L. reflexivity. }
  destruct (amountWETHComputed r) as [v|]; [|exact E].
  destruct (negb (String.eqb (row_tokenAfter r) LP_TOKEN)); [|exact E].
  rewrite dom_insert_L, E, (assoc_L (∪)), (idemp_L (∪)). reflexivity.
Qed.

Lemma txAgg_fold_dom (rows : list CorrectedRow) (m : gmap string Q) :
  dom (fold_left txAggStep rows m) = list_to_set (map txKey rows) ∪ dom m.
Proof.
  revert m. induction rows as [|r rows IH]; intros m.
  - cbn [fold_left map list_to_set]. rewrite (left_id_L ∅ (∪)). reflexivity.
  - cbn [fold_left map list_to_set]. rewrite IH, txAggStep_dom.
    rewrite !(assoc_L (∪)), (comm_L (∪) (list_to_set _) {[_]}). reflexivity.
Qed.

(** X6.  The per-transaction map has an entry for exactly the (user,
    transaction) keys of the batch: an LP row or a row without amount still
    creates its key, with a zero total. *)
Theorem computeTxAggregates_keys (rows : list CorrectedRow) :
  dom (computeTxAggregates rows) = list_to_set (map txKey rows).
Proof.
  unfold computeTxAggregates.
  rewrite txAgg_fold_dom, dom_empty_L, (right_id_L ∅ (∪)). reflexivity.
Qed.

Lemma userDeposit_fold (rows : list CorrectedRow) (m : gmap string UserTotals) (user : string) :
  userTotals (fold_left userDepositStep rows m) user
  = {| deposits := fold_left Decimal_plus (omap (amountOf user) rows)
                     (deposits (userTotals m user));
       withdrawals := withdrawals (userTotals m user) |}.
Proof.
  revert m. induction rows as [|r rows IH]; intros m.
  - cbn. destruct (userTotals m user); reflexivity.
  - rewrite omap_cons. cbn [fold_left]. rewrite IH. unfold amountOf at 2.
    destruct (decide (safeLower (provider (original r)) = user)) as [<-|Hne].
    + rewrite userDepositStep_adds. reflexivity.
    + unfold userDepositStep, userTotals. rewrite lookup_insert_ne by exact Hne.
      reflexivity.
Qed.

Lemma userWithdrawal_fold (rows : list CorrectedRow) (m : gmap string UserTotals) (user : string) :
  userTotals (fold_left userWithdrawalStep rows m) user
  = {| deposits := deposits (userTotals m user);
       withdrawals := fold_left Decimal_plus (omap (amountOf user) rows)
                        (withdrawals (userTotals m user)) |}.
Proof.
  revert m. induction rows as [|r rows IH]; intros m.
  - cbn. destruct (userTotals m user); reflexivity.
  - rewrite omap_cons. cbn [fold_left]. rewrite IH. unfold amountOf at 2.
    destruct (decide (safeLower (provider (original r)) = user)) as [<-|Hne].
    + rewrite userWithdrawalStep_adds. reflexivity.
    + unfold userWithdrawalStep, userTotals. rewrite lookup_insert_ne by exact Hne.
      reflexivity.
Qed.

(** X7.  A user's deposited total is the sum, in row order, of the
    amounts of that user's corrected deposit rows (a row without amount
    counts as zero, an LP row counts as any other), the withdrawn total
    likewise over the withdrawal rows; neither loop touches the other
    total, and providers are compared in lower case. *)
Theorem userAggregates_sums_rows (ds ws : list CorrectedRow) (user : string) :
  userTotals (userAggregates ds ws) user
  = {| deposits := fold_left Decimal_plus (omap (amountOf user) ds) 0%Q;
       withdrawals := fold_left Decimal_plus (omap (amountOf user) ws) 0%Q |}.
Proof.
  unfold userAggregates. rewrite userWithdrawal_fold, userDeposit_fold. reflexivity.
Qed.

End ScriptSumFacts.

(** ** The correction of a row *)

Section CorrectionFacts.
Import Js Script.
Local Open Scope string_scope.

Lemma WETH_neq_WEETH : WETH <> WEETH.
Proof. intros H. vm_compute in H. discriminate H. Qed.

(** X8.  The swap flag says exactly whether the token changed: it is
    set if and only if the resolved token differs from the lower-cased token
    the row named. *)
Theorem swapped_flag_iff_token_changed (tokenRaw : option string) :
  swapped (swapTokenDeterministic tokenRaw) = true
  <-> tokenAfter (swapTokenDeterministic tokenRaw)
      <> tokenBefore (swapTokenDeterministic tokenRaw).
Proof.
  unfold swapTokenDeterministic.
  destruct (truthy (safeLower tokenRaw)); cbn [negb].
  - destruct (String.eqb_spec (safeLower tokenRaw) WETH) as [E|N1];
      [|destruct (String.eqb_spec (safeLower tokenRaw) WEETH) as [E|N2]];
      cbn [swapped tokenAfter tokenBefore].
    + rewrite E. split; [intros _ H; exact (WETH_neq_WEETH (eq_sym H))|reflexivity].
    + rewrite E. split; [intros _ H; exact (WETH_neq_WEETH H)|reflexivity].
    + split; [discriminate|congruence].
  - cbn [swapped tokenAfter tokenBefore]. split; [discriminate|congruence].
Qed.

Lemma rate_of_hex_key (k : string) :
  k = "" \/ (exists k', k = String "0" (String "x" k')) ->
  exists rate q,
    conversionRateForToken k = Some rate /\ truthy rate = true
    /\ new_Decimal rate = Some q.
Proof.
  intros Hk. unfold conversionRateForToken, CONVERSION_RATES. cbn [own_property].
  destruct (String.eqb WEETH k); [eexists _, _; repeat split; vm_compute; reflexivity|].
  destruct (String.eqb WSTETH k); [eexists _, _; repeat split; vm_compute; reflexivity|].
  destruct (String.eqb WETH k); [eexists _, _; repeat split; vm_compute; reflexivity|].
  assert (E : existsb (String.eqb k) Object_prototype_keys = false)
    by (destruct Hk as [->|[k' ->]]; reflexivity).
  rewrite E. eexists _, _; repeat split; vm_compute; reflexivity.
Qed.

Lemma resolved_hex_key (t : option string) :
  hexToken t = true ->
  tokenAfter (swapTokenDeterministic t) = ""
  \/ (exists k', tokenAfter (swapTokenDeterministic t) = String "0" (String "x" k')).
Proof.
  intros Ht. destruct t as [t|]; [|left; reflexivity]. right.
  unfold swapTokenDeterministic.
  destruct (truthy (safeLower (Some t))) eqn:Htr; cbn [negb].
  - destruct (String.eqb (safeLower (Some t)) WETH); [eexists; reflexivity|].
    destruct (String.eqb (safeLower (Some t)) WEETH); [eexists; reflexivity|].
    cbn [tokenAfter safeLower].
    destruct t as [|c1 [|c2 t]]; try discriminate Ht.
    + destruct c1 as [[] [] [] [] [] [] [] []]; discriminate Ht.
    + cbn [hexToken] in Ht.
      destruct c1 as [[] [] [] [] [] [] [] []]; try discriminate Ht.
      destruct c2 as [[] [] [] [] [] [] [] []]; try discriminate Ht.
      eexists. reflexivity.
  - destruct t as [|c1 t]; [discriminate Ht|discriminate Htr].
Qed.

(** X9.  A row as the subgraph serialises it, with a token that is absent
    or starts with [0x] and a raw amount that is absent or written in decimal
    digits, is always corrected: the correction does not throw and keeps
    the row; the amount is left empty when the raw amount is absent or
    empty, and is otherwise the raw integer times the rate recorded on the
    row, rounded to 20 digits, divided by 10^18 and rounded again. *)
Theorem correctRow_completes_on_hex_tokens (r : EventRow) :
  hexToken (token r) = true ->
  serialisedAmount (amountRaw r) = true ->
  exists c q,
    correctRow r = Normal c /\ original c = r
    /\ new_Decimal (conversionRate c) = Some q
    /\ (amountRaw r = None \/ amountRaw r = Some "" -> amountWETHComputed c = None)
    /\ (forall raw, amountRaw r = Some raw -> raw <> "" ->
          exists v,
            amountWETHComputed c = Some v
            /\ v == Dec.round_sig precision
                      (Dec.round_sig precision (inject_Z (uint_value raw) * q)
                       / Dec.pow10 18)).
Proof.
  intros Ht Hraw. unfold correctRow.
  destruct (rate_of_hex_key _ (resolved_hex_key _ Ht)) as (rate & q & -> & Htruthy & Hq).
  destruct (amountRaw r) as [raw|] eqn:E.
  - destruct (String.eqb_spec raw "") as [->|Hne].
    + cbn [computeAmountWETHFromRaw rawToBigDecimal truthy bind].
      eexists _, q. split; [reflexivity|]. cbn [original conversionRate amountWETHComputed].
      split; [reflexivity|]. split; [exact Hq|]. split; [reflexivity|].
      intros raw [= <-] Hne. contradiction.
    + cbn [serialisedAmount] in Hraw.
      destruct (computeAmountWETHFromRaw_value raw rate q Hraw Hne Hq) as (v & -> & Hv).
      cbn [bind]. eexists _, q. split; [reflexivity|].
      cbn [original conversionRate amountWETHComputed].
      split; [reflexivity|]. split; [exact Hq|]. split.
      * intros [H|H]; [discriminate H|]. injection H as ->. contradiction.
      * intros raw' [= <-] _. exists v. split; [reflexivity|exact Hv].
  - cbn [computeAmountWETHFromRaw rawToBigDecimal bind].
    eexists _, q. split; [reflexivity|]. cbn [original conversionRate amountWETHComputed].
    split; [reflexivity|]. split; [exact Hq|]. split; [reflexivity|].
    intros raw H. discriminate H.
Qed.

Lemma correctRow_completes_on_hex_tokens_witness :
  exists c q,
    correctRow lpRow = Normal c /\ original c = lpRow
    /\ new_Decimal (conversionRate c) = Some q
    /\ exists v, amountWETHComputed c = Some v /\ v == 1.
Proof.
  destruct (correctRow_completes_on_hex_tokens lpRow eq_refl eq_refl)
    as (c & q & Hc & Ho & Hq & _ & Hv).
  destruct (Hv "1000000000000000000" eq_refl ltac:(discriminate)) as (v & Ev & Hval).
  exists c, q. split; [exact Hc|]. split; [exact Ho|]. split; [exact Hq|].
  exists v. split; [exact Ev|].
  vm_compute in Hc. injection Hc as <-. vm_compute in Hq. injection Hq as <-.
  rewrite Hval. vm_compute. reflexivity.
Defined.

Lemma correctRow_of_resolved (r : EventRow) (after rate : string) (q : Q) (sw : bool) :
  tokenAfter (swapTokenDeterministic (token r)) = after ->
  swapped (swapTokenDeterministic (token r)) = sw ->
  conversionRateForToken after = Some rate ->
  truthy rate = true -> new_Decimal rate = Some q ->
  exists c,
    correctRow r = Normal c /\ row_tokenAfter c = after /\ row_swapped c = sw
    /\ conversionRate c = rate.
Proof.
  intros Ha Hs Hr Ht Hq. unfold correctRow. rewrite Ha, Hs, Hr.
  unfold computeAmountWETHFromRaw.
  destruct (rawToBigDecimal (amountRaw r)); [rewrite Ht, Hq|];
    cbn [bind]; eexists; repeat split.
Qed.

(** X10.  The rate is looked up after the swap: a row that names WETH is
    resolved to weETH and priced at weETH's rate, a row that names weETH is
    resolved to WETH and priced at one, and a wstETH row keeps its token and
    its own rate. *)
Theorem correctRow_prices_resolved_token (r : EventRow) :
  (safeLower (token r) = WETH ->
   exists c, correctRow r = Normal c /\ row_tokenAfter c = WEETH
             /\ row_swapped c = true /\ conversionRate c = "1.0829400000000")
  /\ (safeLower (token r) = WEETH ->
      exists c, correctRow r = Normal c /\ row_tokenAfter c = WETH
                /\ row_swapped c = true /\ conversionRate c = "1.00000")
  /\ (safeLower (token r) = WSTETH ->
      exists c, correctRow r = Normal c /\ row_tokenAfter c = WSTETH
                /\ row_swapped c = false /\ conversionRate c = "1.2208745075197").
Proof.
  repeat split; intros E.
  - apply (correctRow_of_resolved r WEETH _ (54147 # 50000));
      try (unfold swapTokenDeterministic; rewrite E); reflexivity.
  - apply (correctRow_of_resolved r WETH _ (1 # 1));
      try (unfold swapTokenDeterministic; rewrite E); reflexivity.
  - apply (correctRow_of_resolved r WSTETH _ (12208745075197 # 10000000000000));
      try (unfold swapTokenDeterministic; rewrite E); reflexivity.
Qed.

Lemma correctRow_keeps_hex_row (r : EventRow) :
  hexToken (token r) = true -> exists c, correctRow r = Normal c /\ original c = r.
Proof.
  intros Ht. unfold correctRow.
  destruct (rate_of_hex_key _ (resolved_hex_key _ Ht)) as (rate & q & -> & Htruthy & Hq).
  unfold computeAmountWETHFromRaw.
  destruct (rawToBigDecimal (amountRaw r)) as [rawBig|].
  - rewrite Htruthy, Hq. cbn [bind]. eexists. split; reflexivity.
  - cbn [bind]. eexists. split; reflexivity.
Qed.

Lemma correctAll_hex_tokens (rows : list EventRow) :
  Forall (fun r => hexToken (token r) = true) rows ->
  exists cs, correctAll rows = Normal cs /\ map original cs = rows.
Proof.
  induction 1 as [|r rows Hr _ (cs & E & M)].
  - exists []. split; reflexivity.
  - destruct (correctRow_keeps_hex_row r Hr) as (c & Ec & Oc).
    exists (c :: cs). cbn [correctAll map]. rewrite Ec, E. cbn [bind].
    split; [reflexivity|]. rewrite Oc, M. reflexivity.
Qed.

Lemma manualDeposits_rows :
  exists rows, allNormal manualDeposits = Normal rows
               /\ Forall (fun r => hexToken (token r) = true) rows
               /\ length rows = 3%nat.
Proof.
  eexists. split; [vm_compute; reflexivity|]. split; [|reflexivity].
  repeat constructor.
Qed.

(** X11.  The correction and aggregation of [main] complete on every
    batch whose tokens are absent or start with [0x]: every fetched row is
    corrected, the three injected deposits are appended to the fetched
    deposits, and the per-user map is built from those corrected rows. *)
Theorem main_userMap_completes_on_hex_tokens (deposits withdrawals : list EventRow) :
  Forall (fun r => hexToken (token r) = true) deposits ->
  Forall (fun r => hexToken (token r) = true) withdrawals ->
  exists correctedDeposits correctedWithdrawals,
    main_userMap deposits withdrawals
    = Normal (userAggregates correctedDeposits correctedWithdrawals)
    /\ take (length deposits) (map original correctedDeposits) = deposits
    /\ length correctedDeposits = (length deposits + 3)%nat
    /\ map original correctedWithdrawals = withdrawals.
Proof.
  intros Hd Hw. destruct manualDeposits_rows as (manual & Em & Hm & Lm).
  destruct (correctAll_hex_tokens (deposits ++ manual)) as (cd & Ed & Md).
  { apply Forall_app. auto. }
  destruct (correctAll_hex_tokens withdrawals Hw) as (cw & Ew & Mw).
  exists cd, cw. unfold main_userMap. rewrite Em. cbn [bind]. rewrite Ed. cbn [bind].
  rewrite Ew. cbn [bind]. split; [reflexivity|].
  split; [rewrite Md; apply take_app_length|]. split; [|exact Mw].
  rewrite <- (length_map original), Md, length_app, Lm. reflexivity.
Qed.


Lemma main_userMap_completes_on_hex_tokens_witness :
  exists correctedDeposits correctedWithdrawals,
    main_userMap [lpRow] []
    = Normal (userAggregates correctedDeposits correctedWithdrawals)
    /\ take (length [lpRow]) (map original correctedDeposits) = [lpRow]
    /\ length correctedDeposits = (length [lpRow] + 3)%nat
    /\ map original correctedWithdrawals = [].
Proof.
  apply (main_userMap_completes_on_hex_tokens [lpRow] []); repeat constructor.
Defined.

End CorrectionFacts.

(** ** Order and round trip of the conversion *)

Section ConversionOrder.
Import Dec Js Script.
Local Open Scope string_scope.
Open Scope Q_scope.

Lemma digits_value_from_nonneg (s : string) (acc : Z) :
  (0 <= acc)%Z -> (0 <= digits_value_from acc s)%Z.
Proof.
  revert acc. induction s as [|c s IH]; intros acc Hacc; [exact Hacc|].
  cbn [digits_value_from]. apply IH. unfold digit_val. lia.
Qed.

Lemma twice_rounded_mono (x y : Q) :
  x <= y ->
  round_sig precision (round_sig precision x / pow10 18)
  <= round_sig precision (round_sig precision y / pow10 18).
Proof.
  intros Hxy. apply round_sig_mono; [unfold precision; lia|].
  pose proof (pow10_pos 18) as P.
  pose proof (round_sig_mono precision x y ltac:(unfold precision; lia) Hxy) as M.
  unfold Qdiv. apply Qmult_le_compat_r; [exact M|].
  apply Qlt_le_weak, Qinv_lt_0_compat, P.
Qed.

(** X12.  The conversion keeps the order of raw amounts: for a rate that
    is not negative, a larger raw amount never converts to a smaller
    canonical amount, and no amount converts to a negative one, the two
    roundings of decimal.js notwithstanding. *)
Theorem computeAmountWETHFromRaw_keeps_order (raw1 raw2 rateStr : string) (r : Q) :
  all_digits raw1 = true -> raw1 <> EmptyString ->
  all_digits raw2 = true -> raw2 <> EmptyString ->
  new_Decimal rateStr = Some r -> 0 <= r ->
  (uint_value raw1 <= uint_value raw2)%Z ->
  exists v1 v2,
    computeAmountWETHFromRaw (Some raw1) (Some rateStr) = Normal (Some v1)
    /\ computeAmountWETHFromRaw (Some raw2) (Some rateStr) = Normal (Some v2)
    /\ 0 <= v1 /\ v1 <= v2.
Proof.
  intros D1 N1 D2 N2 Hr Hr0 Hle.
  destruct (computeAmountWETHFromRaw_value raw1 rateStr r D1 N1 Hr) as (v1 & E1 & V1).
  destruct (computeAmountWETHFromRaw_value raw2 rateStr r D2 N2 Hr) as (v2 & E2 & V2).
  exists v1, v2. split; [exact E1|]. split; [exact E2|].
  assert (H0 : (0 <= uint_value raw1)%Z) by (apply digits_value_from_nonneg; lia).
  rewrite V1, V2. split.
  - assert (Z0 : round_sig precision (round_sig precision 0 / pow10 18) == 0)
      by (vm_compute; reflexivity).
    rewrite <- Z0. apply twice_rounded_mono.
    apply Qmult_le_0_compat; [|exact Hr0].
    change 0 with (inject_Z 0). rewrite <- Zle_Qle. exact H0.
  - apply twice_rounded_mono. apply Qmult_le_compat_r; [|exact Hr0].
    rewrite <- Zle_Qle. exact Hle.
Qed.


Lemma computeAmountWETHFromRaw_keeps_order_witness :
  exists v1 v2,
    computeAmountWETHFromRaw (Some "1000000000000000000"%string)
      (Some "1.0829400000000"%string) = Normal (Some v1)
    /\ computeAmountWETHFromRaw (Some "4993670000000000000"%string)
         (Some "1.0829400000000"%string) = Normal (Some v2)
    /\ 0 <= v1 /\ v1 <= v2.
Proof.
  apply (computeAmountWETHFromRaw_keeps_order _ _ _ (54147 # 50000)).
  - reflexivity.
  - discriminate.
  - reflexivity.
  - discriminate.
  - vm_compute. reflexivity.
  - unfold Qle. cbn. lia.
  - vm_compute. discriminate.
Defined.

End ConversionOrder.

Section PrettyFacts.
Import Dec Js Script.
Local Open Scope string_scope.

Lemma pretty_N_char_digit (m : N) :
  (m < 10)%N -> is_digit (pretty_N_char m) = true /\ digit_val (pretty_N_char m) = Z.of_N m.
Proof.
  intros Hm.
  assert (m = 0 \/ m = 1 \/ m = 2 \/ m = 3 \/ m = 4 \/ m = 5 \/ m = 6 \/ m = 7
          \/ m = 8 \/ m = 9)%N as H by lia.
  repeat (destruct H as [->|H]; [split; reflexivity|]). subst m. split; reflexivity.
Qed.

Lemma pretty_N_go_all_digits (x : N) (s : string) :
  all_digits (pretty_N_go x s) = all_digits s.
Proof.
  revert s. induction (N.lt_wf_0 x) as [x _ IH]; intros s.
  destruct (N.eq_dec x 0%N) as [->|Hx]; [reflexivity|].
  rewrite pretty_N_go_step by lia. rewrite IH by (apply N.div_lt; lia).
  cbn [all_digits].
  destruct (pretty_N_char_digit (x mod 10)) as [-> _]; [apply N.mod_lt; lia|].
  reflexivity.
Qed.

Lemma pretty_N_go_value (x : N) (s : string) :
  exists k : Z, (0 <= k)%Z /\ forall acc : Z,
    digits_value_from acc (pretty_N_go x s)
    = digits_value_from (acc * 10 ^ k + Z.of_N x)%Z s.
Proof.
  revert s. induction (N.lt_wf_0 x) as [x _ IH]; intros s.
  destruct (N.eq_dec x 0%N) as [->|Hx].
  - exists 0%Z. split; [lia|]. intros acc. rewrite pretty_N_go_0.
    f_equal. cbn. lia.
  - rewrite pretty_N_go_step by lia.
    destruct (IH (x / 10)%N ltac:(apply N.div_lt; lia)
                (String (pretty_N_char (x mod 10)) s)) as (k & Hk & E).
    exists (k + 1)%Z. split; [lia|]. intros acc. rewrite E.
    cbn [digits_value_from].
    destruct (pretty_N_char_digit (x mod 10)) as [_ ->]; [apply N.mod_lt; lia|].
    f_equal. rewrite Z.pow_add_r by lia.
    rewrite (N.div_mod x 10) at 3 by lia. rewrite N2Z.inj_add, N2Z.inj_mul.
    change (Z.of_N 10) with 10%Z. ring.
Qed.

Lemma pretty_N_go_nonempty (x : N) (s : string) : s <> "" -> pretty_N_go x s <> "".
Proof.
  revert s. induction (N.lt_wf_0 x) as [x _ IH]; intros s Hs.
  destruct (N.eq_dec x 0%N) as [->|Hx]; [exact Hs|].
  rewrite pretty_N_go_step by lia. apply IH; [apply N.div_lt; lia|discriminate].
Qed.

(** The decimal text of a non-negative integer: digits only, not empty, and
    it reads back as the integer. *)
Lemma pretty_nonneg (n : Z) :
  (0 <= n)%Z ->
  all_digits (pretty n) = true /\ pretty n <> "" /\ uint_value (pretty n) = n.
Proof.
  intros Hn. destruct n as [|p|p]; [repeat split; discriminate| |lia].
  change (pretty (Z.pos p)) with (pretty_N_go (N.pos p) "").
  split; [apply pretty_N_go_all_digits|]. split.
  - rewrite pretty_N_go_step by lia. apply pretty_N_go_nonempty. discriminate.
  - unfold uint_value. destruct (pretty_N_go_value (N.pos p) "") as (k & _ & E).
    rewrite E. cbn [digits_value_from]. lia.
Qed.

End PrettyFacts.

Section ManualRows.
Import Dec Js Script.
Local Open Scope string_scope.
Open Scope Q_scope.

Lemma round_sig_small_nat (n : Z) :
  (0 <= n < 10 ^ 20)%Z -> round_sig precision (inject_Z n) == inject_Z n.
Proof.
  intros [H0 H1]. destruct (Z.eq_dec n 0%Z) as [->|Hn].
  - apply round_sig_zero. reflexivity.
  - apply round_sig_int_small; unfold precision; lia.
Qed.

(** X13.  An injected deposit survives the round trip: for a human
    amount that is not negative, has at most 18 decimals and is below 100
    units, the injected row carries amount times 10^18 as its raw amount,
    and converting that raw amount at rate one gives the human amount
    back. *)
Theorem makeManualDepositRow_round_trip
  (id provider token amountDecimal blockNumber transactionHash : string) (d : Q) (n : Z) :
  new_Decimal amountDecimal = Some d ->
  (0 <= n < 10 ^ 20)%Z -> d * pow10 18 == inject_Z n ->
  exists row v,
    makeManualDepositRow id provider token amountDecimal blockNumber transactionHash
    = Normal row
    /\ amountRaw row = Some (pretty n)
    /\ computeAmountWETHFromRaw (amountRaw row) (Some "1.00000") = Normal (Some v)
    /\ v == d.
Proof.
  intros Hd Hn Hscaled.
  destruct (pretty_nonneg n (proj1 Hn)) as (Hdig & Hne & Hval).
  destruct (computeAmountWETHFromRaw_value (pretty n) "1.00000" (1 # 1) Hdig Hne
              ltac:(vm_compute; reflexivity)) as (v & Ev & Vv).
  assert (Hraw : round_half_up (Decimal_mul d (Decimal_pow (10 # 1) 18)) = n).
  { rewrite <- (round_half_up_int n). apply round_half_up_proper.
    unfold Decimal_mul. rewrite <- (round_sig_small_nat n Hn).
    apply round_sig_proper. rewrite Decimal_pow_10_18. exact Hscaled. }
  unfold makeManualDepositRow. rewrite Hd, Hraw.
  eexists _, v. split; [reflexivity|]. cbn [amountRaw]. split; [reflexivity|].
  split; [exact Ev|].
  rewrite Vv, Hval. rewrite fixed_18_exact.
  - unfold spec_convert. pose proof (pow10_pos 18) as P. rewrite <- Hscaled. field. lra.
  - unfold representable.
    assert (E : inject_Z n * (1 # 1) == inject_Z n) by ring.
    rewrite (round_sig_proper precision _ _ E), E. apply round_sig_small_nat, Hn.
Qed.


Lemma makeManualDepositRow_round_trip_witness :
  exists row v,
    makeManualDepositRow "manual-1" "0x750e9a7b449904f47b793b805db469fa6e025e33"
      WETH "4.99367" "39496719"
      "0x48d878e4b6669c34ef333d84e9d714d3db06047e3eeefe89ba7614237a70d2df"
    = Normal row
    /\ amountRaw row = Some (pretty 4993670000000000000%Z)
    /\ computeAmountWETHFromRaw (amountRaw row) (Some "1.00000"%string) = Normal (Some v)
    /\ v == 499367 # 100000.
Proof.
  apply (makeManualDepositRow_round_trip _ _ _ "4.99367"%string _ _ (499367 # 100000)
           4993670000000000000).
  - vm_compute. reflexivity.
  - lia.
  - vm_compute. reflexivity.
Defined.

End ManualRows.

(** ** What an id identifies *)

Section IdentityFacts.
Import Graph Schema Mapping.
Local Open Scope string_scope.

Lemma all_digits_no_dash (s : string) : all_digits s = true -> no_dash s = true.
Proof.
  induction s as [|c s IH]; [reflexivity|]. cbn [all_digits no_dash].
  intros Hd. apply andb_true_iff in Hd as [Hc Hs]. rewrite (IH Hs), andb_true_r.
  destruct c as [[] [] [] [] [] [] [] []]; try discriminate Hc; reflexivity.
Qed.

Lemma no_dash_pretty (n : Z) : (0 <= n)%Z -> no_dash (pretty n) = true.
Proof. intros Hn. apply all_digits_no_dash, (pretty_nonneg n Hn). Qed.

(** Two ids with dash-free heads and non-negative log indexes are equal
    only if head, log index and position are. *)
Lemma id_parts (p1 p2 : string) (l1 l2 i1 i2 : Z) :
  no_dash p1 = true -> no_dash p2 = true -> (0 <= l1)%Z -> (0 <= l2)%Z ->
  p1 ++ "-" ++ pretty l1 ++ "-" ++ pretty i1 = p2 ++ "-" ++ pretty l2 ++ "-" ++ pretty i2 ->
  p1 = p2 /\ l1 = l2 /\ i1 = i2.
Proof.
  intros N1 N2 H1 H2 E.
  apply split_at_dash in E as [-> E]; [|assumption..].
  apply split_at_dash in E as [El Ei]; [|apply no_dash_pretty; assumption..].
  split; [reflexivity|]. split; apply (inj pretty); assumption.
Qed.

Lemma hex_of_bytes_length (bs : Bytes) : String.length (hex_of_bytes bs) = (2 * length bs)%nat.
Proof.
  induction bs as [|b bs IH]; [reflexivity|].
  cbn [hex_of_bytes]. unfold byte_hex. rewrite !append_cons, append_nil.
  cbn [String.length length]. rewrite IH. lia.
Qed.

Lemma substring_hex (n : nat) (bs : Bytes) :
  substring 0 (2 * n) (hex_of_bytes bs) = hex_of_bytes (take n bs).
Proof.
  revert bs. induction n as [|n IH]; intros bs.
  - cbn. destruct (hex_of_bytes bs); reflexivity.
  - destruct bs as [|b bs]; [reflexivity|].
    replace (2 * S n)%nat with (S (S (2 * n))) by lia.
    cbn [hex_of_bytes take]. unfold byte_hex. rewrite !append_cons, !append_nil.
    cbn [substring]. rewrite IH. reflexivity.
Qed.

Lemma hex_of_bytes_inj (a b : Bytes) : hex_of_bytes a = hex_of_bytes b -> a = b.
Proof.
  intros E. apply (f_equal bytes_of_hex) in E.
  rewrite !bytes_of_hex_of_bytes in E. congruence.
Qed.

(** The head of a defensive id: the text of the first five bytes of the
    hash. *)
Lemma defensive_id_head (h : Bytes) :
  (5 <= length h)%nat ->
  (if (12 <? String.length (toHexString h))%nat then substr0 12 (toHexString h)
   else toHexString h) = toHexString (take 5 h).
Proof.
  intros Hh. unfold toHexString, substr0. rewrite !append_cons, !append_nil.
  cbn [String.length]. rewrite hex_of_bytes_length.
  destruct (Nat.ltb_spec 12 (S (S (2 * length h)))) as [Hlt|Hge].
  - cbn [substring]. f_equal. f_equal. apply (substring_hex 5).
  - rewrite take_ge by lia. reflexivity.
Qed.

(** X14.  What a Deposit or Withdrawal id identifies, for log indexes
    that are not negative: with the minimal helper two ids are equal exactly
    when transaction hash, log index and token position are; with the
    defensive helper exactly when the first five bytes of the hash, the log
    index and the position are, so rows of transactions that share those
    five bytes are stored under one id. *)
Theorem flow_ids_identify_rows (h1 h2 : Bytes) (l1 l2 i1 i2 : Z) :
  (0 <= l1)%Z -> (0 <= l2)%Z ->
  (HelpersMinimal.makePerTokenId (toHexString h1) l1 i1
   = HelpersMinimal.makePerTokenId (toHexString h2) l2 i2
   <-> h1 = h2 /\ l1 = l2 /\ i1 = i2)
  /\ ((5 <= length h1)%nat -> (5 <= length h2)%nat ->
      (Helpers.makePerTokenId (toHexString h1) l1 i1
       = Helpers.makePerTokenId (toHexString h2) l2 i2
       <-> take 5 h1 = take 5 h2 /\ l1 = l2 /\ i1 = i2)).
Proof.
  intros H1 H2. split.
  - unfold HelpersMinimal.makePerTokenId. split.
    + intros E. apply id_parts in E as (Eh & El & Ei);
        [|apply no_dash_toHexString..|assumption|assumption].
      apply toHexString_inj in Eh. auto.
    + intros (-> & -> & ->). reflexivity.
  - intros W1 W2. unfold Helpers.makePerTokenId.
    rewrite !defensive_id_head by assumption. split.
    + intros E. apply id_parts in E as (Eh & El & Ei);
        [|apply no_dash_toHexString..|assumption|assumption].
      apply toHexString_inj in Eh. auto.
    + intros (-> & -> & ->). reflexivity.
Qed.


Lemma flow_ids_identify_rows_witness :
  let h := transaction_hash (meta sampleDeposit) in
  (HelpersMinimal.makePerTokenId (toHexString h) 7 1
   = HelpersMinimal.makePerTokenId (toHexString h) 7 2
   <-> h = h /\ 7%Z = 7%Z /\ 1%Z = 2%Z)
  /\ ((5 <= length h)%nat -> (5 <= length h)%nat ->
      (Helpers.makePerTokenId (toHexString h) 7 1
       = Helpers.makePerTokenId (toHexString h) 7 2
       <-> take 5 h = take 5 h /\ 7%Z = 7%Z /\ 1%Z = 2%Z)).
Proof.
  cbv zeta. apply (flow_ids_identify_rows (transaction_hash (meta sampleDeposit))); lia.
Defined.

End IdentityFacts.

(** ** The two versions of [toDecimal] *)

Section DecimalsFacts.
Import Dec Graph.
Open Scope Q_scope.
Variable rnd : Q -> Q.
Hypothesis rnd_proper : forall x y : Q, x == y -> rnd x == rnd y.

(** X15.  The two versions of [toDecimal] agree on the decimals a token
    can have: for decimals from 1 to 255, on a host that keeps the powers of
    ten as they are, the power taken at once by the minimal version and the
    product built up by the defensive one divide the amount alike. *)
Theorem toDecimal_versions_agree (amount decimals : Z) :
  (0 < decimals < 256)%Z ->
  (forall k : Z, (0 <= k < 256)%Z -> rnd (pow10 k) == pow10 k) ->
  HelpersMinimal.toDecimal rnd amount decimals
  == Helpers.toDecimal rnd amount decimals.
Proof.
  intros Hd Hex. unfold HelpersMinimal.toDecimal.
  destruct (Z.leb_spec decimals 0) as [Hle|_]; [lia|].
  rewrite (toDecimal_value rnd rnd_proper amount decimals)
    by (try lia; intros k Hk; apply Hex; lia).
  unfold div, toBigDecimal. apply rnd_proper.
  rewrite pow10_inject by lia. reflexivity.
Qed.

End DecimalsFacts.

Lemma toDecimal_versions_agree_witness :
  (HelpersMinimal.toDecimal Graph.decimal128 4993670000000000000 18
   == Helpers.toDecimal Graph.decimal128 4993670000000000000 18)%Q.
Proof.
  apply (toDecimal_versions_agree Graph.decimal128
           (Graph.rnd_proper _ decimal128_rounding) 4993670000000000000 18).
  - lia.
  - intros k _. apply pow10_exact_decimal128.
Defined.

(** ** Updates of different users *)

Section UpdateFacts.
Import Graph Schema.
Local Open Scope string_scope.
Variable rnd : Q -> Q.

(** X16.  Aggregate updates of two different users commute: the store
    after both is the same in either order, with either version of the
    helper. *)
Theorem updates_of_distinct_users_commute
  (u1 u2 : string) (d1 w1 d2 w2 : Q) (b1 b2 : Z) (s : Store) :
  u1 <> u2 ->
  Helpers.updateUserAggregates rnd u1 d1 w1 b1
    (Helpers.updateUserAggregates rnd u2 d2 w2 b2 s)
  = Helpers.updateUserAggregates rnd u2 d2 w2 b2
      (Helpers.updateUserAggregates rnd u1 d1 w1 b1 s)
  /\ HelpersMinimal.updateUserAggregates rnd u1 d1 w1 b1
       (HelpersMinimal.updateUserAggregates rnd u2 d2 w2 b2 s)
     = HelpersMinimal.updateUserAggregates rnd u2 d2 w2 b2
         (HelpersMinimal.updateUserAggregates rnd u1 d1 w1 b1 s).
Proof.
  intros Hne. split.
  - unfold Helpers.updateUserAggregates, set_users. cbn [users pools oracleRates deposits withdrawals].
    rewrite !lookup_insert_ne by congruence. f_equal. apply insert_insert_ne. congruence.
  - unfold HelpersMinimal.updateUserAggregates, set_users. cbn [users pools oracleRates deposits withdrawals].
    rewrite !lookup_insert_ne by congruence. f_equal. apply insert_insert_ne. congruence.
Qed.

End UpdateFacts.

Lemma updates_of_distinct_users_commute_witness :
  Helpers.updateUserAggregates Graph.decimal128 "a" 1 0 7
    (Helpers.updateUserAggregates Graph.decimal128 "b" 0 2 8 Schema.emptyStore)
  = Helpers.updateUserAggregates Graph.decimal128 "b" 0 2 8
      (Helpers.updateUserAggregates Graph.decimal128 "a" 1 0 7 Schema.emptyStore)
  /\ HelpersMinimal.updateUserAggregates Graph.decimal128 "a" 1 0 7
       (HelpersMinimal.updateUserAggregates Graph.decimal128 "b" 0 2 8 Schema.emptyStore)
     = HelpersMinimal.updateUserAggregates Graph.decimal128 "b" 0 2 8
         (HelpersMinimal.updateUserAggregates Graph.decimal128 "a" 1 0 7 Schema.emptyStore).
Proof.
  apply (updates_of_distinct_users_commute Graph.decimal128 "a" "b"). discriminate.
Defined.

(** ** What a handler writes *)

Section HandlerFacts.
Import Graph Schema Mapping.
Local Open Scope string_scope.
Variable rnd : Q -> Q.

Lemma nested_processRow_writeRow H chain kind ev pool i a s :
  Mapping.processRow rnd H chain kind ev pool i a s
  = if (a =? 0)%Z then Ok s
    else writeRow rnd H chain (rateSource Nested H chain) kind ev (Some pool) i a s.
Proof. reflexivity. Qed.

Lemma flat_materialize_writeRow H chain kind ev pool i a s :
  MappingFlat.materialize rnd H chain kind ev pool i a s
  = writeRow rnd H chain (rateSource Flat H chain) kind ev pool i a s.
Proof. reflexivity. Qed.

Lemma minimal_disciplined : Disciplined (minimalHelpers rnd).
Proof.
  constructor.
  - intros chain poolAddr block s. split; [apply initPool_minimal_ledger|].
    intros other Hne. cbn. unfold HelpersMinimal.initPoolIfNeeded.
    destruct (pools s !! toHexString poolAddr); [reflexivity|].
    cbn. apply lookup_insert_ne. congruence.
  - intros. apply getOrCreateOracleRate_versions_agree.
  - intros userId dep wd bn s. cbn. repeat split.
    intros other Hne. apply lookup_insert_ne. congruence.
  - intros txHash logIndex i j E. cbn in E.
    unfold HelpersMinimal.makePerTokenId in E.
    repeat apply String.app_inj in E. apply (inj pretty), E.
Qed.

Lemma defensive_disciplined : Disciplined (defensiveHelpers rnd).
Proof.
  constructor.
  - intros chain poolAddr block s. split; [apply initPool_defensive_ledger|].
    intros other Hne. cbn. unfold Helpers.initPoolIfNeeded.
    destruct (length _ =? 0)%nat; [reflexivity|].
    destruct (negb _); [reflexivity|].
    cbn. apply lookup_insert_ne. congruence.
  - intros. reflexivity.
  - intros userId dep wd bn s. cbn. repeat split.
    intros other Hne. apply lookup_insert_ne. congruence.
  - intros txHash logIndex i j E. cbn in E.
    unfold Helpers.makePerTokenId in E.
    repeat apply String.app_inj in E. apply (inj pretty), E.
Qed.

Lemma fromString_toHexString (a : Address) (b : Address) :
  Address_fromString (toHexString a) = Ok b -> b = a /\ length a = 20%nat.
Proof.
  unfold Address_fromString. rewrite fromHexString_toHexString.
  unfold Address_fromBytes. destruct (Nat.eqb_spec (length a) 20); [|discriminate].
  intros [= <-]. auto.
Qed.

(** A row that is written: the rate record it uses, the flow it stores and
    the aggregate update it ends with. *)
Lemma writeRow_inv H chain rateOf kind ev pool i a s s' :
  Disciplined H ->
  writeRow rnd H chain rateOf kind ev pool i a s = Ok s' ->
  exists tokenAddr0 o s1,
    getTokenAddressFromPool H pool i = Ok tokenAddr0
    /\ length (params_provider ev) = 20%nat
    /\ Helpers.getOrCreateOracleRate (fallbackToken H tokenAddr0 i) (block ev)
         (rateOf (fallbackToken H tokenAddr0 i) (block ev)) "wrapper-call" s = (o, s1)
    /\ let tokenAddr := fallbackToken H tokenAddr0 i in
       let amountWETH :=
         times rnd (toDecimal H a (fetchTokenDecimals H chain tokenAddr)) (rateToETH o) in
       let id := makePerTokenId H (toHexString (transaction_hash ev)) (logIndex ev) i in
       let f := {| flow_id := id; Schema.provider := params_provider ev;
                   Schema.pool := toHexString (POOL_ADDRESS H);
                   token := tokenAddr; Schema.tokenIndex := i;
                   Schema.amountRaw := a; Schema.amountWETH := amountWETH;
                   rateToETHId := oracle_id o;
                   blockNumber := number (block ev);
                   blockTimestamp := timestamp (block ev);
                   transactionHash := transaction_hash ev |} in
       s' = updateUserAggregates H (toHexString (params_provider ev))
              (depositPart kind amountWETH) (withdrawalPart kind amountWETH)
              (number (block ev)) (setFlows kind (insert id f) s1).
Proof.
  intros D. unfold writeRow.
  destruct (getTokenAddressFromPool H pool i) as [tokenAddr0|]; [|discriminate].
  cbn [mbind outcome_bind obind]. rewrite (rate_helper H D).
  destruct (Helpers.getOrCreateOracleRate _ _ _ _ s) as [o s1] eqn:E.
  destruct (Address_fromString (toHexString (params_provider ev))) as [provider|] eqn:P;
    [|discriminate].
  apply fromString_toHexString in P as [-> Hw].
  cbn [mbind outcome_bind obind]. intros Hs'.
  exists tokenAddr0, o, s1. split; [reflexivity|]. split; [exact Hw|].
  split; [first [exact E|reflexivity]|]. cbv zeta.
  destruct kind; injection Hs' as <-; reflexivity.
Qed.

End HandlerFacts.

Section WriteFacts.
Import Graph Schema Mapping.
Local Open Scope string_scope.
Variable rnd : Q -> Q.
Variable H : HelpersModule.
Hypothesis D : Disciplined H.
Variable chain : Chain.
Variable rateOf : Address -> Block -> Q.
Variable kind : FlowKind.
Variable ev : EventMeta.
Variable pool : option Pool.

Lemma setFlows_fields f s :
  pools (setFlows kind f s) = pools s /\ users (setFlows kind f s) = users s
  /\ oracleRates (setFlows kind f s) = oracleRates s
  /\ otherFlows kind (setFlows kind f s) = otherFlows kind s
  /\ flowsOf kind (setFlows kind f s) = f (flowsOf kind s).
Proof. destruct kind; repeat split. Qed.

Lemma update_fields userId dep wd bn s :
  otherFlows kind (updateUserAggregates H userId dep wd bn s) = otherFlows kind s
  /\ flowsOf kind (updateUserAggregates H userId dep wd bn s) = flowsOf kind s.
Proof.
  destruct (update_frame H D userId dep wd bn s) as (_ & _ & Hd & Hw & _).
  destruct kind; cbn; auto.
Qed.

Lemma rate_fields tokenAddr block rate src s o s1 :
  Helpers.getOrCreateOracleRate tokenAddr block rate src s = (o, s1) ->
  pools s1 = pools s /\ users s1 = users s /\ deposits s1 = deposits s
  /\ withdrawals s1 = withdrawals s /\ oracleRates s ⊆ oracleRates s1
  /\ oracleRates s1 !! oracleRateId tokenAddr block = Some o.
Proof.
  intros E. destruct (oracleRates s !! oracleRateId tokenAddr block) as [x|] eqn:L.
  - rewrite (getOrCreateOracleRate_existing _ _ _ _ _ _ L) in E.
    injection E as <- <-. repeat split; [reflexivity|exact L].
  - rewrite (getOrCreateOracleRate_fresh _ _ _ _ _ L) in E.
    injection E as <- <-. cbn. repeat split.
    + apply insert_subseteq, L.
    + apply lookup_insert_eq.
Qed.

(** What one written row changes. *)
Lemma writeRow_frame i a s s' :
  writeRow rnd H chain rateOf kind ev pool i a s = Ok s' ->
  pools s' = pools s
  /\ otherFlows kind s' = otherFlows kind s
  /\ oracleRates s ⊆ oracleRates s'
  /\ (forall other, other <> toHexString (params_provider ev) ->
        users s' !! other = users s !! other)
  /\ (forall k, k <> rowId H ev i -> flowsOf kind s' !! k = flowsOf kind s !! k)
  /\ exists f o,
       flowsOf kind s' !! rowId H ev i = Some f
       /\ flow_id f = rowId H ev i /\ Schema.tokenIndex f = i /\ Schema.amountRaw f = a
       /\ Schema.provider f = params_provider ev
       /\ blockNumber f = number (block ev)
       /\ transactionHash f = transaction_hash ev
       /\ oracleRates s' !! oracleRateId (token f) (block ev) = Some o
       /\ rateToETHId f = oracle_id o
       /\ Schema.amountWETH f
          = times rnd (toDecimal H a (fetchTokenDecimals H chain (token f))) (rateToETH o)
       /\ exists tokenAddr0,
            getTokenAddressFromPool H pool i = Ok tokenAddr0
            /\ token f = fallbackToken H tokenAddr0 i.
Proof.
  intros W. destruct (writeRow_inv rnd H chain rateOf kind ev pool i a s s' D W)
    as (t0 & o & s1 & G & _ & E & ->). cbv zeta.
  destruct (rate_fields _ _ _ _ _ _ _ E) as (Rp & Ru & Rd & Rw & Rsub & Rkey).
  match goal with
  | |- context [updateUserAggregates H ?u ?d ?w ?b ?x] =>
      destruct (update_frame H D u d w b x) as (Up & Uo & Ud & Uw & Uu);
      destruct (update_fields u d w b x) as (Uother & Uflows);
      set (s2 := x) in *
  end.
  match goal with
  | s2 := setFlows kind ?g s1 |- _ =>
      destruct (setFlows_fields g s1) as (Fp & Fu & Fo & Fother & Fflows)
  end.
  fold s2 in Fp, Fu, Fo, Fother, Fflows.
  assert (Hother : otherFlows kind s1 = otherFlows kind s) by (destruct kind; assumption).
  assert (Hflows : flowsOf kind s1 = flowsOf kind s) by (destruct kind; assumption).
  split; [congruence|]. split; [congruence|].
  split; [rewrite Uo, Fo; exact Rsub|].
  split; [intros other Hne; rewrite (Uu other Hne), Fu, Ru; reflexivity|].
  split.
  { intros k Hk. rewrite Uflows, Fflows, Hflows. apply lookup_insert_ne.
    unfold rowId in Hk. congruence. }
  eexists _, o. rewrite Uflows, Fflows. split; [apply lookup_insert_eq|].
  cbn. do 6 (split; [reflexivity|]). split; [rewrite Uo, Fo; exact Rkey|].
  do 2 (split; [reflexivity|]). exists t0. split; [exact G|reflexivity].
Qed.

Lemma writtenIds_cons i a rest :
  writtenIds H ev ((i, a) :: rest)
  = if (a =? 0)%Z then writtenIds H ev rest else rowId H ev i :: writtenIds H ev rest.
Proof. unfold writtenIds. cbn [List.filter snd fst]. destruct (a =? 0)%Z; reflexivity. Qed.

(** What the rows of an event change, all together. *)
Lemma writeAll_frame rows s s' :
  writeAll rnd H chain rateOf kind ev pool rows s = Ok s' ->
  pools s' = pools s
  /\ otherFlows kind s' = otherFlows kind s
  /\ oracleRates s ⊆ oracleRates s'
  /\ (forall other, other <> toHexString (params_provider ev) ->
        users s' !! other = users s !! other)
  /\ (forall k, k ∉ writtenIds H ev rows -> flowsOf kind s' !! k = flowsOf kind s !! k).
Proof.
  revert s. induction rows as [|[i a] rest IH]; intros s W.
  - injection W as <-. repeat split. reflexivity.
  - cbn [writeAll] in W. rewrite writtenIds_cons.
    destruct (Z.eqb_spec a 0) as [->|Ha].
    + cbn [mbind outcome_bind obind] in W. apply IH, W.
    + destruct (writeRow rnd H chain rateOf kind ev pool i a s) as [s1|] eqn:R;
        [|discriminate W].
      cbn [mbind outcome_bind obind] in W.
      destruct (writeRow_frame i a s s1 R) as (P1 & O1 & S1 & U1 & K1 & f & o & F1 & _).
      destruct (IH s1 W) as (P2 & O2 & S2 & U2 & K2).
      split; [congruence|]. split; [congruence|].
      split; [etrans; eassumption|].
      split; [intros other Hne; rewrite (U2 other Hne); apply U1, Hne|].
      intros k Hk. apply not_elem_of_cons in Hk as [Hk1 Hk2].
      rewrite (K2 k Hk2). apply K1, Hk1.
Qed.

(** Every row that is not skipped is on record after the event. *)
Lemma writeAll_records rows s s' :
  NoDup (map fst rows) ->
  writeAll rnd H chain rateOf kind ev pool rows s = Ok s' ->
  forall i a, (i, a) ∈ rows -> a <> 0%Z ->
  exists f o,
    flowsOf kind s' !! rowId H ev i = Some f
    /\ flow_id f = rowId H ev i /\ Schema.tokenIndex f = i /\ Schema.amountRaw f = a
    /\ Schema.provider f = params_provider ev
    /\ blockNumber f = number (block ev)
    /\ transactionHash f = transaction_hash ev
    /\ oracleRates s' !! oracleRateId (token f) (block ev) = Some o
    /\ rateToETHId f = oracle_id o
    /\ Schema.amountWETH f
       = times rnd (toDecimal H a (fetchTokenDecimals H chain (token f))) (rateToETH o)
    /\ exists tokenAddr0,
         getTokenAddressFromPool H pool i = Ok tokenAddr0
         /\ token f = fallbackToken H tokenAddr0 i.
Proof.
  revert s. induction rows as [|[j b] rest IH]; intros s ND W i a Hin Ha.
  - apply elem_of_nil in Hin. contradiction.
  - cbn [map fst] in ND. apply NoDup_cons in ND as [Hj ND].
    cbn [writeAll] in W. apply elem_of_cons in Hin as [[= -> ->]|Hin].
    + destruct (Z.eqb_spec b 0) as [->|_]; [contradiction|].
      destruct (writeRow rnd H chain rateOf kind ev pool j b s) as [s1|] eqn:R;
        [|discriminate W].
      cbn [mbind outcome_bind obind] in W.
      destruct (writeRow_frame j b s s1 R)
        as (_ & _ & _ & _ & _ & f & o & F1 & A1 & A2 & A3 & A4 & A5 & A6 & A7 & A8 & A9 & A10).
      destruct (writeAll_frame rest s1 s' W) as (_ & _ & S2 & _ & K2).
      exists f, o. split.
      { rewrite K2; [exact F1|]. unfold writtenIds. intros Hk.
        apply list_elem_of_In, in_map_iff in Hk as ([j' b'] & Hid & Hk).
        apply filter_In in Hk as [Hk _]. cbn [fst] in Hid.
        apply (id_positions H D) in Hid. subst j'.
        apply Hj. apply list_elem_of_In, in_map_iff. exists (j, b'). auto. }
      repeat (split; [assumption|]). split; [|repeat split; assumption].
      eapply lookup_weaken; eassumption.
    + assert (W' : exists s1, writeAll rnd H chain rateOf kind ev pool rest s1 = Ok s').
      { destruct (b =? 0)%Z; [exists s; exact W|].
        destruct (writeRow rnd H chain rateOf kind ev pool j b s) as [s1|];
          [exists s1; exact W|discriminate W]. }
      destruct W' as [s1 W']. exact (IH s1 ND W' i a Hin Ha).
Qed.

End WriteFacts.

Section ShapeFacts.
Import Graph Schema Mapping.
Local Open Scope string_scope.
Variable rnd : Q -> Q.
Variable H : HelpersModule.
Hypothesis D : Disciplined H.
Variable chain : Chain.

Lemma nested_processAmounts_writeAll kind ev pool i amounts s :
  Mapping.processAmounts rnd H chain kind ev pool i amounts s
  = writeAll rnd H chain (rateSource Nested H chain) kind ev (Some pool)
      (indexedFrom i amounts) s.
Proof.
  revert i s. induction amounts as [|a rest IH]; intros i s; [reflexivity|].
  cbn [Mapping.processAmounts indexedFrom writeAll].
  rewrite nested_processRow_writeRow.
  destruct (if (a =? 0)%Z then Ok s else _) as [s1|]; [|reflexivity].
  cbn [mbind outcome_bind obind]. apply IH.
Qed.

Lemma flat_processAmounts_writeAll kind ev pool i amounts s :
  MappingFlat.processAmounts rnd H chain kind ev pool i amounts s
  = writeAll rnd H chain (rateSource Flat H chain) kind ev pool (indexedFrom i amounts) s.
Proof.
  revert i s. induction amounts as [|a rest IH]; intros i s; [reflexivity|].
  cbn [MappingFlat.processAmounts indexedFrom writeAll].
  unfold MappingFlat.processRow at 1. rewrite flat_materialize_writeRow.
  destruct (if (a =? 0)%Z then Ok s else _) as [s1|]; [|reflexivity].
  cbn [mbind outcome_bind obind]. apply IH.
Qed.

Lemma toI32_Ok v w : toI32 v = Ok w -> w = wrap32 v.
Proof. unfold toI32. destruct (_ && _); [intros [= <-]; reflexivity|discriminate]. Qed.

(** The pool load of the nested layout: the store it leaves differs from
    the one it found in the Pool of the pool address only. *)
Lemma loadPool_shape ev s :
  let r := loadPool H chain ev s in
  sameLedger s (fst r)
  /\ (forall other, other <> toHexString (POOL_ADDRESS H) ->
        pools (fst r) !! other = pools s !! other)
  /\ snd r = pools (fst r) !! toHexString (POOL_ADDRESS H).
Proof.
  cbv zeta. unfold loadPool.
  destruct (init_frame H D chain (POOL_ADDRESS H) (block ev) s) as [L1 P1].
  destruct (pools (initPoolIfNeeded H chain (POOL_ADDRESS H) (block ev) s)
              !! toHexString (POOL_ADDRESS H)) as [p|] eqn:E; cbn [fst snd].
  - split; [exact L1|]. split; [exact P1|]. symmetry. exact E.
  - destruct (init_frame H D chain (POOL_ADDRESS H) (block ev)
                (initPoolIfNeeded H chain (POOL_ADDRESS H) (block ev) s)) as [L2 P2].
    split; [eapply sameLedger_trans; eassumption|]. split; [|reflexivity].
    intros other Hne. rewrite (P2 other Hne). apply P1, Hne.
Qed.

(** Every handler is: the pool load, then the rows of the event in order;
    the nested layout stops after the pool load when no Pool is stored.  The
    store after the pool load is the one after one or two pool
    initialisations. *)
Lemma handle_shape layout ev s s' :
  handle layout rnd H chain ev s = Ok s' ->
  exists s1,
    (let init := initPoolIfNeeded H chain (POOL_ADDRESS H) (block (eventMeta ev)) in
     s1 = init s \/ s1 = init (init s))
    /\ sameLedger s s1
    /\ (forall other, other <> toHexString (POOL_ADDRESS H) ->
          pools s1 !! other = pools s !! other)
    /\ ((layout = Nested /\ pools s1 !! toHexString (POOL_ADDRESS H) = None /\ s' = s1)
        \/ ((layout = Nested -> pools s1 !! toHexString (POOL_ADDRESS H) <> None)
            /\ writeAll rnd H chain (rateSource layout H chain) (eventKind ev)
                 (eventMeta ev) (pools s1 !! toHexString (POOL_ADDRESS H))
                 (eventRows ev) s1 = Ok s')).
Proof.
  destruct layout.
  - (* nested *)
    assert (Hload : forall m, exists s1 pool,
               loadPool H chain m s = (s1, pool)
               /\ (let init := initPoolIfNeeded H chain (POOL_ADDRESS H) (block m) in
                   s1 = init s \/ s1 = init (init s))
               /\ sameLedger s s1
               /\ (forall other, other <> toHexString (POOL_ADDRESS H) ->
                     pools s1 !! other = pools s !! other)
               /\ pool = pools s1 !! toHexString (POOL_ADDRESS H)).
    { intros m. destruct (loadPool_shape m s) as (A & B & C).
      assert (O : let init := initPoolIfNeeded H chain (POOL_ADDRESS H) (block m) in
                  fst (loadPool H chain m s) = init s
                  \/ fst (loadPool H chain m s) = init (init s)).
      { cbv zeta. unfold loadPool.
        destruct (pools (initPoolIfNeeded H chain (POOL_ADDRESS H) (block m) s)
                    !! toHexString (POOL_ADDRESS H)); cbn [fst]; auto. }
      destruct (loadPool H chain m s) as [s1 pool]. exists s1, pool. auto. }
    destruct ev as [e|e|e]; cbn [handle eventKind eventMeta eventRows].
    + unfold Mapping.handleAddLiquidity.
      destruct (Hload (meta e)) as (s1 & pool & -> & O & L & P & Hp).
      intros W. exists s1. split; [exact O|]. split; [exact L|]. split; [exact P|].
      destruct pool as [p|].
      * right. rewrite <- Hp. split; [discriminate|].
        rewrite <- nested_processAmounts_writeAll. exact W.
      * left. injection W as <-. auto.
    + unfold Mapping.handleRemoveLiquidity.
      destruct (Hload (meta e)) as (s1 & pool & -> & O & L & P & Hp).
      intros W. exists s1. split; [exact O|]. split; [exact L|]. split; [exact P|].
      destruct pool as [p|].
      * right. rewrite <- Hp. split; [discriminate|].
        rewrite <- nested_processAmounts_writeAll. exact W.
      * left. injection W as <-. auto.
    + unfold Mapping.handleRemoveLiquidityOne.
      destruct (Hload (one_meta e)) as (s1 & pool & -> & O & L & P & Hp).
      intros W. exists s1. split; [exact O|]. split; [exact L|]. split; [exact P|].
      destruct pool as [p|].
      * right. rewrite <- Hp. split; [discriminate|].
        destruct (toI32 (token_id e)) as [i|] eqn:T; [|discriminate W].
        apply toI32_Ok in T. subst i. cbn [mbind outcome_bind obind] in W.
        rewrite nested_processRow_writeRow in W. cbn [writeAll].
        destruct (if (token_amount e =? 0)%Z then Ok s1 else _) as [s2|];
          [|discriminate W].
        exact W.
      * left. injection W as <-. auto.
  - (* flat *)
    destruct ev as [e|e|e]; cbn [handle eventKind eventMeta eventRows].
    + unfold MappingFlat.handleAddLiquidity. intros W.
      destruct (init_frame H D chain (POOL_ADDRESS H) (block (meta e)) s) as [L P].
      eexists. split; [left; reflexivity|].
      split; [exact L|]. split; [exact P|]. right. split; [discriminate|].
      rewrite <- flat_processAmounts_writeAll. exact W.
    + unfold MappingFlat.handleRemoveLiquidity. intros W.
      destruct (init_frame H D chain (POOL_ADDRESS H) (block (meta e)) s) as [L P].
      eexists. split; [left; reflexivity|].
      split; [exact L|]. split; [exact P|]. right. split; [discriminate|].
      rewrite <- flat_processAmounts_writeAll. exact W.
    + unfold MappingFlat.handleRemoveLiquidityOne. intros W.
      destruct (init_frame H D chain (POOL_ADDRESS H) (block (one_meta e)) s) as [L P].
      eexists. split; [left; reflexivity|].
      split; [exact L|]. split; [exact P|]. right. split; [discriminate|].
      destruct (toI32 (token_id e)) as [i|] eqn:T; [|discriminate W].
      apply toI32_Ok in T. subst i. cbn [mbind outcome_bind obind] in W.
      cbn [writeAll]. rewrite <- flat_materialize_writeRow.
      destruct (token_amount e =? 0)%Z; [exact W|].
      destruct (MappingFlat.materialize _ _ _ _ _ _ _ _ _) as [s2|]; [|discriminate W].
      exact W.
Qed.

End ShapeFacts.

Section HandlerTheorems.
Import Graph Schema Mapping.
Local Open Scope string_scope.
Variable rnd : Q -> Q.

Lemma either_disciplined (H : HelpersModule) :
  H = minimalHelpers rnd \/ H = defensiveHelpers rnd -> Disciplined H.
Proof. intros [-> | ->]; [apply minimal_disciplined|apply defensive_disciplined]. Qed.

(** X17.  What a handler may write, in either layout and with either
    version of the helpers: flows of its own kind under the ids of its
    non-zero rows (for RemoveLiquidityOne, the id of the token id as [toI32]
    reads it), new rates, the aggregate of the event's provider and the
    Pool of the pool address.  Flows of the other kind, flows under other
    ids, rates already stored, other users and other pools are left as they
    are. *)
Theorem handler_writes_only_its_own (layout : Layout) (H : HelpersModule) (chain : Chain)
  (ev : PoolEvent) (s s' : Store) :
  H = minimalHelpers rnd \/ H = defensiveHelpers rnd ->
  handle layout rnd H chain ev s = Ok s' ->
  otherFlows (eventKind ev) s' = otherFlows (eventKind ev) s
  /\ (forall k, k ∉ writtenIds H (eventMeta ev) (eventRows ev) ->
        flowsOf (eventKind ev) s' !! k = flowsOf (eventKind ev) s !! k)
  /\ oracleRates s ⊆ oracleRates s'
  /\ (forall other, other <> toHexString (params_provider (eventMeta ev)) ->
        users s' !! other = users s !! other)
  /\ (forall other, other <> toHexString (POOL_ADDRESS H) ->
        pools s' !! other = pools s !! other).
Proof.
  intros HH W. pose proof (either_disciplined H HH) as D.
  destruct (handle_shape rnd H D chain layout ev s s' W)
    as (s1 & _ & (Ld & Lw & Lu & Lo) & P & [(_ & _ & ->)|[_ W1]]).
  - split; [destruct (eventKind ev); assumption|].
    split; [intros k _; destruct (eventKind ev); cbn; congruence|].
    split; [rewrite Lo; reflexivity|]. split; [intros other _; congruence|exact P].
  - destruct (writeAll_frame rnd H D chain _ _ _ _ _ _ _ W1)
      as (P1 & O1 & S1 & U1 & K1).
    split; [rewrite O1; destruct (eventKind ev); assumption|].
    split; [intros k Hk; rewrite (K1 k Hk); destruct (eventKind ev); cbn; congruence|].
    split; [rewrite <- Lo; exact S1|].
    split; [intros other Hne; rewrite (U1 other Hne); congruence|].
    intros other Hne. rewrite P1. apply P, Hne.
Qed.

Lemma indexedFrom_fst (i : Z) (amounts : list Z) :
  map fst (indexedFrom i amounts) = map (fun k => (i + Z.of_nat k)%Z) (seq 0 (length amounts)).
Proof.
  revert i. induction amounts as [|a rest IH]; intros i; [reflexivity|].
  cbn [indexedFrom map fst length seq]. rewrite IH, Z.add_0_r. f_equal.
  rewrite <- seq_shift, map_map. apply map_ext. intros k. lia.
Qed.

Lemma eventRows_NoDup (ev : PoolEvent) : NoDup (map fst (eventRows ev)).
Proof.
  assert (Hidx : forall amounts, NoDup (map fst (indexedFrom 0 amounts))).
  { intros amounts. rewrite indexedFrom_fst.
    apply NoDup_fmap_2; [intros x y E; lia|apply NoDup_seq]. }
  destruct ev as [e|e|e]; cbn [eventRows]; try apply Hidx.
  cbn. apply NoDup_singleton.
Qed.

(** X18.  Every non-zero row of an event is on record after its handler
    returns (in the nested layout: when a Pool is on record): under the id
    of its position (for RemoveLiquidityOne, the token id as [toI32] reads
    it) there is a flow with the row's position and raw amount,
    the event's provider, block and transaction, the token that the pool
    lookup and the positional fallback resolve, and an amount that is the
    converted raw amount times the rate stored for that token and block. *)
Theorem handler_records_each_row (layout : Layout) (H : HelpersModule) (chain : Chain)
  (ev : PoolEvent) (s s' : Store) :
  H = minimalHelpers rnd \/ H = defensiveHelpers rnd ->
  handle layout rnd H chain ev s = Ok s' ->
  (layout = Nested -> pools s' !! toHexString (POOL_ADDRESS H) <> None) ->
  forall i a, (i, a) ∈ eventRows ev -> a <> 0%Z ->
  exists f o,
    flowsOf (eventKind ev) s' !! rowId H (eventMeta ev) i = Some f
    /\ flow_id f = rowId H (eventMeta ev) i
    /\ Schema.tokenIndex f = i /\ Schema.amountRaw f = a
    /\ Schema.provider f = params_provider (eventMeta ev)
    /\ blockNumber f = number (block (eventMeta ev))
    /\ transactionHash f = transaction_hash (eventMeta ev)
    /\ oracleRates s' !! oracleRateId (token f) (block (eventMeta ev)) = Some o
    /\ rateToETHId f = oracle_id o
    /\ Schema.amountWETH f
       = times rnd (toDecimal H a (fetchTokenDecimals H chain (token f))) (rateToETH o)
    /\ exists tokenAddr0,
         getTokenAddressFromPool H (pools s' !! toHexString (POOL_ADDRESS H)) i
         = Ok tokenAddr0
         /\ token f = fallbackToken H tokenAddr0 i.
Proof.
  intros HH W Hpool i a Hin Ha. pose proof (either_disciplined H HH) as D.
  destruct (handle_shape rnd H D chain layout ev s s' W)
    as (s1 & _ & _ & _ & [(-> & Hnone & ->)|[_ W1]]).
  - destruct (Hpool eq_refl Hnone).
  - destruct (writeAll_frame rnd H D chain _ _ _ _ _ _ _ W1) as (-> & _).
    exact (writeAll_records rnd H D chain _ _ _ _ _ _ _ (eventRows_NoDup ev) W1 i a Hin Ha).
Qed.

End HandlerTheorems.
Section NoAbort.
Import Graph Schema Mapping.
Local Open Scope string_scope.
Variable rnd : Q -> Q.

Lemma fromString_of_address (a : Address) :
  length a = 20%nat -> Address_fromString (toHexString a) = Ok a.
Proof.
  intros Hw. unfold Address_fromString. rewrite fromHexString_toHexString.
  unfold Address_fromBytes. rewrite Hw. reflexivity.
Qed.

Lemma writeRow_defensive_completes chain rateOf kind ev pool i a s :
  length (params_provider ev) = 20%nat ->
  (forall p, pool = Some p -> exists ts, typedPool p ts) ->
  exists s', writeRow rnd (defensiveHelpers rnd) chain rateOf kind ev pool i a s = Ok s'.
Proof.
  intros Hw Hp. unfold writeRow.
  change (getTokenAddressFromPool (defensiveHelpers rnd))
    with Helpers.getTokenAddressFromPool.
  destruct (getTokenAddressFromPool_typed pool i Hp) as (t0 & -> & _).
  cbn [mbind outcome_bind obind].
  destruct (getOrCreateOracleRate _ _ _ _ _ _) as [o s1].
  rewrite (fromString_of_address _ Hw). cbn [mbind outcome_bind obind].
  destruct kind; eexists; reflexivity.
Qed.

Lemma writeAll_defensive_completes chain rateOf kind ev pool rows s :
  length (params_provider ev) = 20%nat ->
  (forall p, pool = Some p -> exists ts, typedPool p ts) ->
  exists s', writeAll rnd (defensiveHelpers rnd) chain rateOf kind ev pool rows s = Ok s'.
Proof.
  intros Hw Hp. revert s. induction rows as [|[i a] rest IH]; intros s.
  - eexists; reflexivity.
  - cbn [writeAll]. destruct (a =? 0)%Z.
    + cbn [mbind outcome_bind obind]. apply IH.
    + destruct (writeRow_defensive_completes chain rateOf kind ev pool i a s Hw Hp)
        as [s1 ->].
      cbn [mbind outcome_bind obind]. apply IH.
Qed.

Lemma poolReadable_pools (s s' : Store) :
  pools s' = pools s -> poolReadable s -> poolReadable s'.
Proof. intros E Hs p. rewrite E. apply Hs. Qed.

(** Discovery stores a typed Pool or leaves the store as it is. *)
Lemma initPool_defensive_readable chain block maxIndex s :
  poolReadable s ->
  poolReadable (Helpers.initPoolIfNeeded chain Helpers.POOL_ADDRESS block maxIndex s).
Proof.
  intros Hs. unfold Helpers.initPoolIfNeeded.
  destruct (length _ =? 0)%nat; [exact Hs|].
  unfold Helpers.FORCE_OVERWRITE. cbn [negb].
  intros p Hp. cbn [pools set_pools] in Hp. rewrite lookup_insert_eq in Hp.
  injection Hp as <-. eexists. reflexivity.
Qed.

Lemma toI32_admissible (v : Z) :
  (- 2 ^ 32 <= v < 2 ^ 32)%Z -> toI32 v = Ok (wrap32 v).
Proof.
  intros [A B]. unfold toI32.
  apply Z.leb_le in A. apply Z.ltb_lt in B. rewrite A, B. reflexivity.
Qed.

Lemma handle_defensive_completes chain layout ev s :
  admissible ev -> poolReadable s ->
  exists s', handle layout rnd (defensiveHelpers rnd) chain ev s = Ok s' /\ poolReadable s'.
Proof.
  intros [Hw Hid] Hs.
  assert (Hinit : forall m,
             poolReadable (initPoolIfNeeded (defensiveHelpers rnd) chain
                             (POOL_ADDRESS (defensiveHelpers rnd)) (block m) s)
             /\ poolReadable
                  (initPoolIfNeeded (defensiveHelpers rnd) chain
                     (POOL_ADDRESS (defensiveHelpers rnd)) (block m)
                     (initPoolIfNeeded (defensiveHelpers rnd) chain
                        (POOL_ADDRESS (defensiveHelpers rnd)) (block m) s))).
  { intros m. cbn [initPoolIfNeeded POOL_ADDRESS defensiveHelpers].
    split; repeat apply initPool_defensive_readable; exact Hs. }
  assert (Hex : exists s', handle layout rnd (defensiveHelpers rnd) chain ev s = Ok s').
  { assert (Hload : forall m, exists s1 pool,
               loadPool (defensiveHelpers rnd) chain m s = (s1, pool)
               /\ forall p, pool = Some p -> exists ts, typedPool p ts).
    { intros m. destruct (Hinit m) as [R1 R2]. unfold loadPool.
      destruct (pools (initPoolIfNeeded (defensiveHelpers rnd) chain
                         (POOL_ADDRESS (defensiveHelpers rnd)) (block m) s)
                  !! toHexString (POOL_ADDRESS (defensiveHelpers rnd))) as [p|] eqn:E.
      - eexists _, _. split; [reflexivity|]. intros p' [= <-]. exact (R1 p E).
      - eexists _, _. split; [reflexivity|]. intros p' Hp'. exact (R2 p' Hp'). }
    destruct layout, ev as [e|e|e]; cbn [handle eventMeta] in *.
    - unfold Mapping.handleAddLiquidity.
      destruct (Hload (meta e)) as (s1 & [p|] & -> & Hp).
      + rewrite nested_processAmounts_writeAll.
        apply writeAll_defensive_completes; assumption.
      + eexists; reflexivity.
    - unfold Mapping.handleRemoveLiquidity.
      destruct (Hload (meta e)) as (s1 & [p|] & -> & Hp).
      + rewrite nested_processAmounts_writeAll.
        apply writeAll_defensive_completes; assumption.
      + eexists; reflexivity.
    - unfold Mapping.handleRemoveLiquidityOne.
      destruct (Hload (one_meta e)) as (s1 & [p|] & -> & Hp).
      + rewrite (toI32_admissible _ Hid). cbn [mbind outcome_bind obind].
        rewrite nested_processRow_writeRow. destruct (_ =? 0)%Z; [eexists; reflexivity|].
        apply writeRow_defensive_completes; assumption.
      + eexists; reflexivity.
    - unfold MappingFlat.handleAddLiquidity.
      rewrite flat_processAmounts_writeAll.
      apply writeAll_defensive_completes; [exact Hw|].
      intros p Hp. exact (proj1 (Hinit (meta e)) p Hp).
    - unfold MappingFlat.handleRemoveLiquidity.
      rewrite flat_processAmounts_writeAll.
      apply writeAll_defensive_completes; [exact Hw|].
      intros p Hp. exact (proj1 (Hinit (meta e)) p Hp).
    - unfold MappingFlat.handleRemoveLiquidityOne.
      rewrite (toI32_admissible _ Hid). cbn [mbind outcome_bind obind].
      destruct (_ =? 0)%Z; [eexists; reflexivity|].
      rewrite flat_materialize_writeRow.
      apply writeRow_defensive_completes; [exact Hw|].
      intros p Hp. exact (proj1 (Hinit (one_meta e)) p Hp). }
  destruct Hex as [s' W]. exists s'. split; [exact W|].
  destruct (handle_shape rnd _ (defensive_disciplined rnd) chain layout ev s s' W)
    as (s1 & O & _ & _ & [(_ & _ & ->)|[_ W1]]).
  - destruct (Hinit (eventMeta ev)) as [R1 R2]. destruct O as [-> | ->]; assumption.
  - destruct (writeAll_frame rnd _ (defensive_disciplined rnd) chain _ _ _ _ _ _ _ W1)
      as (P1 & _).
    apply (poolReadable_pools s1 s' P1).
    destruct (Hinit (eventMeta ev)) as [R1 R2]. destruct O as [-> | ->]; assumption.
Qed.

(** X19.  With the defensive helpers the subgraph never stops: from a
    store whose Pool, if any, is one the entity type admits, every sequence
    of events whose providers are 20-byte addresses (and whose token ids, for
    RemoveLiquidityOne, are within [-2^32, 2^32)) is indexed to the end by the
    handlers of either layout, whatever the chain answers, and the Pool on
    record stays one the entity type admits. *)
Theorem defensive_handlers_never_abort (layout : Layout)
  (events : list (Chain * PoolEvent)) (s : Store) :
  poolReadable s ->
  Forall (fun ce => admissible (snd ce)) events ->
  exists s', index layout rnd (defensiveHelpers rnd) events s = Ok s' /\ poolReadable s'.
Proof.
  intros Hs Hev. revert s Hs.
  induction Hev as [|[chain ev] rest Hadm _ IH]; intros s Hs.
  - exists s. split; [reflexivity|exact Hs].
  - cbn [index]. cbn [snd] in Hadm.
    destruct (handle_defensive_completes chain layout ev s Hadm Hs) as (s1 & -> & Hs1).
    cbn [mbind outcome_bind obind]. apply IH, Hs1.
Qed.

End NoAbort.

Section Integrity.
Import Graph Schema Mapping.
Local Open Scope string_scope.
Variable rnd : Q -> Q.
Variable H : HelpersModule.
Hypothesis D : Disciplined H.

Lemma writeRow_wellReferenced chain rateOf kind ev pool i a s s' :
  wellReferenced s ->
  writeRow rnd H chain rateOf kind ev pool i a s = Ok s' -> wellReferenced s'.
Proof.
  intros [Hkeys Hflows] W.
  destruct (writeRow_inv rnd H chain rateOf kind ev pool i a s s' D W)
    as (t0 & o & s1 & _ & _ & E & Hs').
  destruct (writeRow_frame rnd H D chain rateOf kind ev pool i a s s' W)
    as (_ & Oth & Sub & _ & K & f & o' & F & Fid & _ & _ & _ & _ & _ & Ho' & Fr & _).
  cbv zeta in Hs'.
  destruct (update_frame H D (toHexString (params_provider ev))
              (depositPart kind
                 (times rnd (toDecimal H a (fetchTokenDecimals H chain (fallbackToken H t0 i)))
                    (rateToETH o)))
              (withdrawalPart kind
                 (times rnd (toDecimal H a (fetchTokenDecimals H chain (fallbackToken H t0 i)))
                    (rateToETH o)))
              (number (block ev))
              (setFlows kind
                 (insert (makePerTokenId H (toHexString (transaction_hash ev)) (logIndex ev) i)
                    {| flow_id := makePerTokenId H (toHexString (transaction_hash ev))
                                    (logIndex ev) i;
                       Schema.provider := params_provider ev;
                       Schema.pool := toHexString (POOL_ADDRESS H);
                       token := fallbackToken H t0 i; Schema.tokenIndex := i;
                       Schema.amountRaw := a;
                       Schema.amountWETH :=
                         times rnd
                           (toDecimal H a (fetchTokenDecimals H chain (fallbackToken H t0 i)))
                           (rateToETH o);
                       rateToETHId := oracle_id o;
                       blockNumber := number (block ev);
                       blockTimestamp := timestamp (block ev);
                       transactionHash := transaction_hash ev |}) s1))
    as (_ & Uo & _ & _ & _).
  rewrite <- Hs' in Uo.
  assert (Ho : oracleRates s' = oracleRates s1).
  { rewrite Uo. destruct kind; reflexivity. }
  assert (Hkeys' : forall k x, oracleRates s' !! k = Some x -> oracle_id x = k).
  { intros k x. rewrite Ho.
    destruct (oracleRates s !! oracleRateId (fallbackToken H t0 i) (block ev))
      as [y|] eqn:L.
    - rewrite (getOrCreateOracleRate_existing _ _ _ _ _ _ L) in E.
      injection E as <- <-. apply Hkeys.
    - rewrite (getOrCreateOracleRate_fresh _ _ _ _ _ L) in E.
      injection E as <- <-. cbn.
      destruct (decide (k = oracleRateId (fallbackToken H t0 i) (block ev))) as [->|Hne].
      + rewrite lookup_insert_eq. intros [= <-]. reflexivity.
      + rewrite lookup_insert_ne by congruence. apply Hkeys. }
  split; [exact Hkeys'|].
  intros kind' id g Hg.
  assert (Hold : forall g', flowsOf kind' s !! id = Some g' ->
                   flow_id g' = id /\ is_Some (oracleRates s' !! rateToETHId g')).
  { intros g' Hg'. destruct (Hflows kind' id g' Hg') as [A [x Hx]].
    split; [exact A|]. exists x. eapply lookup_weaken; eassumption. }
  assert (kind' = kind \/ kind' <> kind) as [->|Hk]
    by (destruct kind, kind'; auto; right; discriminate).
  - destruct (decide (id = rowId H ev i)) as [->|Hne].
    + rewrite F in Hg. injection Hg as <-. split; [exact Fid|].
      exists o'. rewrite Fr, (Hkeys' _ _ Ho'). exact Ho'.
    + rewrite (K id Hne) in Hg. apply Hold, Hg.
  - assert (E2 : flowsOf kind' s' = flowsOf kind' s).
    { destruct kind, kind'; try congruence; exact Oth. }
    rewrite E2 in Hg. apply Hold, Hg.
Qed.

Lemma writeAll_wellReferenced chain rateOf kind ev pool rows s s' :
  wellReferenced s ->
  writeAll rnd H chain rateOf kind ev pool rows s = Ok s' -> wellReferenced s'.
Proof.
  revert s. induction rows as [|[i a] rest IH]; intros s Hs W.
  - injection W as <-. exact Hs.
  - cbn [writeAll] in W. destruct (a =? 0)%Z.
    + exact (IH s Hs W).
    + destruct (writeRow rnd H chain rateOf kind ev pool i a s) as [s1|] eqn:R;
        [|discriminate W].
      exact (IH s1 (writeRow_wellReferenced _ _ _ _ _ _ _ _ _ Hs R) W).
Qed.

Lemma sameLedger_wellReferenced s s1 :
  sameLedger s s1 -> wellReferenced s -> wellReferenced s1.
Proof.
  intros (Ld & Lw & _ & Lo) [Hkeys Hflows]. split.
  - intros k o. rewrite Lo. apply Hkeys.
  - intros kind id f Hf. rewrite Lo. apply (Hflows kind id f).
    destruct kind; cbn in *; congruence.
Qed.

Lemma handle_wellReferenced layout chain ev s s' :
  wellReferenced s -> handle layout rnd H chain ev s = Ok s' -> wellReferenced s'.
Proof.
  intros Hs W.
  destruct (handle_shape rnd H D chain layout ev s s' W)
    as (s1 & _ & L & _ & [(_ & _ & ->)|[_ W1]]).
  - exact (sameLedger_wellReferenced s s1 L Hs).
  - exact (writeAll_wellReferenced _ _ _ _ _ _ _ _
             (sameLedger_wellReferenced s s1 L Hs) W1).
Qed.

Lemma index_wellReferenced layout events s s' :
  wellReferenced s -> index layout rnd H events s = Ok s' -> wellReferenced s'.
Proof.
  revert s. induction events as [|[chain ev] rest IH]; intros s Hs W.
  - injection W as <-. exact Hs.
  - cbn [index] in W.
    destruct (handle layout rnd H chain ev s) as [s1|] eqn:E; [|discriminate W].
    exact (IH s1 (handle_wellReferenced _ _ _ _ _ Hs E) W).
Qed.

End Integrity.

Section Accounts.
Import Graph Schema Mapping.
Open Scope Q_scope.
Variable rnd : Q -> Q.
Hypothesis rounding : Rounding rnd.

Lemma accountsKept_same_users s s' : users s' = users s -> accountsKept rnd s s'.
Proof.
  intros E. unfold accountsKept, normalisedTotals, netConsistent, depositedOf, withdrawnOf.
  rewrite E. split; [auto|]. split; [auto|]. intros _ user. split; apply Qle_refl.
Qed.

Lemma accountsKept_trans s1 s2 s3 :
  accountsKept rnd s1 s2 -> accountsKept rnd s2 s3 -> accountsKept rnd s1 s3.
Proof.
  intros (N1 & C1 & M1) (N2 & C2 & M2).
  split; [auto|]. split; [auto|]. intros Hn user.
  destruct (M1 Hn user), (M2 (N1 Hn) user). split; eapply Qle_trans; eassumption.
Qed.

Lemma accountsKept_update userId dep wd bn s :
  accountsKept rnd s (Helpers.updateUserAggregates rnd userId dep wd bn s).
Proof.
  split; [apply defensive_step_normalised, rounding|]. split.
  - intros Hc user u Hu. destruct (decide (user = userId)) as [->|Hne].
    + destruct (updated_user_defensive rnd userId dep wd bn s) as (u' & Hu' & _ & _ & Hn & _).
      rewrite Hu' in Hu. injection Hu as <-. exact Hn.
    + rewrite (other_users_defensive rnd userId dep wd bn s user Hne) in Hu.
      apply (Hc user u Hu).
  - intros Hn user. apply (defensive_step_monotone rnd rounding userId dep wd bn s user Hn).
Qed.

Lemma writeRow_accounts chain rateOf kind ev pool i a s s' :
  writeRow rnd (defensiveHelpers rnd) chain rateOf kind ev pool i a s = Ok s' ->
  accountsKept rnd s s'.
Proof.
  intros W.
  destruct (writeRow_inv rnd _ chain rateOf kind ev pool i a s s'
              (defensive_disciplined rnd) W) as (t0 & o & s1 & _ & _ & E & ->).
  cbv zeta. change (updateUserAggregates (defensiveHelpers rnd))
    with (Helpers.updateUserAggregates rnd).
  eapply accountsKept_trans; [|apply accountsKept_update].
  apply accountsKept_same_users.
  destruct (oracleRates s !! oracleRateId (fallbackToken (defensiveHelpers rnd) t0 i) (block ev))
    as [y|] eqn:L.
  - rewrite (getOrCreateOracleRate_existing _ _ _ _ _ _ L) in E.
    injection E as <- <-. destruct kind; reflexivity.
  - rewrite (getOrCreateOracleRate_fresh _ _ _ _ _ L) in E.
    injection E as <- <-. destruct kind; reflexivity.
Qed.

Lemma writeAll_accounts chain rateOf kind ev pool rows s s' :
  writeAll rnd (defensiveHelpers rnd) chain rateOf kind ev pool rows s = Ok s' ->
  accountsKept rnd s s'.
Proof.
  revert s. induction rows as [|[i a] rest IH]; intros s W.
  - injection W as <-. apply accountsKept_same_users. reflexivity.
  - cbn [writeAll] in W. destruct (a =? 0)%Z.
    + exact (IH s W).
    + destruct (writeRow rnd _ chain rateOf kind ev pool i a s) as [s1|] eqn:R;
        [|discriminate W].
      eapply accountsKept_trans; [exact (writeRow_accounts _ _ _ _ _ _ _ _ _ R)|].
      exact (IH s1 W).
Qed.

Lemma handle_accounts layout chain ev s s' :
  handle layout rnd (defensiveHelpers rnd) chain ev s = Ok s' -> accountsKept rnd s s'.
Proof.
  intros W.
  destruct (handle_shape rnd _ (defensive_disciplined rnd) chain layout ev s s' W)
    as (s1 & _ & (_ & _ & Lu & _) & _ & [(_ & _ & ->)|[_ W1]]).
  - apply accountsKept_same_users, Lu.
  - eapply accountsKept_trans; [apply accountsKept_same_users, Lu|].
    exact (writeAll_accounts _ _ _ _ _ _ _ _ W1).
Qed.

Lemma index_accounts layout events s s' :
  index layout rnd (defensiveHelpers rnd) events s = Ok s' -> accountsKept rnd s s'.
Proof.
  revert s. induction events as [|[chain ev] rest IH]; intros s W.
  - injection W as <-. apply accountsKept_same_users. reflexivity.
  - cbn [index] in W.
    destruct (handle layout rnd _ chain ev s) as [s1|] eqn:E; [|discriminate W].
    eapply accountsKept_trans; [exact (handle_accounts _ _ _ _ _ E)|exact (IH s1 W)].
Qed.

End Accounts.

(** ** Totals under either version of the helpers *)

Section TotalsFacts.
Import Graph Schema Mapping.
Open Scope Q_scope.
Variable rnd : Q -> Q.
Hypothesis rounding : Rounding rnd.

Lemma rnd_nonneg (x : Q) : 0 <= x -> 0 <= rnd x.
Proof.
  intros Hx. rewrite <- (rnd_zero rnd rounding). apply (rnd_mono rnd rounding), Hx.
Qed.

Lemma minimal_step_normalised userId dep wd bn s :
  normalisedTotals rnd s ->
  normalisedTotals rnd (HelpersMinimal.updateUserAggregates rnd userId dep wd bn s).
Proof.
  intros Hn user u Hu. destruct (decide (user = userId)) as [->|Hne].
  - destruct (updated_user_minimal rnd userId dep wd bn s) as (u' & Hu' & Hd & Hw & _).
    rewrite Hu' in Hu. injection Hu as <-. rewrite Hd, Hw.
    split; apply (plus_normalised rnd rounding).
  - rewrite (other_users_minimal rnd userId dep wd bn s user Hne) in Hu.
    apply (Hn user u Hu).
Qed.

Lemma runUpdates_normalised calls s :
  normalisedTotals rnd s -> normalisedTotals rnd (runUpdates rnd calls s).
Proof.
  revert s. induction calls as [|[[[userId dep] wd] bn] calls IH]; intros s Hn; [exact Hn|].
  cbn [runUpdates fold_left]. apply IH, (defensive_step_normalised rnd rounding), Hn.
Qed.

Lemma runUpdatesMinimal_normalised calls s :
  normalisedTotals rnd s -> normalisedTotals rnd (runUpdatesMinimal rnd calls s).
Proof.
  revert s. induction calls as [|[[[userId dep] wd] bn] calls IH]; intros s Hn; [exact Hn|].
  cbn [runUpdatesMinimal fold_left]. apply IH, minimal_step_normalised, Hn.
Qed.

Lemma runUpdatesMinimal_monotone calls s user :
  normalisedTotals rnd s -> Forall nonNegativeCall calls ->
  depositedOf s user <= depositedOf (runUpdatesMinimal rnd calls s) user
  /\ withdrawnOf s user <= withdrawnOf (runUpdatesMinimal rnd calls s) user.
Proof.
  intros Hn Hc. revert s Hn.
  induction Hc as [|[[[userId dep] wd] bn] calls [Hd Hw] _ IH]; intros s Hn.
  - cbn. split; apply Qle_refl.
  - cbn [runUpdatesMinimal fold_left]. cbn [fst snd] in Hd, Hw.
    destruct (minimal_step_monotone rnd rounding userId dep wd bn s user Hn Hd Hw) as [A B].
    destruct (IH _ (minimal_step_normalised userId dep wd bn s Hn)) as [C E].
    unfold runUpdatesMinimal in C, E. split; eapply Qle_trans; eassumption.
Qed.

(** The update of either version, given amounts that are not negative. *)
Lemma update_either_totals (H : HelpersModule) userId dep wd bn s :
  H = minimalHelpers rnd \/ H = defensiveHelpers rnd ->
  normalisedTotals rnd s -> 0 <= dep -> 0 <= wd ->
  normalisedTotals rnd (updateUserAggregates H userId dep wd bn s)
  /\ forall user,
       depositedOf s user <= depositedOf (updateUserAggregates H userId dep wd bn s) user
       /\ withdrawnOf s user
          <= withdrawnOf (updateUserAggregates H userId dep wd bn s) user.
Proof.
  intros [-> | ->] Hn Hd Hw; cbn [updateUserAggregates minimalHelpers defensiveHelpers].
  - split; [apply minimal_step_normalised, Hn|].
    intros user. apply (minimal_step_monotone rnd rounding); assumption.
  - split; [apply (defensive_step_normalised rnd rounding), Hn|].
    intros user. apply (defensive_step_monotone rnd rounding), Hn.
Qed.

Lemma exponentToBigDecimal_nonneg (decimals : Z) :
  0 <= Helpers.exponentToBigDecimal rnd decimals.
Proof.
  unfold Helpers.exponentToBigDecimal.
  induction (Z.to_nat decimals) as [|n IH]; [cbn; discriminate|].
  cbn [Nat.iter nat_rect]. unfold times. apply rnd_nonneg.
  apply Qmult_le_0_compat; [exact IH|discriminate].
Qed.

(** A converted amount is not negative when the raw amount is not. *)
Lemma toDecimal_nonneg (H : HelpersModule) (a decimals : Z) :
  H = minimalHelpers rnd \/ H = defensiveHelpers rnd ->
  (0 <= a)%Z -> 0 <= toDecimal H a decimals.
Proof.
  intros HH Ha.
  assert (Hq : 0 <= toBigDecimal a).
  { unfold toBigDecimal. change 0 with (inject_Z 0). rewrite <- Zle_Qle. exact Ha. }
  assert (Hdiv : forall p, 0 <= p -> 0 <= div rnd (toBigDecimal a) p).
  { intros p Hp. unfold div. apply rnd_nonneg. unfold Qdiv.
    apply Qmult_le_0_compat; [exact Hq|apply Qinv_le_0_compat, Hp]. }
  destruct HH as [-> | ->]; cbn [toDecimal minimalHelpers defensiveHelpers].
  - unfold HelpersMinimal.toDecimal. destruct (decimals <=? 0)%Z; [exact Hq|].
    apply Hdiv. unfold toBigDecimal. change 0 with (inject_Z 0). rewrite <- Zle_Qle.
    apply Z.pow_nonneg. lia.
  - unfold Helpers.toDecimal. apply Hdiv, exponentToBigDecimal_nonneg.
Qed.

(** The rate of either layout is not negative when the token contract
    answers an unsigned integer. *)
Lemma rateSource_nonneg (layout : Layout) (H : HelpersModule) (chain : Chain)
  (tokenAddr : Address) (block : Block) :
  H = minimalHelpers rnd \/ H = defensiveHelpers rnd ->
  unsignedRates chain -> 0 <= rateSource layout H chain tokenAddr block.
Proof.
  intros HH Hc. destruct layout; cbn [rateSource].
  - unfold Mapping.fetchRedemptionRate.
    repeat destruct (bytes_eqb _ _); discriminate.
  - unfold MappingFlat.fetchRedemptionRate.
    destruct (bytes_eqb _ _); [discriminate|].
    destruct (bytes_eqb _ _).
    + destruct (try_decimalConversionRate chain tokenAddr) as [value|] eqn:E;
        [|discriminate].
      apply toDecimal_nonneg; [exact HH|exact (Hc tokenAddr value E)].
    + destruct (bytes_eqb _ _); discriminate.
Qed.

Lemma normalisedTotals_users (s s' : Store) :
  users s' = users s -> normalisedTotals rnd s -> normalisedTotals rnd s'.
Proof. intros E Hn user u. rewrite E. apply Hn. Qed.

Lemma totals_users (s s' : Store) (user : string) :
  users s' = users s ->
  depositedOf s' user = depositedOf s user /\ withdrawnOf s' user = withdrawnOf s user.
Proof. intros E. unfold depositedOf, withdrawnOf. rewrite E. split; reflexivity. Qed.

Lemma nonNegativeRates_rates (s s' : Store) :
  oracleRates s' = oracleRates s -> nonNegativeRates s -> nonNegativeRates s'.
Proof. intros E Hr k o. rewrite E. apply Hr. Qed.

Lemma rate_record_nonneg tokenAddr block rate src s o s1 :
  nonNegativeRates s -> 0 <= rate ->
  Helpers.getOrCreateOracleRate tokenAddr block rate src s = (o, s1) ->
  nonNegativeRates s1 /\ 0 <= rateToETH o /\ users s1 = users s.
Proof.
  intros Hr Hrate E.
  destruct (oracleRates s !! oracleRateId tokenAddr block) as [x|] eqn:L.
  - rewrite (getOrCreateOracleRate_existing _ _ _ _ _ _ L) in E.
    injection E as <- <-. split; [exact Hr|]. split; [exact (Hr _ _ L)|reflexivity].
  - rewrite (getOrCreateOracleRate_fresh _ _ _ _ _ L) in E.
    injection E as <- <-. split; [|split; [exact Hrate|reflexivity]].
    intros k o Hk. cbn [oracleRates set_oracleRates] in Hk.
    destruct (decide (k = oracleRateId tokenAddr block)) as [->|Hne].
    + rewrite lookup_insert_eq in Hk. injection Hk as <-. exact Hrate.
    + rewrite lookup_insert_ne in Hk by congruence. exact (Hr k o Hk).
Qed.

Lemma keepsTotals_trans (s1 s2 s3 : Store) :
  keepsTotals rnd s1 s2 -> keepsTotals rnd s2 s3 -> keepsTotals rnd s1 s3.
Proof.
  intros (_ & _ & M1) (N & R & M2). split; [exact N|]. split; [exact R|].
  intros user. destruct (M1 user), (M2 user). split; eapply Qle_trans; eassumption.
Qed.

Lemma writeRow_totals (H : HelpersModule) chain rateOf kind ev pool i a s s' :
  H = minimalHelpers rnd \/ H = defensiveHelpers rnd ->
  (forall tokenAddr block, 0 <= rateOf tokenAddr block) -> (0 <= a)%Z ->
  normalisedTotals rnd s -> nonNegativeRates s ->
  writeRow rnd H chain rateOf kind ev pool i a s = Ok s' -> keepsTotals rnd s s'.
Proof.
  intros HH Hrate Ha Hn Hr W. pose proof (either_disciplined rnd H HH) as D.
  destruct (writeRow_inv rnd H chain rateOf kind ev pool i a s s' D W)
    as (t0 & o & s1 & _ & _ & E & Hs'). cbv zeta in Hs'.
  destruct (rate_record_nonneg _ _ _ _ _ _ _ Hr (Hrate _ _) E) as (Hr1 & Ho & Hu1).
  set (amountWETH := times rnd (toDecimal H a (fetchTokenDecimals H chain (fallbackToken H t0 i)))
                       (rateToETH o)) in *.
  assert (Hamt : 0 <= amountWETH).
  { unfold amountWETH, times. apply rnd_nonneg.
    apply Qmult_le_0_compat; [apply toDecimal_nonneg; assumption|exact Ho]. }
  assert (Hdep : 0 <= depositPart kind amountWETH) by (destruct kind; [exact Hamt|discriminate]).
  assert (Hwd : 0 <= withdrawalPart kind amountWETH) by (destruct kind; [discriminate|exact Hamt]).
  match type of Hs' with
  | _ = updateUserAggregates H ?u ?d ?w ?b ?x =>
      set (s2 := x) in *;
      destruct (update_frame H D u d w b s2) as (_ & Uo & _ & _ & _);
      assert (Hu2 : users s2 = users s) by (unfold s2; destruct kind; exact Hu1);
      assert (Ho2 : oracleRates s2 = oracleRates s1) by (unfold s2; destruct kind; reflexivity);
      destruct (update_either_totals H u d w b s2 HH
                  (normalisedTotals_users s s2 Hu2 Hn) Hdep Hwd) as [N M]
  end.
  rewrite <- Hs' in N, M, Uo.
  split; [exact N|]. split.
  - apply (nonNegativeRates_rates s1 s'); [congruence|exact Hr1].
  - intros user. destruct (totals_users s s2 user Hu2) as [Ed Ew].
    destruct (M user) as [Md Mw]. rewrite Ed in Md. rewrite Ew in Mw. split; assumption.
Qed.

Lemma writeAll_totals (H : HelpersModule) chain rateOf kind ev pool rows s s' :
  H = minimalHelpers rnd \/ H = defensiveHelpers rnd ->
  (forall tokenAddr block, 0 <= rateOf tokenAddr block) ->
  Forall (fun r => 0 <= snd r)%Z rows ->
  normalisedTotals rnd s -> nonNegativeRates s ->
  writeAll rnd H chain rateOf kind ev pool rows s = Ok s' -> keepsTotals rnd s s'.
Proof.
  intros HH Hrate Hrows. revert s.
  induction Hrows as [|[i a] rest Ha _ IH]; intros s Hn Hr W.
  - injection W as <-. split; [exact Hn|]. split; [exact Hr|].
    intros user. split; apply Qle_refl.
  - cbn [writeAll] in W. cbn [snd] in Ha. destruct (a =? 0)%Z.
    + exact (IH s Hn Hr W).
    + destruct (writeRow rnd H chain rateOf kind ev pool i a s) as [s1|] eqn:R;
        [|discriminate W].
      pose proof (writeRow_totals H chain rateOf kind ev pool i a s s1 HH Hrate Ha Hn Hr R)
        as K1.
      destruct K1 as (N1 & R1 & M1).
      eapply keepsTotals_trans; [exact (conj N1 (conj R1 M1))|].
      exact (IH s1 N1 R1 W).
Qed.

Lemma indexedFrom_unsigned (i : Z) (amounts : list Z) :
  Forall (fun a => 0 <= a)%Z amounts ->
  Forall (fun r => 0 <= snd r)%Z (indexedFrom i amounts).
Proof.
  intros Ha. revert i. induction Ha as [|a rest Ha _ IH]; intros i; [constructor|].
  cbn [indexedFrom]. constructor; [exact Ha|apply IH].
Qed.

Lemma eventRows_unsigned (ev : PoolEvent) :
  unsignedAmounts ev -> Forall (fun r => 0 <= snd r)%Z (eventRows ev).
Proof.
  destruct ev as [e|e|e]; cbn [unsignedAmounts eventRows]; intros Ha.
  - apply indexedFrom_unsigned, Ha.
  - apply indexedFrom_unsigned, Ha.
  - constructor; [exact Ha|constructor].
Qed.

Lemma handle_totals (H : HelpersModule) layout chain ev s s' :
  H = minimalHelpers rnd \/ H = defensiveHelpers rnd ->
  unsignedRates chain -> unsignedAmounts ev ->
  normalisedTotals rnd s -> nonNegativeRates s ->
  handle layout rnd H chain ev s = Ok s' -> keepsTotals rnd s s'.
Proof.
  intros HH Hc Ha Hn Hr W. pose proof (either_disciplined rnd H HH) as D.
  destruct (handle_shape rnd H D chain layout ev s s' W)
    as (s1 & _ & (_ & _ & Lu & Lo) & _ & Hcase).
  assert (K1 : keepsTotals rnd s s1).
  { split; [exact (normalisedTotals_users s s1 Lu Hn)|].
    split; [exact (nonNegativeRates_rates s s1 Lo Hr)|].
    intros user. destruct (totals_users s s1 user Lu) as [-> ->].
    split; apply Qle_refl. }
  destruct Hcase as [(_ & _ & ->)|[_ W1]]; [exact K1|].
  eapply keepsTotals_trans; [exact K1|].
  destruct K1 as (N1 & R1 & _).
  apply (writeAll_totals H chain (rateSource layout H chain) (eventKind ev) (eventMeta ev)
           (pools s1 !! toHexString (POOL_ADDRESS H)) (eventRows ev) s1 s' HH);
    try assumption.
  - intros tokenAddr block. apply rateSource_nonneg; assumption.
  - apply eventRows_unsigned, Ha.
Qed.

Lemma index_totals (H : HelpersModule) layout events s s' :
  H = minimalHelpers rnd \/ H = defensiveHelpers rnd ->
  Forall (fun ce => unsignedRates (fst ce) /\ unsignedAmounts (snd ce)) events ->
  normalisedTotals rnd s -> nonNegativeRates s ->
  index layout rnd H events s = Ok s' -> keepsTotals rnd s s'.
Proof.
  intros HH Hev. revert s.
  induction Hev as [|[chain ev] rest [Hc Ha] _ IH]; intros s Hn Hr W.
  - injection W as <-. split; [exact Hn|]. split; [exact Hr|].
    intros user. split; apply Qle_refl.
  - cbn [index] in W. cbn [fst snd] in Hc, Ha.
    destruct (handle layout rnd H chain ev s) as [s1|] eqn:E; [|discriminate W].
    cbn [mbind outcome_bind obind] in W.
    pose proof (handle_totals H layout chain ev s s1 HH Hc Ha Hn Hr E) as K1.
    eapply keepsTotals_trans; [exact K1|].
    destruct K1 as (N1 & R1 & _). exact (IH s1 N1 R1 W).
Qed.

End TotalsFacts.

Section TotalsRuns.
Import Graph Schema Mapping.
Open Scope Q_scope.
Variable rnd : Q -> Q.

Lemma runUpdates_app calls more s :
  runUpdates rnd (calls ++ more) s = runUpdates rnd more (runUpdates rnd calls s).
Proof. apply fold_left_app. Qed.

Lemma runUpdatesMinimal_app calls more s :
  runUpdatesMinimal rnd (calls ++ more) s
  = runUpdatesMinimal rnd more (runUpdatesMinimal rnd calls s).
Proof. apply fold_left_app. Qed.

Lemma emptyStore_nonNegativeRates : nonNegativeRates emptyStore.
Proof. intros k o Hk. cbn in Hk. rewrite lookup_empty in Hk. discriminate. Qed.

End TotalsRuns.

(** C9.  No aggregate update lowers a total.  Under a host rounding, from
    a store whose totals are rounded values, and for every user: at no point
    of a sequence of calls of the defensive update, whatever amounts they
    carry, does a further call (or any number of them) lower totalDeposited
    or totalWithdrawn; the same holds for the minimal update along every
    sequence of calls whose amounts are not negative; and the handlers make
    no other calls: at no point of a run of events with unsigned amounts, in
    either layout and with either version of the helpers, does a further
    event lower a total. *)
Theorem totals_monotone_in_every_run :
  forall (rnd : Q -> Q), Graph.Rounding rnd ->
  forall (s : Schema.Store), normalisedTotals rnd s ->
  forall (user : string),
    (forall calls more,
        (depositedOf (runUpdates rnd calls s) user
         <= depositedOf (runUpdates rnd (calls ++ more) s) user)%Q
        /\ (withdrawnOf (runUpdates rnd calls s) user
            <= withdrawnOf (runUpdates rnd (calls ++ more) s) user)%Q)
    /\ (forall calls more,
          Forall nonNegativeCall (calls ++ more) ->
          (depositedOf (runUpdatesMinimal rnd calls s) user
           <= depositedOf (runUpdatesMinimal rnd (calls ++ more) s) user)%Q
          /\ (withdrawnOf (runUpdatesMinimal rnd calls s) user
              <= withdrawnOf (runUpdatesMinimal rnd (calls ++ more) s) user)%Q)
    /\ (forall (layout : Layout) (H : Mapping.HelpersModule)
               (events more : list (Graph.Chain * PoolEvent)) (s' s'' : Schema.Store),
          H = Mapping.minimalHelpers rnd \/ H = Mapping.defensiveHelpers rnd ->
          nonNegativeRates s ->
          Forall (fun ce => unsignedRates (fst ce) /\ unsignedAmounts (snd ce))
                 (events ++ more) ->
          index layout rnd H events s = Graph.Ok s' ->
          index layout rnd H more s' = Graph.Ok s'' ->
          (depositedOf s' user <= depositedOf s'' user)%Q
          /\ (withdrawnOf s' user <= withdrawnOf s'' user)%Q).
Proof.
  intros rnd R s Hn user. split; [|split].
  - intros calls more. rewrite runUpdates_app.
    apply (runUpdates_monotone rnd R), (runUpdates_normalised rnd R), Hn.
  - intros calls more Hc. rewrite runUpdatesMinimal_app.
    apply Forall_app in Hc as [Hc1 Hc2].
    apply (runUpdatesMinimal_monotone rnd R); [|exact Hc2].
    apply (runUpdatesMinimal_normalised rnd R), Hn.
  - intros layout H events more s' s'' HH Hr Hev W1 W2.
    apply Forall_app in Hev as [Hev1 Hev2].
    destruct (index_totals rnd R H layout events s s' HH Hev1 Hn Hr W1) as (N1 & R1 & _).
    destruct (index_totals rnd R H layout more s' s'' HH Hev2 N1 R1 W2) as (_ & _ & M).
    apply M.
Qed.

Lemma totals_monotone_in_every_run_witness :
  let user := "0x750e9a7b449904f47b793b805db469fa6e025e33"%string in
  (depositedOf Schema.emptyStore user <= depositedOf (afterMinimalDeposit Nested) user)%Q
  /\ (withdrawnOf Schema.emptyStore user
      <= withdrawnOf (afterMinimalDeposit Nested) user)%Q.
Proof.
  cbv zeta.
  apply (proj2 (proj2
           (totals_monotone_in_every_run Graph.decimal128 decimal128_rounding
              Schema.emptyStore (emptyStore_normalised Graph.decimal128)
              "0x750e9a7b449904f47b793b805db469fa6e025e33"%string))
           Nested (Mapping.minimalHelpers Graph.decimal128) []
           [(threeCoinChain, AddLiquidity sampleDeposit)]).
  - left. reflexivity.
  - exact emptyStore_nonNegativeRates.
  - repeat constructor; cbn; try lia. intros tokenAddr value Hv. discriminate Hv.
  - reflexivity.
  - vm_compute. reflexivity.
Defined.

(** X20.  Indexing keeps the references of the store intact: if every
    stored rate is keyed by its own id and every stored flow is keyed by its
    own id and refers to a stored rate, the same holds after any run of
    events that does not abort, in either layout and with either version of
    the helpers. *)
Theorem indexing_keeps_references (layout : Layout) (rnd : Q -> Q)
  (H : Mapping.HelpersModule) (events : list (Graph.Chain * PoolEvent))
  (s s' : Schema.Store) :
  H = Mapping.minimalHelpers rnd \/ H = Mapping.defensiveHelpers rnd ->
  wellReferenced s -> index layout rnd H events s = Graph.Ok s' -> wellReferenced s'.
Proof.
  intros HH Hs W.
  exact (index_wellReferenced rnd H (either_disciplined rnd H HH) layout events s s' Hs W).
Qed.

Lemma emptyStore_wellReferenced : wellReferenced Schema.emptyStore.
Proof.
  split.
  - intros k o Hk. cbn in Hk. rewrite lookup_empty in Hk. discriminate.
  - intros kind id f Hf. destruct kind; cbn in Hf; rewrite lookup_empty in Hf; discriminate.
Qed.

Lemma indexing_keeps_references_witness : wellReferenced (afterSampleDeposit Flat).
Proof.
  apply (indexing_keeps_references Flat Graph.decimal128
           (Mapping.defensiveHelpers Graph.decimal128)
           [(threeCoinChain, AddLiquidity sampleDeposit)] Schema.emptyStore).
  - right. reflexivity.
  - exact emptyStore_wellReferenced.
  - vm_compute. reflexivity.
Defined.

(** X21.  Indexing with the defensive helpers keeps the accounts sound
    under a host rounding: from a store whose totals are rounded values, any
    run of events that does not abort leaves every total a rounded value,
    lowers no user's deposited or withdrawn total, and keeps every stored
    net equal to the rounded difference of the stored totals. *)
Theorem indexing_keeps_accounts (layout : Layout) (rnd : Q -> Q)
  (events : list (Graph.Chain * PoolEvent)) (s s' : Schema.Store) :
  Graph.Rounding rnd -> normalisedTotals rnd s ->
  index layout rnd (Mapping.defensiveHelpers rnd) events s = Graph.Ok s' ->
  normalisedTotals rnd s'
  /\ (netConsistent rnd s -> netConsistent rnd s')
  /\ (forall user, (depositedOf s user <= depositedOf s' user)%Q
                   /\ (withdrawnOf s user <= withdrawnOf s' user)%Q).
Proof.
  intros R Hn W. destruct (index_accounts rnd R layout events s s' W) as (N & C & M).
  split; [exact (N Hn)|]. split; [exact C|exact (M Hn)].
Qed.

Lemma indexing_keeps_accounts_witness :
  normalisedTotals Graph.decimal128 (afterSampleDeposit Nested)
  /\ (netConsistent Graph.decimal128 Schema.emptyStore ->
      netConsistent Graph.decimal128 (afterSampleDeposit Nested))
  /\ (forall user,
        (depositedOf Schema.emptyStore user <= depositedOf (afterSampleDeposit Nested) user)%Q
        /\ (withdrawnOf Schema.emptyStore user
            <= withdrawnOf (afterSampleDeposit Nested) user)%Q).
Proof.
  apply (indexing_keeps_accounts Nested Graph.decimal128
           [(threeCoinChain, AddLiquidity sampleDeposit)] Schema.emptyStore).
  - exact decimal128_rounding.
  - exact (emptyStore_normalised Graph.decimal128).
  - vm_compute. reflexivity.
Defined.

Lemma handler_writes_only_its_own_witness :
  let H := Mapping.defensiveHelpers Graph.decimal128 in
  let ev := AddLiquidity sampleDeposit in
  let s := Schema.emptyStore in
  let s' := afterSampleDeposit Nested in
  otherFlows (eventKind ev) s' = otherFlows (eventKind ev) s
  /\ (forall k, k ∉ writtenIds H (eventMeta ev) (eventRows ev) ->
        flowsOf (eventKind ev) s' !! k = flowsOf (eventKind ev) s !! k)
  /\ Schema.oracleRates s ⊆ Schema.oracleRates s'
  /\ (forall other,
        other <> Graph.toHexString (Mapping.params_provider (eventMeta ev)) ->
        Schema.users s' !! other = Schema.users s !! other)
  /\ (forall other, other <> Graph.toHexString (Mapping.POOL_ADDRESS H) ->
        Schema.pools s' !! other = Schema.pools s !! other).
Proof.
  cbv zeta.
  apply (handler_writes_only_its_own Graph.decimal128 Nested
           (Mapping.defensiveHelpers Graph.decimal128) threeCoinChain
           (AddLiquidity sampleDeposit) Schema.emptyStore (afterSampleDeposit Nested)).
  - right. reflexivity.
  - vm_compute. reflexivity.
Defined.

(** A token id of 2^31 is read as the index -2^31: the handler goes on and
    stores the Withdrawal under the id of that index. *)
Example wrapping_token_id_run :
  Graph.toI32 2147483648 = Graph.Ok (-2147483648)%Z
  /\ (map_to_list (Schema.withdrawals (afterWrappingWithdrawal Flat))).*1
     = ["0x48d878e4b6-7--2147483648"%string]
  /\ (map_to_list (Schema.withdrawals (afterWrappingWithdrawal Nested))).*1
     = ["0x48d878e4b6-7--2147483648"%string].
Proof. vm_compute. repeat split. Qed.

Lemma handler_records_each_row_witness :
  let H := Mapping.defensiveHelpers Graph.decimal128 in
  let ev := RemoveLiquidityOne wrappingWithdrawal in
  let s' := afterWrappingWithdrawal Flat in
  exists f o,
    flowsOf (eventKind ev) s' !! rowId H (eventMeta ev) (-2147483648) = Some f
    /\ Schema.flow_id f = rowId H (eventMeta ev) (-2147483648)
    /\ Schema.tokenIndex f = (-2147483648)%Z
    /\ Schema.amountRaw f = 1000000000000000000%Z
    /\ Schema.provider f = Mapping.params_provider (eventMeta ev)
    /\ Schema.blockNumber f = Graph.number (Mapping.block (eventMeta ev))
    /\ Schema.transactionHash f = Mapping.transaction_hash (eventMeta ev)
    /\ Schema.oracleRates s'
         !! oracleRateId (Schema.token f) (Mapping.block (eventMeta ev)) = Some o
    /\ Schema.rateToETHId f = Schema.oracle_id o
    /\ Schema.amountWETH f
       = Graph.times Graph.decimal128
           (Mapping.toDecimal H 1000000000000000000
              (Mapping.fetchTokenDecimals H threeCoinChain (Schema.token f)))
           (Schema.rateToETH o)
    /\ exists tokenAddr0,
         Mapping.getTokenAddressFromPool H
           (Schema.pools s' !! Graph.toHexString (Mapping.POOL_ADDRESS H)) (-2147483648)
         = Graph.Ok tokenAddr0
         /\ Schema.token f = Mapping.fallbackToken H tokenAddr0 (-2147483648).
Proof.
  cbv zeta.
  apply (handler_records_each_row Graph.decimal128 Flat
           (Mapping.defensiveHelpers Graph.decimal128) threeCoinChain
           (RemoveLiquidityOne wrappingWithdrawal)
           (afterSampleDeposit Flat) (afterWrappingWithdrawal Flat)).
  - right. reflexivity.
  - vm_compute. reflexivity.
  - discriminate.
  - apply list_elem_of_In. left. reflexivity.
  - discriminate.
Defined.

Lemma emptyStore_poolReadable : poolReadable Schema.emptyStore.
Proof. intros p Hp. cbn in Hp. rewrite lookup_empty in Hp. discriminate. Qed.

Lemma defensive_handlers_never_abort_witness :
  exists s',
    index Nested Graph.decimal128 (Mapping.defensiveHelpers Graph.decimal128)
      [(threeCoinChain, AddLiquidity sampleDeposit);
       (threeCoinChain, RemoveLiquidityOne wrappingWithdrawal)] Schema.emptyStore
    = Graph.Ok s'
    /\ poolReadable s'.
Proof.
  apply (defensive_handlers_never_abort Graph.decimal128 Nested
           [(threeCoinChain, AddLiquidity sampleDeposit);
            (threeCoinChain, RemoveLiquidityOne wrappingWithdrawal)] Schema.emptyStore).
  - exact emptyStore_poolReadable.
  - repeat constructor; cbn; lia.
Defined.

(** ** The stored pool *)

Section PoolFacts.
Import Graph Schema Mapping.
Local Open Scope string_scope.
Variable rnd : Q -> Q.
Variable chain : Chain.

(** X22.  The handlers of the nested layout drop an event when no Pool is
    on record and discovery finds no token: with the defensive helpers they
    return the store exactly as it was, non-zero rows included. *)
Theorem nested_handlers_skip_without_pool (ev : PoolEvent) (s : Store) :
  pools s !! toHexString Helpers.POOL_ADDRESS = None ->
  Helpers.validate
    (Helpers.probe chain Helpers.POOL_ADDRESS (Z.to_nat Helpers.maxIndex_default) 0 []) = [] ->
  handle Nested rnd (defensiveHelpers rnd) chain ev s = Ok s.
Proof.
  intros Hnone Hfound. rewrite discovery_refines_spec in Hfound.
  assert (L : forall m, loadPool (defensiveHelpers rnd) chain m s = (s, None)).
  { intros m. unfold loadPool. cbn [initPoolIfNeeded POOL_ADDRESS defensiveHelpers].
    rewrite !(initPoolIfNeeded_nothing_found chain Helpers.POOL_ADDRESS _ _ _ Hfound).
    rewrite Hnone. reflexivity. }
  destruct ev as [e|e|e]; cbn [handle];
    unfold Mapping.handleAddLiquidity, Mapping.handleRemoveLiquidity,
      Mapping.handleRemoveLiquidityOne; rewrite L; reflexivity.
Qed.

(** X23.  Discovery and lookup fit together: after a discovery that
    found at least one token, the positional lookup in the stored Pool
    answers the validated coin at that position, and the zero address for a
    negative position or one past the last coin. *)
Theorem lookup_after_discovery (poolAddr : Address) (block : Block) (maxIndex : Z)
  (s : Store) (i : Z) :
  let found := Helpers.validate (Helpers.probe chain poolAddr (Z.to_nat maxIndex) 0 []) in
  let s' := Helpers.initPoolIfNeeded chain poolAddr block maxIndex s in
  found <> [] ->
  Helpers.getTokenAddressFromPool (pools s' !! toHexString poolAddr) i
  = Ok (if decide (0 <= i)%Z
        then default Helpers.ZERO_ADDRESS (found !! Z.to_nat i)
        else Helpers.ZERO_ADDRESS).
Proof.
  cbv zeta. rewrite discovery_refines_spec. intros Hfound.
  rewrite (initPoolIfNeeded_found chain poolAddr _ _ _ Hfound). cbn [pools set_pools].
  rewrite lookup_insert_eq, getTokenAddressFromPool_answer.
  unfold lookupAnswer.
  rewrite (Pool_tokens_typed _ (spec_discover chain poolAddr maxIndex)) by reflexivity.
  f_equal. unfold entryAnswer.
  destruct (spec_discover chain poolAddr maxIndex !! Z.to_nat i) as [b|] eqn:E;
    cbn [default from_option Datatypes.id].
  - destruct (decide (0 <= i)%Z); [|reflexivity].
    assert (Hb : length b = 20%nat).
    { apply list_elem_of_lookup_2, list_elem_of_In in E. unfold spec_discover in E.
      apply filter_In in E as [_ Hb]. apply Nat.eqb_eq, Hb. }
    destruct (decide (length b = 20%nat)); [reflexivity|contradiction].
  - destruct (decide (0 <= i)%Z); reflexivity.
Qed.

End PoolFacts.

Lemma nested_handlers_skip_without_pool_witness :
  handle Nested Graph.decimal128 (Mapping.defensiveHelpers Graph.decimal128) deadChain
    (AddLiquidity sampleDeposit) Schema.emptyStore = Graph.Ok Schema.emptyStore.
Proof.
  apply (nested_handlers_skip_without_pool Graph.decimal128 deadChain
           (AddLiquidity sampleDeposit) Schema.emptyStore); reflexivity.
Defined.

Lemma lookup_after_discovery_witness :
  let block := {| Graph.number := 39496719; Graph.timestamp := 1700000000 |} in
  Helpers.getTokenAddressFromPool
    (Schema.pools
       (Helpers.initPoolIfNeeded threeCoinChain Helpers.POOL_ADDRESS block
          Helpers.maxIndex_default Schema.emptyStore)
     !! Graph.toHexString Helpers.POOL_ADDRESS) 1
  = Graph.Ok Helpers.WSTETH_ADDRESS.
Proof.
  cbv zeta.
  rewrite (lookup_after_discovery threeCoinChain Helpers.POOL_ADDRESS
             {| Graph.number := 39496719; Graph.timestamp := 1700000000 |}
             Helpers.maxIndex_default Schema.emptyStore 1).
  - reflexivity.
  - vm_compute. discriminate.
Defined.
